(** * Hash tables with open addressing and with AVL buckets

    A shallow embedding of [hash_table_base.h], [open_addressing_hash_table.h]
    and [avl_hash_table.h], with the demonstration of the harness, and the
    properties of the two containers.

    Conventions of the embedding.
    - [int] keys and values are integers of [Z]; the only arithmetic the
      containers do on a key is the conversion to [unsigned int] inside
      [hash_function], which is written out modulo [2^32].
    - [size_t] capacities, indices and element counts are natural numbers.
      A [std::vector] never holds [2^63] slots, so doubling the capacity
      does not wrap, and a counter of live entries stays below the capacity
      or one above it; the one decrement, in [remove], is taken on a table
      that holds a live entry (C7 below: the size was a successor).
    - The load-factor test [static_cast<double>(current_size) / table_size >
      MAX_LOAD_FACTOR] is the integer comparison it denotes:
      [table_size < 2 * current_size] for the factor [0.5] and
      [table_size < current_size] for the factor [1.0]. The two agree as
      long as the counts are below [2^53], where the conversion to [double]
      is exact and the rounded quotient is on the same side of the
      threshold; with a zero capacity the quotient is NaN (never above the
      threshold) or +inf (always above it), and the comparison agrees too.
    - Undefined behaviour (a remainder by zero, an index outside a vector,
      a null pointer dereferenced) is an explicit fault of the [outcome]
      type; [NoFuel] is not a behaviour of the program but the end of a
      bounded unfolding.
    - What [display] and the demonstration of the harness write to
      [std::cout] is the list of the lines written, a line being the
      operands of [<<] up to a [std::endl]: string literals, [size_t]
      numbers and [int] numbers. *)

From Stdlib Require Import ZArith Lia Ascii.
From stdpp Require Import base numbers option list sorting gmap strings pretty.

(** * Part I: the program *)

(** ** Outcomes of a call *)

Inductive outcome (A : Type) : Type :=
| Done (a : A)      (* the call returns *)
| ModZero           (* remainder by a zero capacity *)
| OutOfRange        (* a vector indexed outside its size *)
| NullDeref         (* a null node dereferenced *)
| NoFuel.           (* the bound on the unfolding ran out *)
Arguments Done {A} a.
Arguments ModZero {A}.
Arguments OutOfRange {A}.
Arguments NullDeref {A}.
Arguments NoFuel {A}.

Definition outcome_bind {A B} (f : A → outcome B) (x : outcome A) : outcome B :=
  match x with
  | Done a => f a
  | ModZero => ModZero
  | OutOfRange => OutOfRange
  | NullDeref => NullDeref
  | NoFuel => NoFuel
  end.

#[global] Instance outcome_mbind : MBind outcome := @outcome_bind.
#[global] Instance outcome_mret : MRet outcome := @Done.

(** [v[i]] on a [std::vector]. *)
Definition at_index {A} (v : list A) (i : nat) : outcome A :=
  match v !! i with
  | Some x => Done x
  | None => OutOfRange
  end.

(** ** The hashing utility of [HashTableBase] *)

Module Hash.

Definition uint32 (z : Z) : Z := z mod 2 ^ 32.
Definition size_t (z : Z) : Z := z mod 2 ^ 64.

(** The third version of the header: the key is cast to [unsigned int],
    mixed by two rounds of shift, xor and multiplication and a final
    shift and xor, all in 32 bits. *)
Definition mix_round (ukey : Z) : Z :=
  uint32 (Z.lxor (Z.shiftr ukey 16) ukey * 0x45d9f3b).

Definition mix (key : Z) : Z :=
  let ukey := uint32 key in
  let ukey := mix_round ukey in
  let ukey := mix_round ukey in
  Z.lxor (Z.shiftr ukey 16) ukey.

(** [hash_function(key, table_size)]: a [size_t] computed from the key,
    reduced modulo the capacity. [hasher] is that value before the
    reduction: [std::hash<int>{}(key)] in the first two versions of the
    header, whose value the C++ library chooses, and [mix] in the third. *)
Definition hash_function (hasher : Z → Z) (key : Z) (table_size : nat)
  : outcome nat :=
  if table_size =? 0 then ModZero
  else Done (Z.to_nat (size_t (hasher key) mod Z.of_nat table_size)).

(** What libstdc++ and libc++ take for [std::hash<int>]: the conversion
    of the key to [size_t]. *)
Definition std_hash_identity (key : Z) : Z := size_t key.

End Hash.

(** ** The open-addressing table: [open_addressing_hash_table.h] *)

Module OpenAddressing.

Inductive EntryState : Type := EMPTY | OCCUPIED | DELETED.

#[global] Instance EntryState_eq_dec : EqDecision EntryState.
Proof. solve_decision. Defined.

Record Entry : Type := mkEntry { key : Z; value : Z; state : EntryState }.

(** [Entry()] and [Entry(k, v)]. *)
Definition Entry_default : Entry := mkEntry 0 0 EMPTY.
Definition Entry_of (k v : Z) : Entry := mkEntry k v OCCUPIED.

Record HashTable : Type := mkTable {
  table : list Entry;
  table_size : nat;
  current_size : nat
}.

(** [entry.state == OCCUPIED && entry.key == key], the test that [insert],
    [remove] and [find] all make on the probed slot. *)
Definition holds (e : Entry) (k : Z) : bool :=
  bool_decide (state e = OCCUPIED) && bool_decide (key e = k).

(** The condition of the [while] of [probe]. *)
Definition keeps_probing (e : Entry) (k : Z) : bool :=
  bool_decide (state e ≠ EMPTY)
  && (bool_decide (state e = DELETED) || bool_decide (key e ≠ k)).

Section WithHasher.

(** The value [hash_function] reduces modulo the capacity. *)
Context (hasher : Z → Z).

Definition hash_function : Z → nat → outcome nat := Hash.hash_function hasher.

(** The loop of [probe]; each unit of [fuel] pays for one evaluation of the
    loop condition, that is for one slot examined. *)
Fixpoint probe_loop (fuel : nat) (t : HashTable) (k : Z)
    (original_index index : nat) : outcome nat :=
  match fuel with
  | 0 => NoFuel
  | S fuel' =>
      e ← at_index (table t) index;
      if keeps_probing e k then
        if table_size t =? 0 then ModZero
        else
          let index' := (index + 1) mod table_size t in
          if index' =? original_index then Done index'
          else probe_loop fuel' t k original_index index'
      else Done index
  end.

(** [probe(key)]. The loop is unfolded [table_size] times, which is as good
    as any larger bound ([OpenAddressingProbe.probe_spec]): after that many
    slots the index is back at [original_index]. *)
Definition probe (t : HashTable) (k : Z) : outcome nat :=
  index ← hash_function k (table_size t);
  probe_loop (table_size t) t k index index.

(** [static_cast<double>(current_size) / table_size > MAX_LOAD_FACTOR] with
    [MAX_LOAD_FACTOR = 0.5]. *)
Definition over_load (t : HashTable) : bool :=
  table_size t <? 2 * current_size t.

(** The part of [insert] below the load-factor test. *)
Definition place (t : HashTable) (k v : Z) : outcome (HashTable * bool) :=
  index ← probe t k;
  e ← at_index (table t) index;
  if holds e k then
    Done (mkTable (<[index := mkEntry (key e) v (state e)]> (table t))
                  (table_size t) (current_size t), true)
  else if bool_decide (state e ≠ OCCUPIED) then
    Done (mkTable (<[index := Entry_of k v]> (table t))
                  (table_size t) (current_size t + 1), true)
  else Done (t, false).

(** The [for] loop of [resize]: every occupied entry of the old vector is
    inserted again; the flag [insert] returns is dropped, as in the code. *)
Fixpoint reinsert (insert : HashTable → Z → Z → outcome (HashTable * bool))
    (old_table : list Entry) (t : HashTable) : outcome HashTable :=
  match old_table with
  | [] => Done t
  | entry :: rest =>
      if bool_decide (state entry = OCCUPIED) then
        r ← insert t (key entry) (value entry);
        reinsert insert rest r.1
      else reinsert insert rest t
  end.

(** [resize()], given the [insert] it calls back. *)
Definition resize (insert : HashTable → Z → Z → outcome (HashTable * bool))
    (t : HashTable) : outcome HashTable :=
  let old_table := table t in
  let table_size' := table_size t * 2 in
  reinsert insert old_table
    (mkTable (replicate table_size' Entry_default) table_size' 0).

(** [insert(key, value)]. [insert] and [resize] call each other; [fuel]
    bounds the depth of that recursion. *)
Fixpoint insert (fuel : nat) (t : HashTable) (k v : Z)
    : outcome (HashTable * bool) :=
  match fuel with
  | 0 => NoFuel
  | S fuel' =>
      t ← (if over_load t then resize (insert fuel') t else Done t);
      place t k v
  end.

(** [remove(key)]. *)
Definition remove (t : HashTable) (k : Z) : outcome (HashTable * bool) :=
  index ← probe t k;
  e ← at_index (table t) index;
  if holds e k then
    Done (mkTable (<[index := mkEntry (key e) (value e) DELETED]> (table t))
                  (table_size t) (current_size t - 1), true)
  else Done (t, false).

(** [find(key, value)]: [Some v] stands for [true] with [v] written to the
    output slot, [None] for [false] with the slot left alone. *)
Definition find (t : HashTable) (k : Z) : outcome (option Z) :=
  index ← probe t k;
  e ← at_index (table t) index;
  if holds e k then Done (Some (value e)) else Done None.

Definition size (t : HashTable) : nat := current_size t.

(** [clear()]: every state becomes [EMPTY]; keys and values stay. *)
Definition clear (t : HashTable) : HashTable :=
  mkTable ((λ e, mkEntry (key e) (value e) EMPTY) <$> table t)
          (table_size t) 0.

(** The constructor. *)
Definition new (initial_size : nat) : HashTable :=
  mkTable (replicate initial_size Entry_default) initial_size 0.

End WithHasher.

End OpenAddressing.

(** ** The table with AVL buckets: [avl_hash_table.h] *)

Module AVLTable.

(** A pointer to an [AVLNode]: null, or a node with its five fields. *)
Inductive AVLNode : Type :=
| null
| node (key value height : Z) (left right : AVLNode).

Record AVLHashTable : Type := mkTable {
  table : list AVLNode;
  table_size : nat;
  current_size : nat
}.

Definition get_height (n : AVLNode) : Z :=
  match n with
  | null => 0
  | node _ _ h _ _ => h
  end.

Definition get_balance (n : AVLNode) : Z :=
  match n with
  | null => 0
  | node _ _ _ l r => (get_height l - get_height r)%Z
  end.

Definition update_height (n : AVLNode) : AVLNode :=
  match n with
  | null => null
  | node k v _ l r =>
      node k v (1 + Z.max (get_height l) (get_height r))%Z l r
  end.

(** [n->key] and [n->value]. *)
Definition key_of (n : AVLNode) : outcome Z :=
  match n with
  | null => NullDeref
  | node k _ _ _ _ => Done k
  end.

Definition value_of (n : AVLNode) : outcome Z :=
  match n with
  | null => NullDeref
  | node _ v _ _ _ => Done v
  end.

Definition rotate_right (y : AVLNode) : outcome AVLNode :=
  match y with
  | node yk yv yh (node xk xv xh T1 T2) T3 =>
      let y' := update_height (node yk yv yh T2 T3) in
      Done (update_height (node xk xv xh T1 y'))
  | _ => NullDeref
  end.

Definition rotate_left (x : AVLNode) : outcome AVLNode :=
  match x with
  | node xk xv xh T1 (node yk yv yh T2 T3) =>
      let x' := update_height (node xk xv xh T1 T2) in
      Done (update_height (node yk yv yh x' T3))
  | _ => NullDeref
  end.

(** [a && b], where [b] is evaluated only when [a] holds. *)
Definition and_then (a : bool) (b : outcome bool) : outcome bool :=
  if a then b else Done false.

(** The tail of [insert_avl], from [update_height(node)] on. *)
Definition rebalance_inserted (n : AVLNode) (k : Z) : outcome AVLNode :=
  match update_height n with
  | null => Done null
  | node nk nv nh l r =>
      let balance := (get_height l - get_height r)%Z in
      c ← and_then (1 <? balance)%Z (lk ← key_of l; Done (k <? lk)%Z);
      if c : bool then rotate_right (node nk nv nh l r) else
      c ← and_then (balance <? -1)%Z (rk ← key_of r; Done (rk <? k)%Z);
      if c : bool then rotate_left (node nk nv nh l r) else
      c ← and_then (1 <? balance)%Z (lk ← key_of l; Done (lk <? k)%Z);
      if c : bool then
        l' ← rotate_left l; rotate_right (node nk nv nh l' r)
      else
      c ← and_then (balance <? -1)%Z (rk ← key_of r; Done (k <? rk)%Z);
      if c : bool then
        r' ← rotate_right r; rotate_left (node nk nv nh l r')
      else Done (node nk nv nh l r)
  end.

Fixpoint insert_avl (n : AVLNode) (k v : Z) : outcome (AVLNode * bool) :=
  match n with
  | null => Done (node k v 1 null null, true)
  | node nk nv nh l r =>
      if (k <? nk)%Z then
        '(l', inserted) ← insert_avl l k v;
        n' ← rebalance_inserted (node nk nv nh l' r) k;
        Done (n', inserted)
      else if (nk <? k)%Z then
        '(r', inserted) ← insert_avl r k v;
        n' ← rebalance_inserted (node nk nv nh l r') k;
        Done (n', inserted)
      else Done (node nk v nh l r, false)
  end.

Fixpoint find_min (n : AVLNode) : outcome AVLNode :=
  match n with
  | null => NullDeref
  | node _ _ _ null _ => Done n
  | node _ _ _ l _ => find_min l
  end.

(** The tail of [remove_avl], from [update_height(node)] on. *)
Definition rebalance_removed (n : AVLNode) : outcome AVLNode :=
  match update_height n with
  | null => Done null
  | node nk nv nh l r =>
      let balance := (get_height l - get_height r)%Z in
      if (1 <? balance)%Z && (0 <=? get_balance l)%Z then
        rotate_right (node nk nv nh l r)
      else if (1 <? balance)%Z && (get_balance l <? 0)%Z then
        l' ← rotate_left l; rotate_right (node nk nv nh l' r)
      else if (balance <? -1)%Z && (get_balance r <=? 0)%Z then
        rotate_left (node nk nv nh l r)
      else if (balance <? -1)%Z && (0 <? get_balance r)%Z then
        r' ← rotate_right r; rotate_left (node nk nv nh l r')
      else Done (node nk nv nh l r)
  end.

Fixpoint remove_avl (n : AVLNode) (k : Z) : outcome (AVLNode * bool) :=
  match n with
  | null => Done (null, false)
  | node nk nv nh l r =>
      if (k <? nk)%Z then
        '(l', removed) ← remove_avl l k;
        n' ← rebalance_removed (node nk nv nh l' r);
        Done (n', removed)
      else if (nk <? k)%Z then
        '(r', removed) ← remove_avl r k;
        n' ← rebalance_removed (node nk nv nh l r');
        Done (n', removed)
      else
        match l, r with
        | null, null => Done (null, true)
        | node _ _ _ _ _, null =>
            (* [*node = *temp] with the left child for [temp] *)
            n' ← rebalance_removed l; Done (n', true)
        | null, node _ _ _ _ _ =>
            n' ← rebalance_removed r; Done (n', true)
        | node _ _ _ _ _, node _ _ _ _ _ =>
            temp ← find_min r;
            tk ← key_of temp;
            tv ← value_of temp;
            '(r', _) ← remove_avl r tk;
            n' ← rebalance_removed (node tk tv nh l r');
            Done (n', true)
        end
  end.

Fixpoint find_avl (n : AVLNode) (k : Z) : option Z :=
  match n with
  | null => None
  | node nk nv _ l r =>
      if (k =? nk)%Z then Some nv
      else if (k <? nk)%Z then find_avl l k
      else find_avl r k
  end.

Section WithHasher.
Context (hasher : Z → Z).

Definition hash_function : Z → nat → outcome nat := Hash.hash_function hasher.

(** [static_cast<double>(current_size) / table_size > MAX_LOAD_FACTOR] with
    [MAX_LOAD_FACTOR = 1.0]. *)
Definition over_load (t : AVLHashTable) : bool :=
  table_size t <? current_size t.

(** The part of [insert] below the load-factor test. *)
Definition place (t : AVLHashTable) (k v : Z)
  : outcome (AVLHashTable * bool) :=
  index ← hash_function k (table_size t);
  root ← at_index (table t) index;
  '(root', inserted) ← insert_avl root k v;
  Done (mkTable (<[index := root']> (table t)) (table_size t)
                (if inserted : bool then current_size t + 1
                 else current_size t),
        true).

(** [collect_and_reinsert(node)]: the node, then its left subtree, then its
    right subtree. *)
Fixpoint collect_and_reinsert
    (insert : AVLHashTable → Z → Z → outcome (AVLHashTable * bool))
    (n : AVLNode) (t : AVLHashTable) : outcome AVLHashTable :=
  match n with
  | null => Done t
  | node k v _ l r =>
      t1 ← insert t k v;
      t2 ← collect_and_reinsert insert l t1.1;
      collect_and_reinsert insert r t2
  end.

(** The [for] loop of [resize]; [clear_avl] only frees the old nodes. *)
Fixpoint reinsert
    (insert : AVLHashTable → Z → Z → outcome (AVLHashTable * bool))
    (old_table : list AVLNode) (t : AVLHashTable) : outcome AVLHashTable :=
  match old_table with
  | [] => Done t
  | root :: rest =>
      t1 ← collect_and_reinsert insert root t;
      reinsert insert rest t1
  end.

Definition resize
    (insert : AVLHashTable → Z → Z → outcome (AVLHashTable * bool))
    (t : AVLHashTable) : outcome AVLHashTable :=
  let old_table := table t in
  let table_size' := table_size t * 2 in
  reinsert insert old_table (mkTable (replicate table_size' null) table_size' 0).

(** [insert(key, value)]; [fuel] bounds the depth of the recursion through
    [resize]. *)
Fixpoint insert (fuel : nat) (t : AVLHashTable) (k v : Z)
    : outcome (AVLHashTable * bool) :=
  match fuel with
  | 0 => NoFuel
  | S fuel' =>
      t ← (if over_load t then resize (insert fuel') t else Done t);
      place t k v
  end.

Definition remove (t : AVLHashTable) (k : Z)
  : outcome (AVLHashTable * bool) :=
  index ← hash_function k (table_size t);
  root ← at_index (table t) index;
  '(root', removed) ← remove_avl root k;
  Done (mkTable (<[index := root']> (table t)) (table_size t)
                (if removed : bool then current_size t - 1
                 else current_size t),
        removed).

Definition find (t : AVLHashTable) (k : Z) : outcome (option Z) :=
  index ← hash_function k (table_size t);
  root ← at_index (table t) index;
  Done (find_avl root k).

Definition size (t : AVLHashTable) : nat := current_size t.

Definition clear (t : AVLHashTable) : AVLHashTable :=
  mkTable ((λ _, null) <$> table t) (table_size t) 0.

Definition new (initial_size : nat) : AVLHashTable :=
  mkTable (replicate initial_size null) initial_size 0.

End WithHasher.

End AVLTable.

(** ** The interface [HashTableBase] and sequences of calls *)

Module Base.

(** The virtual functions that carry the contract; [insert] takes the fuel
    of the variant's [insert]. *)
Record HashTableBase (T : Type) : Type := {
  insert : nat → T → Z → Z → outcome (T * bool);
  remove : T → Z → outcome (T * bool);
  find : T → Z → outcome (option Z);
  size : T → nat;
  clear : T → T
}.
Arguments insert {T}.
Arguments remove {T}.
Arguments find {T}.
Arguments size {T}.
Arguments clear {T}.

Definition open_addressing (hasher : Z → Z)
  : HashTableBase OpenAddressing.HashTable :=
  {| insert := OpenAddressing.insert hasher;
     remove := OpenAddressing.remove hasher;
     find := OpenAddressing.find hasher;
     size := OpenAddressing.size;
     clear := OpenAddressing.clear |}.

Definition avl_buckets (hasher : Z → Z)
  : HashTableBase AVLTable.AVLHashTable :=
  {| insert := AVLTable.insert hasher;
     remove := AVLTable.remove hasher;
     find := AVLTable.find hasher;
     size := AVLTable.size;
     clear := AVLTable.clear |}.

(** A call of the caller, and what the caller gets back. *)
Inductive call : Type :=
| Insert (k v : Z)
| Remove (k : Z)
| Find (k : Z)
| Clear.

Inductive reply : Type :=
| Flag (b : bool)
| Found (o : option Z)
| Cleared.

Definition exec {T} (B : HashTableBase T) (fuel : nat) (t : T) (c : call)
  : outcome (T * reply) :=
  match c with
  | Insert k v => r ← insert B fuel t k v; Done (r.1, Flag r.2)
  | Remove k => r ← remove B t k; Done (r.1, Flag r.2)
  | Find k => o ← find B t k; Done (t, Found o)
  | Clear => Done (clear B t, Cleared)
  end.

Fixpoint run {T} (B : HashTableBase T) (fuel : nat) (cs : list call) (t : T)
  : outcome (T * list reply) :=
  match cs with
  | [] => Done (t, [])
  | c :: cs =>
      r ← exec B fuel t c;
      rs ← run B fuel cs r.1;
      Done (rs.1, r.2 :: rs.2)
  end.

(** The states a caller can bring a table to, from a constructor [new]
    called with a positive capacity. *)
Definition reachable {T} (B : HashTableBase T) (new : nat → T) (t : T) : Prop :=
  ∃ n fuel cs rs, 0 < n ∧ 2 ≤ fuel ∧ run B fuel cs (new n) = Done (t, rs).

End Base.

(** ** What the tables write to [std::cout] *)

Module Console.

(** One operand of [<<]: a string literal, a [size_t] or an [int]. *)
Inductive item : Type :=
| Text (s : string)
| Size (n : nat)
| Int (z : Z).

(** The operands written up to a [std::endl]. *)
Definition line : Type := list item.

(** The characters of an operand: the numbers are written in decimal, the
    negative ones with a minus sign. *)
Definition show_item (i : item) : string :=
  match i with
  | Text s => s
  | Size n => pretty n
  | Int z => pretty z
  end.

Definition show_line (l : line) : string :=
  foldr (λ i s, show_item i +:+ s) EmptyString l.

(** ["(" << key << "," << value << ")"]. *)
Definition pair_items (k v : Z) : line :=
  [Text "("; Int k; Text ","; Int v; Text ")"].

End Console.

Module OpenAddressingDisplay.
Import OpenAddressing Console.

(** The part of a row that depends on the state of the slot. *)
Definition show_entry (e : Entry) : line :=
  match state e with
  | OCCUPIED => pair_items (key e) (value e)
  | DELETED => [Text "[DELETED]"]
  | EMPTY => [Text "[EMPTY]"]
  end.

Definition row (i : nat) (e : Entry) : line :=
  [Text "Index "; Size i; Text ": "] ++ show_entry e.

(** The [for] loop of [display], with [count] slots to go from index [i]. *)
Fixpoint display_rows (t : HashTable) (i count : nat) : outcome (list line) :=
  match count with
  | 0 => Done []
  | S count' =>
      e ← at_index (table t) i;
      rest ← display_rows t (S i) count';
      Done (row i e :: rest)
  end.

Definition display (t : HashTable) : outcome (list line) :=
  rows ← display_rows t 0 (table_size t);
  Done ([Text "=== Open Addressing Hash Table ==="]
        :: rows
        ++ [[Text "Size: "; Size (current_size t); Text "/";
             Size (table_size t)]]).

Definition get_name : string := "Open Addressing Hash Table".

End OpenAddressingDisplay.

Module AVLDisplay.
Import AVLTable Console.

(** [display_avl(node, depth)]: the right subtree, the node behind [depth]
    indentations, the left subtree. *)
Fixpoint display_avl (n : AVLNode) (depth : nat) : list line :=
  match n with
  | null => []
  | node k v _ l r =>
      display_avl r (depth + 1)
      ++ (replicate depth (Text "  ") ++ pair_items k v)
      :: display_avl l (depth + 1)
  end.

Definition display_bucket (root : AVLNode) : list line :=
  match root with
  | null => [[Text "  [EMPTY]"]]
  | _ => display_avl root 1
  end.

Fixpoint display_rows (t : AVLHashTable) (i count : nat)
    : outcome (list line) :=
  match count with
  | 0 => Done []
  | S count' =>
      root ← at_index (table t) i;
      rest ← display_rows t (S i) count';
      Done ([Text "Bucket "; Size i; Text ":"] :: display_bucket root ++ rest)
  end.

(** [display()] of the second version of the header; the first one ends
    with ["Size: " << current_size] instead. *)
Definition display (t : AVLHashTable) : outcome (list line) :=
  rows ← display_rows t 0 (table_size t);
  Done ([Text "=== AVL Hash Table ==="]
        :: rows
        ++ [[Text "Total Size: "; Size (current_size t);
             Text " / Table Capacity: "; Size (table_size t)]]).

Definition get_name : string := "AVL Hash Table".

End AVLDisplay.

(** ** The demonstration of the harness *)

Module Harness.
Import Base Console.

(** A table behind a [HashTableBase] pointer: the operations, [display]
    and [get_name]. *)
Record Table (T : Type) : Type := {
  ops : HashTableBase T;
  display : T → outcome (list line);
  get_name : string
}.
Arguments ops {T}.
Arguments display {T}.
Arguments get_name {T}.

Definition open_addressing (hasher : Z → Z) : Table OpenAddressing.HashTable :=
  {| ops := Base.open_addressing hasher;
     display := OpenAddressingDisplay.display;
     get_name := OpenAddressingDisplay.get_name |}.

Definition avl_buckets (hasher : Z → Z) : Table AVLTable.AVLHashTable :=
  {| ops := Base.avl_buckets hasher;
     display := AVLDisplay.display;
     get_name := AVLDisplay.get_name |}.

Definition sample_data : list (Z * Z) :=
  [(10, 100); (22, 220); (31, 310); (4, 40); (15, 150);
   (28, 280); (17, 170); (88, 880); (59, 590)]%Z.

(** ["\n"], and [std::string(n, c)]. *)
Definition newline : string := String "010"%char EmptyString.

Fixpoint copies (n : nat) (c : ascii) : string :=
  match n with
  | 0 => EmptyString
  | S n' => String c (copies n' c)
  end.

(** The loop over [sample_data]; the flag that [insert] returns is
    dropped. *)
Fixpoint insert_all {T} (B : HashTableBase T) (fuel : nat)
    (data : list (Z * Z)) (t : T) : outcome T :=
  match data with
  | [] => Done t
  | entry :: data' =>
      r ← insert B fuel t entry.1 entry.2;
      insert_all B fuel data' r.1
  end.

(** The line printed for one key of the search loop. *)
Definition search_line (key : Z) (found : option Z) : line :=
  match found with
  | Some value => [Text "Key "; Int key; Text " -> value "; Int value]
  | None => [Text "Key "; Int key; Text " not found"]
  end.

Fixpoint search_all {T} (B : HashTableBase T) (keys : list Z) (t : T)
    : outcome (list line) :=
  match keys with
  | [] => Done []
  | key :: keys' =>
      found ← find B t key;
      rest ← search_all B keys' t;
      Done (search_line key found :: rest)
  end.

(** The body of the loop of [demonstration()], for one table: what is left
    of the table, and the lines written. *)
Definition demonstrate {T} (D : Table T) (fuel : nat) (t : T)
    : outcome (T * list line) :=
  let B := ops D in
  let t := clear B t in
  t ← insert_all B fuel sample_data t;
  shown ← display D t;
  searches ← search_all B [10; 22; 99; 4]%Z t;
  r22 ← remove B t 22;
  r31 ← remove B r22.1 31;
  r100 ← remove B r31.1 100;
  let t := r100.1 in
  Done (clear B t,
        [[Text (newline +:+ "--- Inserting data into "); Text (get_name D);
          Text " ---"]]
        ++ shown
        ++ [[Text (newline +:+ "Testing search operations:")]]
        ++ searches
        ++ [[Text (newline +:+ "Removing keys 22 and 31...")];
            [Text (if r22.2 : bool then "Key 22 removed successfully."
                   else "Key 22 not found for removal.")];
            [Text (if r31.2 : bool then "Key 31 removed successfully."
                   else "Key 31 not found for removal.")];
            [Text (if r100.2 : bool then "Key 100 removed successfully."
                   else "Key 100 not found for removal (expected).")];
            [Text "Size after removals: "; Size (size B t)];
            [Text newline; Text (copies 60 "="%char)]]).

End Harness.

(** * Part II: invariants and their proofs *)

Lemma bind_Done {A B} (f : A → outcome B) (x : outcome A) (b : B) :
  x ≫= f = Done b ↔ ∃ a, x = Done a ∧ f a = Done b.
Proof.
  unfold mbind, outcome_mbind, outcome_bind.
  destruct x; split; try discriminate; eauto.
  all: intros (? & ? & ?); try discriminate.
  congruence.
Qed.


(** ** Facts on the hashing utility *)

Module HashFacts.
Import Hash.

Lemma hash_function_zero hasher key :
  hash_function hasher key 0 = ModZero.
Proof. reflexivity. Qed.

Lemma hash_function_Done hasher key n :
  0 < n → ∃ i, hash_function hasher key n = Done i ∧ i < n.
Proof.
  intros Hn. unfold hash_function.
  destruct (Nat.eqb_spec n 0) as [->|_]; [lia|].
  eexists; split; [reflexivity|].
  pose proof (Z.mod_pos_bound (size_t (hasher key)) (Z.of_nat n)). lia.
Qed.

Lemma mix_range key : (0 ≤ mix key < 2 ^ 32)%Z.
Proof.
  unfold mix.
  set (u := mix_round (mix_round (uint32 key))).
  assert (Hu : (0 ≤ u < 2 ^ 32)%Z) by (apply Z.mod_pos_bound; lia).
  assert (Hs : (0 ≤ Z.shiftr u 16)%Z) by (apply Z.shiftr_nonneg; lia).
  assert (Hx : (0 ≤ Z.lxor (Z.shiftr u 16) u)%Z) by (apply Z.lxor_nonneg; lia).
  split; [exact Hx|].
  destruct (Z.eq_dec (Z.lxor (Z.shiftr u 16) u) 0%Z) as [->|Hne]; [lia|].
  apply Z.log2_lt_pow2; [lia|].
  eapply Z.le_lt_trans; [apply Z.log2_lxor; lia|].
  assert (Z.log2 u < 32)%Z.
  { destruct (Z.eq_dec u 0%Z) as [->|]; [simpl; lia|].
    apply Z.log2_lt_pow2; lia. }
  assert (Z.log2 (Z.shiftr u 16) ≤ Z.log2 u)%Z.
  { apply Z.log2_le_mono. rewrite Z.shiftr_div_pow2 by lia.
    apply Z.div_le_upper_bound; lia. }
  lia.
Qed.

End HashFacts.

(** ** Facts on the probe cycle *)

Module ProbeCycle.

(** The slot [d] steps after [h] on the cycle of [n] slots. *)
Definition slot_after (n h d : nat) : nat := (h + d) mod n.

Lemma slot_after_unfold n h d :
  h < n → d ≤ n →
  slot_after n h d = if decide (h + d < n) then h + d else h + d - n.
Proof.
  intros Hh Hd. unfold slot_after. case_decide.
  - by apply Nat.mod_small.
  - symmetry. apply (Nat.mod_unique _ _ 1); lia.
Qed.

Lemma slot_after_lt n h d : 0 < n → slot_after n h d < n.
Proof. intros. apply Nat.mod_upper_bound. lia. Qed.

Lemma slot_after_0 n h : h < n → slot_after n h 0 = h.
Proof. intros. rewrite slot_after_unfold by lia. case_decide; lia. Qed.

Lemma slot_after_full n h : h < n → slot_after n h n = h.
Proof. intros. rewrite slot_after_unfold by lia. case_decide; lia. Qed.

Lemma slot_after_succ n h d :
  0 < n → (slot_after n h d + 1) mod n = slot_after n h (d + 1).
Proof.
  intros. unfold slot_after.
  rewrite Nat.Div0.add_mod_idemp_l. f_equal. lia.
Qed.

Lemma slot_after_inj n h d1 d2 :
  h < n → d1 < n → d2 < n →
  slot_after n h d1 = slot_after n h d2 → d1 = d2.
Proof.
  intros Hh H1 H2. rewrite !slot_after_unfold by lia.
  repeat case_decide; lia.
Qed.

Lemma slot_after_cover n h i :
  h < n → i < n → ∃ d, d < n ∧ slot_after n h d = i.
Proof.
  intros Hh Hi. destruct (decide (h ≤ i)).
  - exists (i - h). split; [lia|].
    rewrite slot_after_unfold by lia. case_decide; lia.
  - exists (n + i - h). split; [lia|].
    rewrite slot_after_unfold by lia. case_decide; lia.
Qed.

End ProbeCycle.

(** ** Probing: termination and result *)

Module OpenAddressingProbe.
Import OpenAddressing ProbeCycle.

(** The vector has [table_size] slots, and at least one. *)
Definition well_shaped (t : HashTable) : Prop :=
  length (table t) = table_size t ∧ 0 < table_size t.

(** The loop of [probe] moves on from slot [i], or stops at it. *)
Definition probing (t : HashTable) (k : Z) (i : nat) : Prop :=
  ∃ e, table t !! i = Some e ∧ keeps_probing e k = true.
Definition stopping (t : HashTable) (k : Z) (i : nat) : Prop :=
  ∃ e, table t !! i = Some e ∧ keeps_probing e k = false.

(** What [probe] returns when started at [h]: the first slot of the cycle
    at which the loop stops, or [h] again after all slots were passed. *)
Inductive probe_result (t : HashTable) (k : Z) (h i : nat) : Prop :=
| probe_hit (d : nat) :
    d < table_size t →
    i = slot_after (table_size t) h d →
    stopping t k i →
    (∀ j, j < d → probing t k (slot_after (table_size t) h j)) →
    probe_result t k h i
| probe_wrap :
    i = h →
    (∀ j, j < table_size t → probing t k (slot_after (table_size t) h j)) →
    probe_result t k h i.

Lemma holds_true e k : holds e k = true ↔ state e = OCCUPIED ∧ key e = k.
Proof.
  unfold holds. rewrite andb_true_iff, !bool_decide_eq_true. done.
Qed.

Lemma holds_false e k : holds e k = false ↔ ¬ (state e = OCCUPIED ∧ key e = k).
Proof. rewrite <- holds_true. destruct (holds e k); naive_solver. Qed.

Lemma keeps_probing_false e k :
  keeps_probing e k = false ↔ state e = EMPTY ∨ holds e k = true.
Proof.
  unfold keeps_probing, holds.
  destruct e as [k' v' []]; simpl; repeat case_bool_decide; simpl;
    intuition congruence.
Qed.

Lemma keeps_probing_true e k :
  keeps_probing e k = true ↔ state e ≠ EMPTY ∧ holds e k = false.
Proof.
  unfold keeps_probing, holds.
  destruct e as [k' v' []]; simpl; repeat case_bool_decide; simpl;
    intuition congruence.
Qed.

Lemma probing_not_stopping t k i : probing t k i → stopping t k i → False.
Proof. intros (e & He & H1) (e' & He' & H2). congruence. Qed.

Section WithHasher.
Context (hasher : Z → Z).

Lemma probe_loop_from t k h :
  well_shaped t → h < table_size t →
  ∀ c d, d + c = table_size t → 0 < c →
    (∀ j, j < d → probing t k (slot_after (table_size t) h j)) →
    ∃ i, (∀ fuel, c ≤ fuel →
            probe_loop fuel t k h (slot_after (table_size t) h d) = Done i)
         ∧ probe_result t k h i.
Proof.
  intros [Hlen Hpos] Hh. induction c as [|c IH]; intros d Hd Hc Hpre; [lia|].
  assert (Hd' : slot_after (table_size t) h d < length (table t)).
  { rewrite Hlen. by apply slot_after_lt. }
  destruct (lookup_lt_is_Some_2 _ _ Hd') as [e He].
  destruct (keeps_probing e k) eqn:Hk.
  - destruct (decide (c = 0)) as [->|Hc0].
    + exists h. split.
      * intros [|fuel] ?; [lia|]. simpl. unfold at_index. rewrite He. simpl.
        rewrite Hk. destruct (Nat.eqb_spec (table_size t) 0); [lia|].
        rewrite slot_after_succ by done.
        replace (d + 1) with (table_size t) by lia.
        rewrite slot_after_full by done. by rewrite Nat.eqb_refl.
      * apply probe_wrap; [done|]. intros j Hj.
        destruct (decide (j = d)) as [->|]; [by exists e|].
        apply Hpre. lia.
    + destruct (IH (d + 1)) as (i & Hrun & Hres); [lia|lia| |].
      { intros j Hj. destruct (decide (j = d)) as [->|]; [by exists e|].
        apply Hpre. lia. }
      exists i. split; [|done].
      intros [|fuel] ?; [lia|]. simpl. unfold at_index. rewrite He. simpl.
      rewrite Hk. destruct (Nat.eqb_spec (table_size t) 0); [lia|].
      rewrite slot_after_succ by done.
      destruct (Nat.eqb_spec (slot_after (table_size t) h (d + 1)) h) as [Heq|_].
      * rewrite <- (slot_after_0 (table_size t) h) in Heq at 2 by done.
        apply slot_after_inj in Heq; lia.
      * apply Hrun. lia.
  - exists (slot_after (table_size t) h d). split.
    + intros [|fuel] ?; [lia|]. simpl. unfold at_index. rewrite He. simpl.
      by rewrite Hk.
    + apply (probe_hit _ _ _ _ d); [lia|done|by exists e|done].
Qed.

(** [probe] returns, and more fuel than [table_size] changes nothing. *)
Lemma probe_spec t k :
  well_shaped t →
  ∃ h i, hash_function hasher k (table_size t) = Done h ∧ h < table_size t
    ∧ probe hasher t k = Done i
    ∧ (∀ fuel, table_size t ≤ fuel → probe_loop fuel t k h h = Done i)
    ∧ probe_result t k h i.
Proof.
  intros Hs. pose proof Hs as [Hlen Hpos].
  destruct (HashFacts.hash_function_Done hasher k _ Hpos) as (h & Hh & Hlt).
  destruct (probe_loop_from t k h Hs Hlt (table_size t) 0) as (i & Hrun & Hres);
    [lia|lia|intros; lia|].
  rewrite slot_after_0 in Hrun by done.
  exists h, i. repeat split; try done.
  unfold probe, hash_function. rewrite Hh. simpl. by apply Hrun.
Qed.

Lemma probe_result_lt t k h i :
  well_shaped t → h < table_size t → probe_result t k h i → i < table_size t.
Proof.
  intros [_ Hpos] Hh [d Hd -> _ _| -> _]; [by apply slot_after_lt|done].
Qed.

End WithHasher.

End OpenAddressingProbe.

(** ** The invariant of the open-addressing table *)

Module OpenAddressingInv.
Import OpenAddressing ProbeCycle OpenAddressingProbe.

(** Slot [i] holds the live entry [(k, v)]. *)
Definition live (t : HashTable) (i : nat) (k v : Z) : Prop :=
  table t !! i = Some (mkEntry k v OCCUPIED).

Definition occupied_count (t : HashTable) : nat :=
  length (filter (λ e, state e = OCCUPIED) (table t)).

Definition no_tombstone (t : HashTable) : Prop :=
  ∀ i e, table t !! i = Some e → state e ≠ DELETED.

Section WithHasher.
Context (hasher : Z → Z).

(** The probe sequence of [k], from [hash_function(k)] on by steps of one
    modulo the capacity, comes to slot [i] before it meets an [EMPTY] slot. *)
Definition reaches (t : HashTable) (k : Z) (i : nat) : Prop :=
  ∃ h d, hash_function hasher k (table_size t) = Done h
    ∧ d < table_size t
    ∧ i = slot_after (table_size t) h d
    ∧ ∀ j, j < d →
        ∃ e, table t !! slot_after (table_size t) h j = Some e
             ∧ state e ≠ EMPTY.

(** The table [t] stores the finite map [m]. *)
Record Inv (t : HashTable) (m : gmap Z Z) : Prop := {
  inv_shape : well_shaped t;
  inv_content : ∀ k v, m !! k = Some v ↔ ∃ i, live t i k v;
  inv_unique : ∀ i j k v w, live t i k v → live t j k w → i = j;
  inv_reach : ∀ i k v, live t i k v → reaches t k i;
  inv_size : current_size t = base.size m;
  inv_count : current_size t = occupied_count t
}.

Lemma live_stopping t i k v : live t i k v → stopping t k i.
Proof.
  intros H. eexists; split; [exact H|].
  apply keeps_probing_false. right. by apply holds_true.
Qed.

Lemma holds_live t i e k :
  table t !! i = Some e → holds e k = true → live t i k (value e).
Proof.
  intros He [Hs Hk]%holds_true. unfold live. rewrite He.
  destruct e; simpl in *; by subst.
Qed.

Lemma probing_nonempty t k i :
  probing t k i → ∃ e, table t !! i = Some e ∧ state e ≠ EMPTY.
Proof. intros (e & He & [Hne _]%keeps_probing_true). eauto. Qed.

(** A live key is where [probe] stops. *)
Lemma probe_live t m i k v :
  Inv t m → live t i k v → probe hasher t k = Done i.
Proof.
  intros HI Hl.
  destruct (probe_spec hasher t k (inv_shape _ _ HI))
    as (h & i' & Hh & Hhlt & Hp & _ & Hres).
  destruct (inv_reach _ _ HI _ _ _ Hl) as (h0 & d0 & Hh0 & Hd0 & Hi & Hpath).
  assert (h0 = h) as -> by congruence.
  rewrite Hp. f_equal.
  destruct Hres as [d Hd Hi' Hstop Hbefore| -> Hall].
  - destruct (Nat.lt_trichotomy d d0) as [Hlt|[->|Hgt]].
    + destruct Hstop as (e & He & [Hem|Hho]%keeps_probing_false).
      * destruct (Hpath d Hlt) as (e' & He' & Hne). congruence.
      * eapply (inv_unique _ _ HI); [by eapply holds_live|exact Hl].
    + congruence.
    + exfalso. eapply probing_not_stopping; [apply (Hbefore d0 Hgt)|].
      rewrite <- Hi. by eapply live_stopping.
  - exfalso. eapply probing_not_stopping; [apply (Hall d0 Hd0)|].
    rewrite <- Hi. by eapply live_stopping.
Qed.

(** The slot [probe] returns exists, whatever the key. *)
Lemma probe_entry t k :
  well_shaped t →
  ∃ h i e, hash_function hasher k (table_size t) = Done h
    ∧ h < table_size t
    ∧ probe hasher t k = Done i
    ∧ table t !! i = Some e
    ∧ probe_result t k h i.
Proof.
  intros Hs.
  destruct (probe_spec hasher t k Hs) as (h & i & Hh & Hhlt & Hp & _ & Hres).
  assert (Hlt : i < length (table t)).
  { destruct Hs as [Hlen ?]. rewrite Hlen. by eapply probe_result_lt. }
  destruct (lookup_lt_is_Some_2 _ _ Hlt) as [e He].
  exists h, i, e. done.
Qed.

(** [find] reads the map. *)
Lemma oa_find_spec t m k : Inv t m → find hasher t k = Done (m !! k).
Proof.
  intros HI. destruct (m !! k) as [v|] eqn:Hm.
  - apply (inv_content _ _ HI) in Hm as [i Hl].
    unfold find. rewrite (probe_live _ _ _ _ _ HI Hl). simpl.
    unfold at_index. rewrite Hl. simpl. unfold holds. simpl.
    by rewrite !bool_decide_eq_true_2.
  - destruct (probe_entry t k (inv_shape _ _ HI))
      as (h & i & e & _ & _ & Hp & He & _).
    unfold find. rewrite Hp. simpl. unfold at_index. rewrite He. simpl.
    destruct (holds e k) eqn:Hho; [|done].
    pose proof (holds_live _ _ _ _ He Hho) as Hl.
    assert (m !! k = Some (value e)) by (apply (inv_content _ _ HI); eauto).
    congruence.
Qed.

(** *** Writing one slot *)

Lemma filter_length_insert {A} (P : A → Prop) `{!∀ x, Decision (P x)}
    (l : list A) i x y :
  l !! i = Some x →
  length (filter P (<[i:=y]> l)) + (if decide (P x) then 1 else 0)
  = length (filter P l) + (if decide (P y) then 1 else 0).
Proof.
  revert i. induction l as [|a l IH]; intros [|i] Hi; simplify_eq/=.
  - rewrite !filter_cons.
    destruct (decide (P x)), (decide (P y)); simpl; lia.
  - rewrite !filter_cons. specialize (IH _ Hi).
    destruct (decide (P a)); simpl; lia.
Qed.

(** The table [t] with slot [i] overwritten and the counter set to [n]. *)
Definition with_slot (t : HashTable) (i : nat) (e : Entry) (n : nat)
  : HashTable :=
  mkTable (<[i := e]> (table t)) (table_size t) n.

Lemma with_slot_shape t i e n : well_shaped t → well_shaped (with_slot t i e n).
Proof. intros [? ?]. split; simpl; [by rewrite length_insert|done]. Qed.

Lemma with_slot_live t i e n j k v :
  i < length (table t) →
  live (with_slot t i e n) j k v
  ↔ (j = i ∧ e = mkEntry k v OCCUPIED) ∨ (j ≠ i ∧ live t j k v).
Proof.
  intros Hi. unfold live, with_slot. simpl.
  destruct (decide (i = j)) as [->|Hne].
  - rewrite list_lookup_insert_eq by done.
    split; [intros [= ->]; by left|intros [[_ ->]|[? _]]; done].
  - rewrite list_lookup_insert_ne by done.
    split; [intros ?; right; by split|intros [[-> _]|[_ ?]]; done].
Qed.

Lemma with_slot_count t i e0 e n :
  table t !! i = Some e0 →
  occupied_count (with_slot t i e n)
    + (if decide (state e0 = OCCUPIED) then 1 else 0)
  = occupied_count t + (if decide (state e = OCCUPIED) then 1 else 0).
Proof.
  intros H. unfold occupied_count, with_slot. simpl.
  exact (filter_length_insert (λ e, state e = OCCUPIED) _ _ _ _ H).
Qed.

(** Overwriting a slot with an entry that is not [EMPTY] keeps every probe
    path free of [EMPTY] slots. *)
Lemma with_slot_reaches t i e n k j :
  i < length (table t) → state e ≠ EMPTY →
  reaches t k j → reaches (with_slot t i e n) k j.
Proof.
  intros Hi He (h & d & Hh & Hd & Hj & Hpath).
  exists h, d. simpl. repeat split; try done.
  intros j' Hj'. destruct (Hpath j' Hj') as (e' & He' & Hne).
  destruct (decide (i = slot_after (table_size t) h j')) as [Heq|Hneq].
  - exists e. rewrite <- Heq. by rewrite list_lookup_insert_eq.
  - exists e'. by rewrite list_lookup_insert_ne.
Qed.

Lemma probe_miss t m k i e :
  Inv t m → probe hasher t k = Done i → table t !! i = Some e →
  holds e k = false → m !! k = None.
Proof.
  intros HI Hp He Hho. destruct (m !! k) as [v0|] eqn:Hm; [|done].
  apply (inv_content _ _ HI) in Hm as [i0 Hl].
  rewrite (probe_live _ _ _ _ _ HI Hl) in Hp. simplify_eq.
  unfold live in Hl. rewrite He in Hl. simplify_eq.
  unfold holds in Hho. simpl in Hho.
  by rewrite !bool_decide_eq_true_2 in Hho.
Qed.

(** The slot [probe] returns is reached by the probe sequence of the key
    once it is written. *)
Lemma probe_result_reaches t k h i e n :
  well_shaped t → hash_function hasher k (table_size t) = Done h →
  h < table_size t → probe_result t k h i →
  reaches (with_slot t i e n) k i.
Proof.
  intros [Hlen Hpos] Hh Hlt [d Hd Hi _ Hbefore| -> _].
  - exists h, d. simpl. repeat split; try done.
    intros j Hj. destruct (probing_nonempty _ _ _ (Hbefore j Hj)) as (e' & He' & ?).
    exists e'. split; [|done].
    rewrite list_lookup_insert_ne; [done|].
    rewrite Hi. intros Heq. apply slot_after_inj in Heq; lia.
  - exists h, 0. simpl. repeat split; try done.
    + by rewrite slot_after_0.
    + intros; lia.
Qed.

Lemma with_slot_no_tombstone t i e n :
  state e ≠ DELETED → no_tombstone t → no_tombstone (with_slot t i e n).
Proof.
  intros He Hno j e'. simpl. intros Hj.
  apply list_lookup_insert_Some in Hj as [(-> & -> & _)|[_ Hj]]; [done|].
  by eapply Hno.
Qed.

(** Overwriting the value of a live key. *)
Lemma Inv_update t m i k v0 v :
  Inv t m → live t i k v0 →
  Inv (with_slot t i (mkEntry k v OCCUPIED) (current_size t)) (<[k:=v]> m).
Proof.
  intros HI Hl.
  assert (Hi : i < length (table t)) by (by eapply lookup_lt_Some).
  split.
  - apply with_slot_shape, HI.
  - intros k2 v2. rewrite lookup_insert. case_decide as Hk; subst.
    + split.
      * intros [= <-]. exists i. apply with_slot_live; [done|]. by left.
      * intros [j [[_ [= ->]]|[Hne Hl2]]%with_slot_live]; [done| |done].
        destruct Hne. by eapply (inv_unique _ _ HI).
    + rewrite (inv_content _ _ HI). split.
      * intros [j Hl2]. exists j. apply with_slot_live; [done|]. right.
        split; [|done]. intros ->. unfold live in *. congruence.
      * intros [j [[_ [= -> ->]]|[Hne Hl2]]%with_slot_live]; [done| |done].
        eauto.
  - intros j1 j2 k1 v1 w
      [[-> [= -> ->]]|[Hn1 H1]]%with_slot_live
      [[-> [= ->]]|[Hn2 H2]]%with_slot_live; try done.
    + destruct Hn2. by eapply (inv_unique _ _ HI).
    + subst. destruct Hn1. by eapply (inv_unique _ _ HI).
    + by eapply (inv_unique _ _ HI).
  - intros j k1 v1 [[-> [= -> ->]]|[Hn1 H1]]%with_slot_live; [| |done].
    + apply with_slot_reaches; [done|done|]. by eapply (inv_reach _ _ HI).
    + apply with_slot_reaches; [done|done|]. by eapply (inv_reach _ _ HI).
  - simpl. rewrite map_size_insert_Some; [apply HI|].
    exists v0. apply (inv_content _ _ HI). eauto.
  - pose proof (with_slot_count t i _ (mkEntry k v OCCUPIED) (current_size t) Hl)
      as Hc. simpl in Hc.
    pose proof (inv_count _ _ HI). simpl.
    repeat case_decide; try done; lia.
Qed.

(** Writing a new key into a slot that holds no live entry and that the
    probe sequence of the key reaches. *)
Lemma Inv_fresh t m i e k v :
  Inv t m → table t !! i = Some e → state e ≠ OCCUPIED → m !! k = None →
  reaches (with_slot t i (Entry_of k v) (current_size t + 1)) k i →
  Inv (with_slot t i (Entry_of k v) (current_size t + 1)) (<[k:=v]> m).
Proof.
  intros HI He Hs Hm Hr.
  assert (Hi : i < length (table t)) by (by eapply lookup_lt_Some).
  assert (Hnone : ∀ j w, ¬ live t j k w).
  { intros j w Hl. assert (m !! k = Some w) by (apply (inv_content _ _ HI); eauto).
    congruence. }
  split.
  - apply with_slot_shape, HI.
  - intros k2 v2. rewrite lookup_insert. case_decide as Hk; subst.
    + split.
      * intros [= <-]. exists i. apply with_slot_live; [done|]. by left.
      * intros [j [[_ [= ->]]|[Hne Hl2]]%with_slot_live]; [done| |done].
        by destruct (Hnone _ _ Hl2).
    + rewrite (inv_content _ _ HI). split.
      * intros [j Hl2]. exists j. apply with_slot_live; [done|]. right.
        split; [|done]. intros ->. unfold live in Hl2.
        assert (e = mkEntry k2 v2 OCCUPIED) as -> by congruence. done.
      * intros [j [[_ [= -> ->]]|[Hne Hl2]]%with_slot_live]; [done| |done].
        eauto.
  - intros j1 j2 k1 v1 w
      [[-> [= -> ->]]|[Hn1 H1]]%with_slot_live
      [[-> [= ->]]|[Hn2 H2]]%with_slot_live; try done.
    + by destruct (Hnone _ _ H2).
    + subst. by destruct (Hnone _ _ H1).
    + by eapply (inv_unique _ _ HI).
  - intros j k1 v1 [[-> [= -> ->]]|[Hn1 H1]]%with_slot_live; [done| |done].
    apply with_slot_reaches; [done|done|]. by eapply (inv_reach _ _ HI).
  - simpl. rewrite map_size_insert_None by done.
    rewrite (inv_size _ _ HI). lia.
  - pose proof (with_slot_count t i _ (Entry_of k v) (current_size t + 1) He)
      as Hc. simpl in Hc.
    pose proof (inv_count _ _ HI). simpl.
    repeat case_decide; try done; lia.
Qed.

(** Turning the slot of a live key into a tombstone. *)
Lemma Inv_delete t m i k v0 :
  Inv t m → live t i k v0 →
  Inv (with_slot t i (mkEntry k v0 DELETED) (current_size t - 1)) (delete k m).
Proof.
  intros HI Hl.
  assert (Hi : i < length (table t)) by (by eapply lookup_lt_Some).
  split.
  - apply with_slot_shape, HI.
  - intros k2 v2. rewrite lookup_delete. case_decide as Hk; subst.
    + split; [done|].
      intros [j [[_ [=]]|[Hne Hl2]]%with_slot_live]; [|done].
      destruct Hne. by eapply (inv_unique _ _ HI).
    + rewrite (inv_content _ _ HI). split.
      * intros [j Hl2]. exists j. apply with_slot_live; [done|]. right.
        split; [|done]. intros ->. unfold live in *. congruence.
      * intros [j [[_ [=]]|[Hne Hl2]]%with_slot_live]; [|done]. eauto.
  - intros j1 j2 k1 v1 w
      [[_ [=]]|[Hn1 H1]]%with_slot_live
      [[_ [=]]|[Hn2 H2]]%with_slot_live; try done.
    by eapply (inv_unique _ _ HI).
  - intros j k1 v1 [[_ [=]]|[Hn1 H1]]%with_slot_live; [|done].
    apply with_slot_reaches; [done|done|]. by eapply (inv_reach _ _ HI).
  - simpl. rewrite map_size_delete_Some.
    + rewrite (inv_size _ _ HI). lia.
    + exists v0. apply (inv_content _ _ HI). eauto.
  - pose proof (with_slot_count t i _ (mkEntry k v0 DELETED) (current_size t - 1) Hl)
      as Hc. simpl in Hc.
    pose proof (inv_count _ _ HI). simpl.
    repeat case_decide; try done; lia.
Qed.

(** *** The operations keep the invariant *)

Lemma oa_place_spec t m k v :
  Inv t m →
  ∃ t' b, place hasher t k v = Done (t', b)
    ∧ table_size t' = table_size t
    ∧ (no_tombstone t → no_tombstone t')
    ∧ (if b then Inv t' (<[k:=v]> m)
       else t' = t ∧ m !! k = None
            ∧ ∀ i e, table t !! i = Some e → state e ≠ EMPTY).
Proof.
  intros HI.
  destruct (probe_entry t k (inv_shape _ _ HI))
    as (h & i & e & Hh & Hhlt & Hp & He & Hres).
  unfold place. rewrite Hp. simpl. unfold at_index. rewrite He. simpl.
  destruct (holds e k) eqn:Hho.
  - pose proof (holds_live _ _ _ _ He Hho) as Hl.
    apply holds_true in Hho as [Hs ->]. rewrite Hs.
    eexists _, true. split; [done|]. split; [done|]. split.
    + by apply with_slot_no_tombstone.
    + by eapply Inv_update.
  - pose proof (probe_miss _ _ _ _ _ HI Hp He Hho) as Hm.
    case_bool_decide as Hs.
    + eexists _, true. split; [done|]. split; [done|]. split.
      * by apply with_slot_no_tombstone.
      * eapply Inv_fresh; try done.
        eapply probe_result_reaches; try done. apply HI.
    + eexists _, false. split; [done|]. split; [done|]. split; [done|].
      split; [done|]. split; [done|].
      destruct Hres as [d Hd Hi (e' & He' & Hstop) _| -> Hall].
      * assert (e' = e) as -> by congruence.
        apply keeps_probing_false in Hstop as [Hem|Hho']; [|congruence].
        congruence.
      * intros j e' Hj.
        destruct (slot_after_cover (table_size t) h j) as (d & Hd & <-);
          [done| |].
        { destruct (inv_shape _ _ HI) as [<- _]. by eapply lookup_lt_Some. }
        destruct (probing_nonempty _ _ _ (Hall d Hd)) as (e'' & He'' & Hne).
        congruence.
Qed.

Lemma oa_remove_spec t m k :
  Inv t m →
  ∃ t', remove hasher t k = Done (t', bool_decide (is_Some (m !! k)))
    ∧ table_size t' = table_size t
    ∧ Inv t' (delete k m)
    ∧ (m !! k = None → t' = t).
Proof.
  intros HI.
  destruct (probe_entry t k (inv_shape _ _ HI))
    as (h & i & e & Hh & Hhlt & Hp & He & Hres).
  unfold remove. rewrite Hp. simpl. unfold at_index. rewrite He. simpl.
  destruct (holds e k) eqn:Hho.
  - pose proof (holds_live _ _ _ _ He Hho) as Hl.
    assert (Hm : m !! k = Some (value e)) by (apply (inv_content _ _ HI); eauto).
    apply holds_true in Hho as [Hs ->].
    eexists. rewrite Hm. split; [done|]. split; [done|]. split; [|done].
    by eapply Inv_delete.
  - pose proof (probe_miss _ _ _ _ _ HI Hp He Hho) as Hm.
    exists t. rewrite Hm. split; [done|]. split; [done|].
    split; [|done]. by rewrite delete_id.
Qed.

Lemma filter_none {A} (P : A → Prop) `{!∀ x, Decision (P x)} (l : list A) :
  Forall (λ x, ¬ P x) l → filter P l = [].
Proof.
  induction 1 as [|x l Hx _ IH]; [done|].
  by rewrite filter_cons_False.
Qed.

Lemma oa_Inv_clear t : well_shaped t → Inv (clear t) ∅.
Proof.
  intros [Hlen Hpos].
  assert (Hnone : ∀ i k v, ¬ live (clear t) i k v).
  { intros i k v. unfold live, clear. simpl.
    rewrite list_lookup_fmap. destruct (table t !! i); simpl; congruence. }
  split.
  - split; simpl; [by rewrite length_fmap|done].
  - intros k v. rewrite lookup_empty. split; [done|].
    intros [i Hl]. by destruct (Hnone _ _ _ Hl).
  - intros i j k v w Hl. by destruct (Hnone _ _ _ Hl).
  - intros i k v Hl. by destruct (Hnone _ _ _ Hl).
  - simpl. by rewrite map_size_empty.
  - unfold occupied_count. simpl.
    rewrite (filter_none (λ e, state e = OCCUPIED)); [done|].
    apply Forall_fmap, Forall_forall. intros e _. simpl. done.
Qed.

Lemma oa_Inv_new n : 0 < n → Inv (new n) ∅ ∧ no_tombstone (new n).
Proof.
  intros Hn.
  assert (Hnone : ∀ i k v, ¬ live (new n) i k v).
  { intros i k v. unfold live, new. simpl.
    intros [[=] _]%lookup_replicate. }
  split; [split|].
  - split; simpl; [by rewrite length_replicate|done].
  - intros k v. rewrite lookup_empty. split; [done|].
    intros [i Hl]. by destruct (Hnone _ _ _ Hl).
  - intros i j k v w Hl. by destruct (Hnone _ _ _ Hl).
  - intros i k v Hl. by destruct (Hnone _ _ _ Hl).
  - simpl. by rewrite map_size_empty.
  - unfold occupied_count. simpl.
    rewrite (filter_none (λ e, state e = OCCUPIED)); [done|].
    apply Forall_replicate. done.
  - intros i e [-> _]%lookup_replicate. done.
Qed.

(** When the part of [insert] below the load-factor test answers [false]:
    exactly when no slot is [EMPTY], no slot holds the key, and the slot the
    probe starts from is [OCCUPIED]. A [DELETED] slot elsewhere does not
    help. *)
Lemma oa_place_false_iff t k v :
  well_shaped t →
  (∃ t', place hasher t k v = Done (t', false))
  ↔ (∀ j e, table t !! j = Some e → state e ≠ EMPTY ∧ holds e k = false)
    ∧ ∃ h e, hash_function hasher k (table_size t) = Done h
             ∧ table t !! h = Some e ∧ state e = OCCUPIED.
Proof.
  intros Hs. pose proof Hs as [Hlen Hpos].
  destruct (probe_entry t k Hs) as (h & i & e & Hh & Hhlt & Hp & He & Hres).
  unfold place. rewrite Hp. simpl. unfold at_index. rewrite He. simpl.
  split.
  - intros [t' H]. destruct (holds e k) eqn:Hho; [done|].
    case_bool_decide as Hst; [done|].
    destruct Hres as [d Hd Hi (e' & He' & Hstop) _| -> Hall].
    + assert (e' = e) as -> by congruence.
      apply keeps_probing_false in Hstop as [?|?]; congruence.
    + split; [|by exists h, e].
      intros j e' Hj.
      destruct (slot_after_cover (table_size t) h j) as (d & Hd & <-);
        [done|rewrite <- Hlen; by eapply lookup_lt_Some|].
      destruct (Hall d Hd) as (e'' & He'' & Hk%keeps_probing_true).
      by assert (e'' = e') as -> by congruence.
  - intros [Hall (h' & e' & Hh' & He' & Hst')].
    assert (h' = h) as -> by congruence.
    destruct Hres as [d Hd Hi (e1 & He1 & Hstop) _| -> _].
    + destruct (Hall _ _ He1) as [Hne Hho].
      apply keeps_probing_false in Hstop as [?|?]; congruence.
    + assert (e' = e) as -> by congruence.
      destruct (Hall _ _ He) as [_ ->]. rewrite bool_decide_eq_false_2; eauto.
Qed.

(** *** Growth *)

Lemma filter_length_lt_inv {A} (P : A → Prop) `{!∀ x, Decision (P x)}
    (l : list A) :
  length (filter P l) < length l → ∃ i x, l !! i = Some x ∧ ¬ P x.
Proof.
  induction l as [|a l IH]; simpl; [lia|].
  rewrite filter_cons. destruct (decide (P a)) as [Ha|Ha]; simpl; intros Hlt.
  - destruct IH as (i & x & Hi & Hx); [lia|]. by exists (S i), x.
  - by exists 0, a.
Qed.

(** A table without tombstones that is not full of live entries has an
    [EMPTY] slot. *)
Lemma empty_slot t m :
  Inv t m → no_tombstone t → current_size t < table_size t →
  ∃ i e, table t !! i = Some e ∧ state e = EMPTY.
Proof.
  intros HI Hno Hlt.
  destruct (filter_length_lt_inv (λ e, state e = OCCUPIED) (table t))
    as (i & e & Hi & He).
  { destruct (inv_shape _ _ HI) as [Hlen _]. rewrite Hlen.
    pose proof (inv_count _ _ HI). unfold occupied_count in *. lia. }
  exists i, e. split; [done|].
  pose proof (Hno _ _ Hi). destruct (state e); done.
Qed.

Lemma oa_insert_unfold fuel t k v :
  insert hasher (S fuel) t k v
  = (t ← (if over_load t then resize (insert hasher fuel) t else Done t);
     place hasher t k v).
Proof. reflexivity. Qed.

Lemma insert_not_over_load fuel t k v :
  over_load t = false →
  insert hasher (S fuel) t k v = place hasher t k v.
Proof. intros H. simpl. by rewrite H. Qed.

(** The loop of [resize]: the entries still to be inserted fit into half of
    the new table, so no insertion grows the table again and none fails;
    the table it returns is the same for every fuel. *)
Lemma oa_reinsert_spec (m : gmap Z Z) n :
  ∀ old t' m',
    Inv t' m' → no_tombstone t' → table_size t' = n * 2 →
    current_size t' + length old ≤ n →
    (∀ e, e ∈ old → state e = OCCUPIED → m !! key e = Some (value e)) →
    m' ⊆ m →
    ∃ t'' m'',
      (∀ fuel, reinsert (insert hasher (S fuel)) old t' = Done t'')
      ∧ Inv t'' m'' ∧ no_tombstone t'' ∧ table_size t'' = n * 2
      ∧ m' ⊆ m'' ∧ m'' ⊆ m
      ∧ ∀ e, e ∈ old → state e = OCCUPIED → is_Some (m'' !! key e).
Proof.
  induction old as [|e old IH]; intros t' m' HI Hno Hsz Hcs Hold Hsub.
  { exists t', m'. split_and!; try done.
    intros e He. by apply elem_of_nil in He. }
  simpl in Hcs.
  assert (Hold1 : ∀ e', e' ∈ old → state e' = OCCUPIED →
                        m !! key e' = Some (value e')).
  { intros e' He'. apply Hold. by right. }
  destruct (decide (state e = OCCUPIED)) as [Hs|Hs].
  - assert (Hm : m !! key e = Some (value e)) by (apply Hold; [left|done]).
    destruct (oa_place_spec t' m' (key e) (value e) HI)
      as (t1 & b & Hpl & Hsz1 & Hno1 & Hb).
    destruct b.
    2:{ destruct Hb as (_ & _ & Hfull).
        destruct (empty_slot t' m' HI Hno) as (i & e' & Hi & He'); [lia|].
        by destruct (Hfull _ _ Hi). }
    assert (Hsub1 : m' ⊆ <[key e := value e]> m').
    { destruct (m' !! key e) as [w|] eqn:Hw.
      - pose proof (lookup_weaken _ _ _ _ Hw Hsub).
        assert (w = value e) as -> by congruence. by rewrite insert_id.
      - by apply insert_subseteq. }
    assert (Hcs1 : current_size t1 + length old ≤ n).
    { pose proof (inv_size _ _ Hb) as E1. pose proof (inv_size _ _ HI) as E2.
      pose proof (map_size_insert (key e) (value e) m') as E3.
      destruct (m' !! key e); simpl in E3; lia. }
    destruct (IH t1 (<[key e := value e]> m') Hb (Hno1 Hno)
                (eq_trans Hsz1 Hsz) Hcs1 Hold1
                (insert_subseteq_l _ _ _ _ Hm Hsub))
      as (t2 & m2 & Hre & HI2 & Hno2 & Hsz2 & Hs1 & Hs2 & Hin).
    exists t2, m2. split_and!; try done.
    + intros fuel. cbn [reinsert]. rewrite bool_decide_eq_true_2 by done.
      rewrite insert_not_over_load.
      2:{ unfold over_load. apply Nat.ltb_ge. lia. }
      rewrite Hpl. apply Hre.
    + by etrans.
    + intros e' [->|He']%elem_of_cons Hs'; [|by apply Hin].
      exists (value e). eapply lookup_weaken; [|exact Hs1].
      by rewrite lookup_insert_eq.
  - assert (Hcs1 : current_size t' + length old ≤ n) by lia.
    destruct (IH t' m' HI Hno Hsz Hcs1 Hold1 Hsub)
      as (t2 & m2 & Hre & HI2 & Hno2 & Hsz2 & Hs1 & Hs2 & Hin).
    exists t2, m2. split_and!; try done.
    + intros fuel. cbn [reinsert]. rewrite bool_decide_eq_false_2 by done.
      apply Hre.
    + intros e' [->|He']%elem_of_cons Hs'; [done|by apply Hin].
Qed.

(** [resize] doubles the capacity, keeps the map and leaves no tombstone. *)
Lemma oa_resize_total t m :
  Inv t m →
  ∃ t', (∀ fuel, resize (insert hasher (S fuel)) t = Done t')
    ∧ Inv t' m ∧ no_tombstone t' ∧ table_size t' = table_size t * 2.
Proof.
  intros HI. destruct (inv_shape _ _ HI) as [Hlen Hpos].
  destruct (oa_Inv_new (table_size t * 2)) as [HI0 Hno0]; [lia|].
  destruct (oa_reinsert_spec m (table_size t) (table t)
              (new (table_size t * 2)) ∅)
    as (t' & m' & Hre & HI' & Hno' & Hsz' & _ & Hsub & Hin); try done.
  - simpl. lia.
  - intros e [i Hi]%list_elem_of_lookup Hs.
    apply (inv_content _ _ HI). exists i. unfold live. rewrite Hi.
    destruct e; simpl in *; by subst.
  - apply map_empty_subseteq.
  - exists t'. split; [exact Hre|]. split; [|done].
    assert (m' = m) as ->; [|done].
    apply map_eq. intros k. destruct (m !! k) as [v|] eqn:Hm.
    + apply (inv_content _ _ HI) in Hm as Hl. destruct Hl as [i Hl].
      destruct (Hin (mkEntry k v OCCUPIED)) as [w Hw]; [|done|].
      { apply list_elem_of_lookup. eauto. }
      simpl in Hw. rewrite Hw. f_equal.
      pose proof (lookup_weaken _ _ _ _ Hw Hsub). congruence.
    + destruct (m' !! k) as [w|] eqn:Hw; [|done].
      pose proof (lookup_weaken _ _ _ _ Hw Hsub). congruence.
Qed.

Lemma oa_resize_spec t m fuel :
  Inv t m →
  ∃ t', resize (insert hasher (S fuel)) t = Done t'
    ∧ Inv t' m ∧ no_tombstone t' ∧ table_size t' = table_size t * 2.
Proof.
  intros HI. destruct (oa_resize_total t m HI) as (t' & Hre & Hrest).
  exists t'. split; [apply Hre|done].
Qed.

(** Fuel for one nested call is all that [insert] uses. *)
Lemma oa_insert_fuel t m k v fuel :
  Inv t m → 2 ≤ fuel → insert hasher fuel t k v = insert hasher 2 t k v.
Proof.
  intros HI Hf. destruct fuel as [|[|fuel]]; try lia.
  rewrite !oa_insert_unfold. destruct (over_load t); [|done].
  destruct (oa_resize_total t m HI) as (t' & Hre & _).
  by rewrite (Hre fuel), (Hre 0).
Qed.

(** [insert]: with fuel for one nested call it returns; it stores the pair
    when it answers [true] and changes no binding when it answers [false]. *)
Lemma oa_insert_spec t m k v fuel :
  Inv t m → 2 ≤ fuel →
  ∃ t' b, insert hasher fuel t k v = Done (t', b)
    ∧ table_size t'
      = (if over_load t then table_size t * 2 else table_size t)
    ∧ (if b then Inv t' (<[k:=v]> m)
       else Inv t' m ∧ m !! k = None
            ∧ ∀ i e, table t' !! i = Some e → state e ≠ EMPTY).
Proof.
  intros HI Hfuel. destruct fuel as [|[|fuel]]; try lia.
  rewrite oa_insert_unfold. destruct (over_load t) eqn:Hov.
  - destruct (oa_resize_spec t m fuel HI) as (t1 & Hre & HI1 & Hno1 & Hsz1).
    rewrite Hre. simpl.
    destruct (oa_place_spec t1 m k v HI1) as (t' & b & Hpl & Hsz & _ & Hb).
    exists t', b. split; [done|]. split; [congruence|].
    destruct b; [done|]. destruct Hb as (-> & ? & ?). done.
  - simpl.
    destruct (oa_place_spec t m k v HI) as (t' & b & Hpl & Hsz & _ & Hb).
    exists t', b. split; [done|]. split; [done|].
    destruct b; [done|]. destruct Hb as (-> & ? & ?). done.
Qed.

(** On a table without tombstones [insert] finds room: it answers [true]
    and leaves no tombstone. *)
Lemma oa_insert_true t m k v fuel :
  Inv t m → no_tombstone t → 2 ≤ fuel →
  ∃ t', insert hasher fuel t k v = Done (t', true)
    ∧ Inv t' (<[k:=v]> m) ∧ no_tombstone t'.
Proof.
  intros HI Hno Hf. destruct fuel as [|[|fuel]]; try lia.
  destruct (inv_shape _ _ HI) as [Hlen Hpos].
  assert (Hle : current_size t ≤ table_size t).
  { rewrite (inv_count _ _ HI), <- Hlen. apply length_filter. }
  rewrite oa_insert_unfold. destruct (over_load t) eqn:Hov.
  - destruct (oa_resize_spec t m fuel HI) as (t1 & -> & HI1 & Hno1 & Hsz1).
    simpl. destruct (oa_place_spec t1 m k v HI1) as (t' & b & Hpl & _ & Hno' & Hb).
    destruct b; [exists t'; auto|].
    destruct Hb as (_ & _ & Hfull).
    destruct (empty_slot t1 m HI1 Hno1) as (i & e & Hi & He).
    { rewrite (inv_size _ _ HI1), <- (inv_size _ _ HI). lia. }
    by destruct (Hfull _ _ Hi).
  - simpl. destruct (oa_place_spec t m k v HI) as (t' & b & Hpl & _ & Hno' & Hb).
    destruct b; [exists t'; auto|].
    destruct Hb as (_ & _ & Hfull).
    destruct (empty_slot t m HI Hno) as (i & e & Hi & He).
    { unfold over_load in Hov. apply Nat.ltb_ge in Hov. lia. }
    by destruct (Hfull _ _ Hi).
Qed.

End WithHasher.

End OpenAddressingInv.

(** ** The AVL trees of the buckets: balance *)

Module AVLBalance.
Import AVLTable.
Local Open Scope Z_scope.

(** The number of nodes on the longest path down from [n]. *)
Fixpoint real_height (n : AVLNode) : Z :=
  match n with
  | null => 0
  | node _ _ _ l r => 1 + Z.max (real_height l) (real_height r)
  end.

(** Every node stores one more than the larger height of its children, and
    the heights of its children differ by one at most. *)
Fixpoint avl (n : AVLNode) : Prop :=
  match n with
  | null => True
  | node _ _ h l r =>
      avl l ∧ avl r
      ∧ h = 1 + Z.max (get_height l) (get_height r)
      ∧ -1 ≤ get_height l - get_height r ≤ 1
  end.

(** What [insert_avl] leaves at the root of a tree that it made higher:
    a new leaf, or a node that leans to the side the key went to. *)
Definition grew (n : AVLNode) (k : Z) : Prop :=
  match n with
  | null => False
  | node nk _ _ l r =>
      (l = null ∧ r = null)
      ∨ (k < nk ∧ get_height l = get_height r + 1)
      ∨ (nk < k ∧ get_height r = get_height l + 1)
  end.

Lemma avl_height_nonneg n : avl n → 0 ≤ get_height n.
Proof.
  induction n as [|k v h l IHl r IHr]; simpl; [lia|].
  intros (Hl & Hr & -> & _). specialize (IHl Hl). specialize (IHr Hr). lia.
Qed.

Lemma avl_real_height n : avl n → get_height n = real_height n.
Proof.
  induction n as [|k v h l IHl r IHr]; simpl; [done|].
  intros (Hl & Hr & -> & _). rewrite IHl, IHr by done. done.
Qed.

(** Unfolds the invariant of the subtrees at hand and the heights of their
    children. *)
Ltac avl_facts :=
  repeat match goal with
  | H : avl (node _ _ _ _ _) |- _ =>
      let Hl := fresh "Hl" in let Hr := fresh "Hr" in
      let Hh := fresh "Hh" in let Hb := fresh "Hb" in
      destruct H as (Hl & Hr & Hh & Hb);
      pose proof (avl_height_nonneg _ Hl);
      pose proof (avl_height_nonneg _ Hr)
  end.

Ltac avl_solve :=
  avl_facts; subst; simpl in *;
  repeat match goal with
  | |- _ ∧ _ => split
  | |- avl _ => assumption
  end; try done; try lia.

Lemma rebalance_inserted_avl nk nv nh l r k :
  avl l → avl r → -2 ≤ get_height l - get_height r ≤ 2 →
  (get_height l - get_height r = 2 → grew l k) →
  (get_height r - get_height l = 2 → grew r k) →
  ∃ n', rebalance_inserted (node nk nv nh l r) k = Done n' ∧ avl n'
    ∧ (get_height l - get_height r = 2 ∨ get_height r - get_height l = 2 →
       get_height n' = Z.max (get_height l) (get_height r))
    ∧ (-1 ≤ get_height l - get_height r ≤ 1 →
       n' = node nk nv (1 + Z.max (get_height l) (get_height r)) l r).
Proof.
  intros Hl Hr Hb Hgl Hgr.
  pose proof (avl_height_nonneg _ Hl) as Hl0.
  pose proof (avl_height_nonneg _ Hr) as Hr0.
  unfold rebalance_inserted. cbn [update_height].
  destruct (Z.ltb_spec 1 (get_height l - get_height r)) as [H1|H1].
  - (* the left subtree is two higher *)
    specialize (Hgl ltac:(lia)).
    destruct l as [|lk lv lh ll lr]; [done|].
    destruct Hgl as [[-> ->]|[[Hk Hh]|[Hk Hh]]]; [exfalso; avl_solve|..].
    + cbn [and_then key_of mbind outcome_mbind outcome_bind].
      destruct (Z.ltb_spec k lk); [|lia].
      cbn [rotate_right]. eexists; split; [done|]. avl_solve.
    + cbn [and_then key_of mbind outcome_mbind outcome_bind].
      destruct (Z.ltb_spec k lk); [lia|].
      destruct (Z.ltb_spec (get_height (node lk lv lh ll lr) - get_height r) (-1));
        [lia|].
      destruct (Z.ltb_spec lk k); [|lia].
      destruct lr as [|rk rv rh rl rr]; [exfalso; avl_solve|].
      cbn [rotate_left rotate_right update_height mbind outcome_mbind
           outcome_bind].
      eexists; split; [done|]. avl_solve.
  - destruct (Z.ltb_spec (get_height l - get_height r) (-1)) as [H2|H2].
    + (* the right subtree is two higher *)
      specialize (Hgr ltac:(lia)).
      destruct r as [|rk rv rh rl rr]; [done|].
      destruct Hgr as [[-> ->]|[[Hk Hh]|[Hk Hh]]]; [exfalso; avl_solve|..].
      * cbn [and_then key_of mbind outcome_mbind outcome_bind].
        destruct (Z.ltb_spec rk k); [lia|].
        destruct (Z.ltb_spec k rk); [|lia].
        destruct rl as [|lk lv lh ll lr]; [exfalso; avl_solve|].
        cbn [rotate_left rotate_right update_height mbind outcome_mbind
             outcome_bind].
        eexists; split; [done|]. avl_solve.
      * cbn [and_then key_of mbind outcome_mbind outcome_bind].
        destruct (Z.ltb_spec rk k); [|lia].
        cbn [rotate_left]. eexists; split; [done|]. avl_solve.
    + cbn [and_then mbind outcome_mbind outcome_bind].
      eexists; split; [done|]. split; [simpl; split_and!; try done; lia|].
      split; [intros; lia|done].
Qed.

Lemma insert_avl_avl n k v :
  avl n →
  ∃ n' b, insert_avl n k v = Done (n', b) ∧ avl n'
    ∧ get_height n ≤ get_height n' ≤ get_height n + 1
    ∧ (get_height n' = get_height n + 1 → grew n' k).
Proof.
  induction n as [|nk nv nh l IHl r IHr]; intros Hn.
  { eexists _, _. split; [done|]. simpl. split_and!; try done; try lia.
    intros _. by left. }
  destruct Hn as (Hl & Hr & Hh & Hb).
  pose proof (avl_height_nonneg _ Hl) as Hl0.
  pose proof (avl_height_nonneg _ Hr) as Hr0.
  cbn [insert_avl]. destruct (Z.ltb_spec k nk) as [Hk|Hk].
  - destruct (IHl Hl) as (l' & b & -> & Hl' & Hhl & Hgl).
    cbn [mbind outcome_mbind outcome_bind].
    destruct (rebalance_inserted_avl nk nv nh l' r k) as (n' & -> & Hn' & Hrot & Hkeep);
      [done|done|lia|intros; apply Hgl; lia|intros; lia|].
    exists n', b. split; [done|]. split; [done|].
    destruct (decide (get_height l' - get_height r = 2)) as [H2|H2].
    + rewrite Hrot by (by left). simpl. split; [lia|]. intros; lia.
    + rewrite Hkeep by lia. simpl. split; [lia|]. intros ?. right; left. lia.
  - destruct (Z.ltb_spec nk k) as [Hk'|Hk'].
    + destruct (IHr Hr) as (r' & b & -> & Hr' & Hhr & Hgr).
      cbn [mbind outcome_mbind outcome_bind].
      destruct (rebalance_inserted_avl nk nv nh l r' k) as (n' & -> & Hn' & Hrot & Hkeep);
        [done|done|lia|intros; lia|intros; apply Hgr; lia|].
      exists n', b. split; [done|]. split; [done|].
      destruct (decide (get_height r' - get_height l = 2)) as [H2|H2].
      * rewrite Hrot by (by right). simpl. split; [lia|]. intros; lia.
      * rewrite Hkeep by lia. simpl. split; [lia|]. intros ?. right; right. lia.
    + eexists _, _. split; [done|]. simpl. split_and!; try done; try lia.
Qed.

(** The rebalancing of [remove_avl]. *)
Lemma rebalance_removed_avl nk nv nh l r :
  avl l → avl r → -2 ≤ get_height l - get_height r ≤ 2 →
  ∃ n', rebalance_removed (node nk nv nh l r) = Done n' ∧ avl n'
    ∧ Z.max (get_height l) (get_height r) ≤ get_height n'
      ≤ 1 + Z.max (get_height l) (get_height r)
    ∧ (-1 ≤ get_height l - get_height r ≤ 1 →
       get_height n' = 1 + Z.max (get_height l) (get_height r)).
Proof.
  intros Hl Hr Hb.
  pose proof (avl_height_nonneg _ Hl) as Hl0.
  pose proof (avl_height_nonneg _ Hr) as Hr0.
  unfold rebalance_removed. cbn [update_height].
  destruct (Z.ltb_spec 1 (get_height l - get_height r)) as [H1|H1];
    cbn [andb].
  - destruct l as [|lk lv lh ll lr]; [exfalso; simpl in *; lia|].
    cbn [get_balance].
    destruct (Z.leb_spec 0 (get_height ll - get_height lr)) as [H2|H2].
    + cbn [rotate_right]. eexists; split; [done|]. avl_solve.
    + destruct (Z.ltb_spec (get_height ll - get_height lr) 0); [|lia].
      destruct lr as [|rk rv rh rl rr]; [exfalso; avl_solve|].
      cbn [rotate_left rotate_right update_height mbind outcome_mbind
           outcome_bind].
      eexists; split; [done|]. avl_solve.
  - destruct (Z.ltb_spec (get_height l - get_height r) (-1)) as [H2|H2];
      cbn [andb].
    + destruct r as [|rk rv rh rl rr]; [exfalso; simpl in *; lia|].
      cbn [get_balance].
      destruct (Z.leb_spec (get_height rl - get_height rr) 0) as [H3|H3].
      * cbn [rotate_left]. eexists; split; [done|]. avl_solve.
      * destruct (Z.ltb_spec 0 (get_height rl - get_height rr)); [|lia].
        destruct rl as [|lk lv lh ll lr]; [exfalso; avl_solve|].
        cbn [rotate_left rotate_right update_height mbind outcome_mbind
             outcome_bind].
        eexists; split; [done|]. avl_solve.
    + eexists; split; [done|]. simpl. split_and!; try done; lia.
Qed.

Lemma rebalance_removed_id n :
  avl n → rebalance_removed n = Done n.
Proof.
  destruct n as [|nk nv nh l r]; [done|]. intros (Hl & Hr & -> & Hb).
  unfold rebalance_removed. cbn [update_height].
  destruct (Z.ltb_spec 1 (get_height l - get_height r)); [lia|].
  destruct (Z.ltb_spec (get_height l - get_height r) (-1)); [lia|].
  done.
Qed.

Lemma find_min_Done n :
  n ≠ null → ∃ k v h r, find_min n = Done (node k v h null r).
Proof.
  induction n as [|k v h l IHl r _]; [done|]. intros _.
  destruct l as [|lk lv lh ll lr]; [by eexists _, _, _, _|].
  destruct IHl as (k' & v' & h' & r' & Hm); [done|].
  exists k', v', h', r'. exact Hm.
Qed.

Lemma remove_avl_avl n k :
  avl n →
  ∃ n' b, remove_avl n k = Done (n', b) ∧ avl n'
    ∧ get_height n - 1 ≤ get_height n' ≤ get_height n.
Proof.
  revert k. induction n as [|nk nv nh l IHl r IHr]; intros k Hn.
  { exists null, false. simpl. split_and!; try done; lia. }
  destruct Hn as (Hl & Hr & Hh & Hb).
  pose proof (avl_height_nonneg _ Hl) as Hl0.
  pose proof (avl_height_nonneg _ Hr) as Hr0.
  cbn [remove_avl]. destruct (Z.ltb_spec k nk) as [Hk|Hk].
  - destruct (IHl k Hl) as (l' & b & -> & Hl' & Hhl).
    cbn [mbind outcome_mbind outcome_bind].
    destruct (rebalance_removed_avl nk nv nh l' r) as (n' & -> & Hn' & Hhn & Hhk);
      [done|done|lia|].
    exists n', b. split; [done|]. split; [done|]. simpl. lia.
  - destruct (Z.ltb_spec nk k) as [Hk'|Hk'].
    + destruct (IHr k Hr) as (r' & b & -> & Hr' & Hhr).
      cbn [mbind outcome_mbind outcome_bind].
      destruct (rebalance_removed_avl nk nv nh l r') as (n' & -> & Hn' & Hhn & Hhk);
        [done|done|lia|].
      exists n', b. split; [done|]. split; [done|]. simpl. lia.
    + destruct l as [|lk lv lh ll lr], r as [|rk rv rh rl rr].
      * exists null, true. simpl. split_and!; try done; simpl in *; lia.
      * rewrite rebalance_removed_id by done.
        eexists _, _. split; [done|]. split; [done|]. simpl in *. lia.
      * rewrite rebalance_removed_id by done.
        eexists _, _. split; [done|]. split; [done|]. simpl in *. lia.
      * destruct (find_min_Done (node rk rv rh rl rr)) as (tk & tv & th & tr & ->);
          [done|].
        cbn [mbind outcome_mbind outcome_bind key_of value_of].
        destruct (IHr tk Hr) as (r' & b & -> & Hr' & Hhr).
        cbn [mbind outcome_mbind outcome_bind].
        destruct (rebalance_removed_avl tk tv nh (node lk lv lh ll lr) r')
          as (n' & -> & Hn' & Hhn & Hhk); [done|done|lia|].
        exists n', true. split; [done|]. split; [done|]. simpl in *. lia.
Qed.

(** The AVL invariant in terms of the heights of the subtrees themselves. *)
Fixpoint balanced (n : AVLNode) : Prop :=
  match n with
  | null => True
  | node _ _ h l r =>
      balanced l ∧ balanced r
      ∧ -1 ≤ real_height l - real_height r ≤ 1
      ∧ h = 1 + Z.max (real_height l) (real_height r)
  end.

Lemma avl_balanced n : avl n → balanced n.
Proof.
  induction n as [|k v h l IHl r IHr]; [done|].
  intros (Hl & Hr & Hh & Hb). simpl.
  rewrite <- !avl_real_height by done. auto.
Qed.

End AVLBalance.

(** ** The AVL trees of the buckets: search order and contents *)

Module AVLOrder.
Import AVLTable.
Local Open Scope Z_scope.

(** The in-order traversal: the pairs, and their keys. *)
Fixpoint elements (n : AVLNode) : list (Z * Z) :=
  match n with
  | null => []
  | node k v _ l r => elements l ++ (k, v) :: elements r
  end.

Definition keys (n : AVLNode) : list Z := (elements n).*1.

(** A binary search tree: the in-order traversal meets the keys in
    strictly increasing order. *)
Definition bst (n : AVLNode) : Prop := StronglySorted Z.lt (keys n).

Lemma keys_node k v h l r : keys (node k v h l r) = keys l ++ k :: keys r.
Proof. unfold keys. simpl. by rewrite fmap_app. Qed.

Lemma elem_of_keys n x : x ∈ keys n ↔ ∃ v, (x, v) ∈ elements n.
Proof.
  unfold keys. rewrite list_elem_of_fmap. split.
  - intros ([k v] & -> & H). by exists v.
  - intros (v & H). by exists (x, v).
Qed.

Lemma elem_of_node k v h l r k' v' :
  (k', v') ∈ elements (node k v h l r)
  ↔ (k', v') ∈ elements l ∨ (k' = k ∧ v' = v) ∨ (k', v') ∈ elements r.
Proof.
  simpl. rewrite elem_of_app, elem_of_cons.
  split; intros [?|[?|?]]; simplify_eq; auto.
  destruct H as [-> ->]. auto.
Qed.

Lemma bst_node k v h l r :
  bst (node k v h l r)
  ↔ bst l ∧ bst r
    ∧ (∀ x, x ∈ keys l → x < k) ∧ (∀ x, x ∈ keys r → k < x).
Proof.
  unfold bst. rewrite keys_node, StronglySorted_app, StronglySorted_cons.
  rewrite Forall_forall. split.
  - intros (Hlr & Hl & Hr & Hrs). split_and!; try done.
    intros x Hx. apply (Hlr x k); [done|left].
  - intros (Hl & Hr & Hlk & Hrk). split_and!; try done.
    intros x1 x2 H1 [->|H2]%elem_of_cons; [by apply Hlk|].
    specialize (Hlk _ H1). specialize (Hrk _ H2). lia.
Qed.

Lemma bst_null : bst null.
Proof. constructor. Qed.

(** Two trees with the same traversal are search trees together. *)
Lemma bst_elements n n' : elements n' = elements n → bst n → bst n'.
Proof. unfold bst, keys. by intros ->. Qed.

Lemma rotate_right_elements n n' :
  rotate_right n = Done n' → elements n' = elements n.
Proof.
  destruct n as [|yk yv yh [|xk xv xh T1 T2] T3]; try done.
  intros [= <-]. simpl. by rewrite <- app_assoc.
Qed.

Lemma rotate_left_elements n n' :
  rotate_left n = Done n' → elements n' = elements n.
Proof.
  destruct n as [|xk xv xh T1 [|yk yv yh T2 T3]]; try done.
  intros [= <-]. simpl. by rewrite <- app_assoc.
Qed.

(** Takes apart a run of rotations that returned. *)
Ltac rotations :=
  repeat match goal with
  | H : Done _ = Done _ |- _ => injection H as H; try subst
  | H : (_ ≫= _) = Done _ |- _ =>
      let a := fresh "a" in let Ha := fresh "Ha" in
      apply bind_Done in H as (a & Ha & H)
  | H : (if ?c then _ else _) = Done _ |- _ => destruct c
  | H : rotate_right _ = Done _ |- _ => apply rotate_right_elements in H
  | H : rotate_left _ = Done _ |- _ => apply rotate_left_elements in H
  end.

Lemma rebalance_inserted_elements n k n' :
  rebalance_inserted n k = Done n' → elements n' = elements n.
Proof.
  destruct n as [|nk nv nh l r]; [by intros [= <-]|].
  unfold rebalance_inserted. cbn [update_height]. intros H.
  rotations; simpl in *; congruence.
Qed.

Lemma rebalance_removed_elements n n' :
  rebalance_removed n = Done n' → elements n' = elements n.
Proof.
  destruct n as [|nk nv nh l r]; [by intros [= <-]|].
  unfold rebalance_removed. cbn [update_height]. intros H.
  rotations; simpl in *; congruence.
Qed.

Lemma bst_left_lt k v h l r k' v' :
  bst (node k v h l r) → (k', v') ∈ elements l → k' < k.
Proof.
  intros (_ & _ & Hl & _)%bst_node H. apply Hl, elem_of_keys. eauto.
Qed.

Lemma bst_right_gt k v h l r k' v' :
  bst (node k v h l r) → (k', v') ∈ elements r → k < k'.
Proof.
  intros (_ & _ & _ & Hr)%bst_node H. apply Hr, elem_of_keys. eauto.
Qed.

(** [find_avl] reads the traversal of a search tree. *)
Lemma find_avl_elements n k v :
  bst n → find_avl n k = Some v ↔ (k, v) ∈ elements n.
Proof.
  induction n as [|nk nv nh l IHl r IHr]; intros Hb.
  { simpl. split; [done|]. by intros ?%elem_of_nil. }
  pose proof Hb as (Hbl & Hbr & _ & _)%bst_node.
  rewrite elem_of_node. cbn [find_avl].
  destruct (Z.eqb_spec k nk) as [->|Hne].
  - split; [intros [= ->]; auto|].
    intros [H|[[_ ->]|H]]; [|done|].
    + pose proof (bst_left_lt _ _ _ _ _ _ _ Hb H). lia.
    + pose proof (bst_right_gt _ _ _ _ _ _ _ Hb H). lia.
  - destruct (Z.ltb_spec k nk) as [Hlt|Hge].
    + rewrite (IHl Hbl). split; [auto|].
      intros [H|[[? _]|H]]; [done|done|].
      pose proof (bst_right_gt _ _ _ _ _ _ _ Hb H). lia.
    + rewrite (IHr Hbr). split; [auto|].
      intros [H|[[? _]|H]]; [|done|done].
      pose proof (bst_left_lt _ _ _ _ _ _ _ Hb H). lia.
Qed.

Lemma bst_unique n k v w :
  bst n → (k, v) ∈ elements n → (k, w) ∈ elements n → v = w.
Proof.
  intros Hb Hv%(find_avl_elements _ _ _ Hb) Hw%(find_avl_elements _ _ _ Hb).
  congruence.
Qed.

(** [insert_avl] on a search tree: the pair is bound, the other pairs stay,
    and the flag tells whether the key is new. *)
Lemma insert_avl_elements n k v n' b :
  bst n → insert_avl n k v = Done (n', b) →
  bst n'
  ∧ (∀ k' v', (k', v') ∈ elements n'
       ↔ (k' = k ∧ v' = v) ∨ (k' ≠ k ∧ (k', v') ∈ elements n))
  ∧ (b = true ↔ k ∉ keys n).
Proof.
  revert n' b. induction n as [|nk nv nh l IHl r IHr]; intros n' b Hb H.
  { injection H as <- <-. split_and!.
    - apply bst_node. split_and!; try apply bst_null; by intros ? ?%elem_of_nil.
    - intros k' v'. rewrite elem_of_node. simpl. rewrite !elem_of_nil. tauto.
    - split; [|done]. by intros _ ?%elem_of_nil. }
  pose proof Hb as (Hbl & Hbr & Hlk & Hrk)%bst_node.
  cbn [insert_avl] in H. destruct (Z.ltb_spec k nk) as [Hlt|Hge].
  - apply bind_Done in H as ([l' b'] & Hi & H).
    apply bind_Done in H as (n'' & Hre%rebalance_inserted_elements & [= <- <-]).
    destruct (IHl _ _ Hbl Hi) as (Hbl' & Hel & Hfl).
    assert (Hn : ∀ k' v', (k', v') ∈ elements n''
                 ↔ (k' = k ∧ v' = v) ∨ (k' ≠ k ∧ (k', v') ∈ elements (node nk nv nh l r))).
    { intros k' v'. rewrite Hre, !elem_of_node, Hel. split.
      - intros [[?|[? ?]]|[[-> ->]|Hr]]; auto.
        + right. split; [lia|auto].
        + right. split; [|auto].
          pose proof (bst_right_gt _ _ _ _ _ _ _ Hb Hr). lia.
      - intros [?|[? [?|[?|?]]]]; auto. }
    split_and!; [|done|].
    + eapply bst_elements; [exact Hre|]. apply bst_node. split_and!; try done.
      intros x [w Hw]%elem_of_keys. apply Hel in Hw as [[-> _]|[_ Hw]]; [done|].
      apply Hlk, elem_of_keys. eauto.
    + rewrite Hfl, keys_node, elem_of_app, elem_of_cons. split; [|tauto].
      intros Hnl [?|[->|Hr]]; [done|lia|]. specialize (Hrk _ Hr). lia.
  - destruct (Z.ltb_spec nk k) as [Hgt|Hle].
    + apply bind_Done in H as ([r' b'] & Hi & H).
      apply bind_Done in H as (n'' & Hre%rebalance_inserted_elements & [= <- <-]).
      destruct (IHr _ _ Hbr Hi) as (Hbr' & Her & Hfr).
      assert (Hn : ∀ k' v', (k', v') ∈ elements n''
                   ↔ (k' = k ∧ v' = v) ∨ (k' ≠ k ∧ (k', v') ∈ elements (node nk nv nh l r))).
      { intros k' v'. rewrite Hre, !elem_of_node, Her. split.
        - intros [Hl|[[-> ->]|[?|[? ?]]]]; auto.
          + right. split; [|auto].
            pose proof (bst_left_lt _ _ _ _ _ _ _ Hb Hl). lia.
          + right. split; [lia|auto].
        - intros [?|[? [?|[?|?]]]]; auto. }
      split_and!; [|done|].
      * eapply bst_elements; [exact Hre|]. apply bst_node. split_and!; try done.
        intros x [w Hw]%elem_of_keys. apply Her in Hw as [[-> _]|[_ Hw]]; [done|].
        apply Hrk, elem_of_keys. eauto.
      * rewrite Hfr, keys_node, elem_of_app, elem_of_cons. split; [|tauto].
        intros Hnr [Hl|[->|?]]; [|lia|done]. specialize (Hlk _ Hl). lia.
    + assert (k = nk) as -> by lia. injection H as <- <-.
      split_and!.
      * apply bst_node. by apply bst_node in Hb.
      * intros k' v'. rewrite !elem_of_node. split.
        -- intros [Hl|[[-> ->]|Hr]]; auto.
           ++ right. split; [|auto].
              pose proof (bst_left_lt _ _ _ _ _ _ _ Hb Hl). lia.
           ++ right. split; [|auto].
              pose proof (bst_right_gt _ _ _ _ _ _ _ Hb Hr). lia.
        -- intros [[-> ->]|[? [?|[[? ?]|?]]]]; auto. done.
      * split; [done|]. intros Hn. destruct Hn.
        rewrite keys_node, elem_of_app, elem_of_cons. auto.
Qed.

(** [find_min] returns the node of the least key. *)
Lemma find_min_elements n t :
  bst n → find_min n = Done t →
  ∃ tk tv, key_of t = Done tk ∧ value_of t = Done tv
    ∧ (tk, tv) ∈ elements n ∧ ∀ x, x ∈ keys n → tk ≤ x.
Proof.
  revert t. induction n as [|nk nv nh l IHl r _]; intros t Hb H; [done|].
  pose proof Hb as (Hbl & Hbr & Hlk & Hrk)%bst_node.
  destruct l as [|lk lv lh ll lr].
  - injection H as <-. exists nk, nv. split_and!; try done.
    + apply elem_of_node. auto.
    + intros x. rewrite keys_node, elem_of_app, elem_of_cons.
      intros [?%elem_of_nil|[->|Hr]]; [done|lia|]. specialize (Hrk _ Hr). lia.
  - destruct (IHl t Hbl H) as (tk & tv & Hk & Hv & Hin & Hmin).
    exists tk, tv. split_and!; try done.
    + apply elem_of_node. auto.
    + assert (tk < nk) by (apply Hlk, elem_of_keys; eauto).
      intros x. rewrite keys_node, elem_of_app, elem_of_cons.
      intros [Hl|[->|Hr]]; [by apply Hmin|lia|]. specialize (Hrk _ Hr). lia.
Qed.

(** [remove_avl] on a search tree: the key is unbound, the other pairs
    stay, and the flag tells whether the key was there. *)
Lemma remove_avl_elements n k n' b :
  bst n → remove_avl n k = Done (n', b) →
  bst n'
  ∧ (∀ k' v', (k', v') ∈ elements n' ↔ k' ≠ k ∧ (k', v') ∈ elements n)
  ∧ (b = true ↔ k ∈ keys n).
Proof.
  revert k n' b. induction n as [|nk nv nh l IHl r IHr]; intros k n' b Hb H.
  { injection H as <- <-. split_and!; [done| |].
    - intros k' v'. simpl. rewrite elem_of_nil. tauto.
    - split; [done|]. by intros ?%elem_of_nil. }
  pose proof Hb as (Hbl & Hbr & Hlk & Hrk)%bst_node.
  cbn [remove_avl] in H. destruct (Z.ltb_spec k nk) as [Hlt|Hge].
  - apply bind_Done in H as ([l' b'] & Hi & H).
    apply bind_Done in H as (n'' & Hre%rebalance_removed_elements & [= <- <-]).
    destruct (IHl _ _ _ Hbl Hi) as (Hbl' & Hel & Hfl).
    split_and!.
    + eapply bst_elements; [exact Hre|]. apply bst_node. split_and!; try done.
      intros x [w Hw]%elem_of_keys. apply Hel in Hw as [_ Hw].
      apply Hlk, elem_of_keys. eauto.
    + intros k' v'. rewrite Hre, !elem_of_node, Hel. split.
      * intros [[? ?]|[[-> ->]|Hr]]; auto.
        -- split; [lia|auto].
        -- split; [|auto]. pose proof (bst_right_gt _ _ _ _ _ _ _ Hb Hr). lia.
      * intros [? [?|[?|?]]]; auto.
    + rewrite Hfl, keys_node, elem_of_app, elem_of_cons. split; [tauto|].
      intros [?|[->|Hr]]; [done|lia|]. specialize (Hrk _ Hr). lia.
  - destruct (Z.ltb_spec nk k) as [Hgt|Hle].
    + apply bind_Done in H as ([r' b'] & Hi & H).
      apply bind_Done in H as (n'' & Hre%rebalance_removed_elements & [= <- <-]).
      destruct (IHr _ _ _ Hbr Hi) as (Hbr' & Her & Hfr).
      split_and!.
      * eapply bst_elements; [exact Hre|]. apply bst_node. split_and!; try done.
        intros x [w Hw]%elem_of_keys. apply Her in Hw as [_ Hw].
        apply Hrk, elem_of_keys. eauto.
      * intros k' v'. rewrite Hre, !elem_of_node, Her. split.
        -- intros [Hl|[[-> ->]|[? ?]]]; auto.
           ++ split; [|auto]. pose proof (bst_left_lt _ _ _ _ _ _ _ Hb Hl). lia.
           ++ split; [lia|auto].
        -- intros [? [?|[?|?]]]; auto.
      * rewrite Hfr, keys_node, elem_of_app, elem_of_cons. split; [tauto|].
        intros [Hl|[->|?]]; [|lia|done]. specialize (Hlk _ Hl). lia.
    + assert (k = nk) as -> by lia.
      assert (Hkeys : nk ∈ keys (node nk nv nh l r)).
      { rewrite keys_node, elem_of_app, elem_of_cons. auto. }
      destruct l as [|lk lv lh ll lr], r as [|rk rv rh rl rr].
      * injection H as <- <-. split_and!; [done| |done].
        intros k' v'. rewrite elem_of_node. simpl. rewrite !elem_of_nil.
        split; [done|]. intros [? [?|[[? _]|?]]]; done.
      * apply bind_Done in H as (n'' & Hre%rebalance_removed_elements & [= <- <-]).
        split_and!; [by eapply bst_elements| |done].
        intros k' v'. rewrite Hre, (elem_of_node nk). split.
        -- intros Hr. split; [|auto].
           pose proof (bst_right_gt _ _ _ _ _ _ _ Hb Hr). lia.
        -- intros [? [?%elem_of_nil|[[? _]|?]]]; done.
      * apply bind_Done in H as (n'' & Hre%rebalance_removed_elements & [= <- <-]).
        split_and!; [by eapply bst_elements| |done].
        intros k' v'. rewrite Hre, (elem_of_node nk). split.
        -- intros Hl. split; [|auto].
           pose proof (bst_left_lt _ _ _ _ _ _ _ Hb Hl). lia.
        -- intros [? [?|[[? _]|?%elem_of_nil]]]; done.
      * apply bind_Done in H as (temp & Hmin & H).
        destruct (find_min_elements _ _ Hbr Hmin)
          as (tk & tv & Htk & Htv & Hin & Hleast).
        rewrite Htk in H. cbn [mbind outcome_mbind outcome_bind] in H.
        rewrite Htv in H. cbn [mbind outcome_mbind outcome_bind] in H.
        apply bind_Done in H as ([r' b'] & Hi & H).
        apply bind_Done in H as (n'' & Hre%rebalance_removed_elements & [= <- <-]).
        destruct (IHr _ _ _ Hbr Hi) as (Hbr' & Her & _).
        assert (Hgt : nk < tk) by (apply Hrk, elem_of_keys; eauto).
        split_and!; [| |done].
        -- eapply bst_elements; [exact Hre|]. apply bst_node.
           split_and!; try done.
           ++ intros x Hx. specialize (Hlk _ Hx). lia.
           ++ intros x [w Hw]%elem_of_keys. apply Her in Hw as [Hne Hw].
              assert (tk ≤ x) by (apply Hleast, elem_of_keys; eauto). lia.
        -- intros k' v'. rewrite Hre, (elem_of_node tk), (elem_of_node nk), Her.
           split.
           ++ intros [Hl|[[-> ->]|[? Hr]]].
              ** split; [|auto].
                 pose proof (bst_left_lt _ _ _ _ _ _ _ Hb Hl). lia.
              ** split; [lia|auto].
              ** split; [|auto].
                 pose proof (bst_right_gt _ _ _ _ _ _ _ Hb Hr). lia.
           ++ intros [? [?|[[? _]|Hr]]]; [auto|done|].
              destruct (decide (k' = tk)) as [->|?]; [|auto].
              right; left. split; [done|]. exact (bst_unique _ _ _ _ Hbr Hr Hin).
Qed.

End AVLOrder.

(** ** The invariant of the table with AVL buckets *)

Module AVLInv.
Import AVLTable AVLBalance AVLOrder.

Section WithHasher.
Context (hasher : Z → Z).

(** The table [t] stores the finite map [m]: every bucket is a balanced
    search tree of keys that hash to its index. *)
Record Inv (t : AVLHashTable) (m : gmap Z Z) : Prop := {
  inv_shape : length (table t) = table_size t ∧ 0 < table_size t;
  inv_trees : ∀ i n, table t !! i = Some n → bst n ∧ avl n;
  inv_home : ∀ i n k, table t !! i = Some n → k ∈ keys n →
             hash_function hasher k (table_size t) = Done i;
  inv_content : ∀ k v, m !! k = Some v
                ↔ ∃ i n, table t !! i = Some n ∧ (k, v) ∈ elements n;
  inv_size : current_size t = base.size m
}.

(** The bucket of a key holds all there is to know about the key. *)
Lemma bucket_of t m k :
  Inv t m →
  ∃ i n, hash_function hasher k (table_size t) = Done i
    ∧ table t !! i = Some n ∧ bst n ∧ avl n
    ∧ ∀ v, m !! k = Some v ↔ (k, v) ∈ elements n.
Proof.
  intros HI. destruct (inv_shape _ _ HI) as [Hlen Hpos].
  destruct (HashFacts.hash_function_Done hasher k _ Hpos) as (i & Hh & Hi).
  destruct (lookup_lt_is_Some_2 (table t) i) as [n Hn]; [lia|].
  destruct (inv_trees _ _ HI _ _ Hn) as [Hb Ha].
  exists i, n. split_and!; try done.
  intros v. rewrite (inv_content _ _ HI). split; [|eauto].
  intros (j & n' & Hn' & Hin).
  assert (hash_function hasher k (table_size t) = Done j) as Hj.
  { eapply (inv_home _ _ HI); [done|]. apply elem_of_keys. eauto. }
  unfold hash_function in Hj. rewrite Hh in Hj. simplify_eq. congruence.
Qed.

Lemma avl_find_spec t m k : Inv t m → find hasher t k = Done (m !! k).
Proof.
  intros HI. destruct (bucket_of t m k HI) as (i & n & Hh & Hn & Hb & _ & Hm).
  unfold find. rewrite Hh. simpl. unfold at_index. rewrite Hn. simpl. f_equal.
  destruct (m !! k) as [v|] eqn:E.
  - apply (find_avl_elements _ _ _ Hb), Hm. done.
  - destruct (find_avl n k) as [v|] eqn:F; [|done].
    apply (find_avl_elements _ _ _ Hb), Hm in F. congruence.
Qed.

(** Replacing the bucket of [k] by a tree that differs on [k] only. *)
Lemma Inv_replace t m m' i n n' k c :
  Inv t m → hash_function hasher k (table_size t) = Done i →
  table t !! i = Some n → bst n' → avl n' →
  (∀ k' v', (k', v') ∈ elements n'
     ↔ (k' ≠ k ∧ (k', v') ∈ elements n) ∨ (k' = k ∧ m' !! k = Some v')) →
  (∀ k', k' ≠ k → m' !! k' = m !! k') →
  c = base.size m' →
  Inv (mkTable (<[i := n']> (table t)) (table_size t) c) m'.
Proof.
  intros HI Hh Hn Hb' Ha' Hel Hoff ->.
  assert (Hi : (i < length (table t))%nat) by (by eapply lookup_lt_Some).
  split; simpl.
  - rewrite length_insert. apply HI.
  - intros j n2 [(-> & -> & _)|[_ Hj]]%list_lookup_insert_Some; [done|].
    by eapply (inv_trees _ _ HI).
  - intros j n2 k2 [(-> & -> & _)|[_ Hj]]%list_lookup_insert_Some Hk2.
    + apply elem_of_keys in Hk2 as [w [[_ Hw]|[-> _]]%Hel]; [|done].
      eapply (inv_home _ _ HI); [done|]. apply elem_of_keys. eauto.
    + by eapply (inv_home _ _ HI).
  - intros k2 v2. destruct (decide (k2 = k)) as [->|Hne].
    + split.
      * intros Hm'. exists i, n'. rewrite list_lookup_insert_eq by done.
        split; [done|]. apply Hel. auto.
      * intros (j & n2 & [(-> & -> & _)|[Hji Hj]]%list_lookup_insert_Some & Hin).
        -- by apply Hel in Hin as [[? _]|[_ ?]].
        -- destruct Hji.
           assert (hash_function hasher k (table_size t) = Done j) as Hj'.
           { eapply (inv_home _ _ HI); [done|]. apply elem_of_keys. eauto. }
           congruence.
    + rewrite (Hoff _ Hne), (inv_content _ _ HI). split.
      * intros (j & n2 & Hj & Hin). destruct (decide (i = j)) as [->|Hji].
        -- exists j, n'. rewrite list_lookup_insert_eq by done.
           split; [done|]. apply Hel. left. split; [done|]. congruence.
        -- exists j, n2. by rewrite list_lookup_insert_ne.
      * intros (j & n2 & [(-> & -> & _)|[Hji Hj]]%list_lookup_insert_Some & Hin).
        -- apply Hel in Hin as [[_ ?]|[? _]]; [eauto|done].
        -- eauto.
  - done.
Qed.

Lemma avl_place_spec t m k v :
  Inv t m →
  ∃ t', place hasher t k v = Done (t', true)
    ∧ Inv t' (<[k:=v]> m) ∧ table_size t' = table_size t.
Proof.
  intros HI. destruct (bucket_of t m k HI) as (i & n & Hh & Hn & Hb & Ha & Hm).
  destruct (insert_avl_avl n k v Ha) as (n' & b & Hins & Ha' & _).
  destruct (insert_avl_elements _ _ _ _ _ Hb Hins) as (Hb' & Hel & Hnew).
  unfold place. rewrite Hh. simpl. unfold at_index. rewrite Hn. simpl.
  rewrite Hins. simpl. eexists. split; [done|]. split; [|done].
  eapply Inv_replace; try done.
  - intros k' v'. rewrite Hel, lookup_insert_eq. split.
    + intros [[-> ->]|[? ?]]; auto.
    + intros [[? ?]|[-> [= ->]]]; auto.
  - intros k' Hne. by rewrite lookup_insert_ne.
  - rewrite map_size_insert, (inv_size _ _ HI).
    destruct b.
    + assert (m !! k = None) as ->; [|simpl; lia].
      destruct (m !! k) as [w|] eqn:E; [|done].
      destruct (proj1 Hnew eq_refl). apply elem_of_keys. exists w. by apply Hm.
    + destruct (m !! k) as [w|] eqn:E; [done|].
      assert (false = true); [|done]. apply Hnew.
      intros [w Hw]%elem_of_keys. apply Hm in Hw. congruence.
Qed.

Lemma avl_remove_spec t m k :
  Inv t m →
  ∃ t', remove hasher t k = Done (t', bool_decide (is_Some (m !! k)))
    ∧ Inv t' (delete k m) ∧ table_size t' = table_size t.
Proof.
  intros HI. destruct (bucket_of t m k HI) as (i & n & Hh & Hn & Hb & Ha & Hm).
  destruct (remove_avl_avl n k Ha) as (n' & b & Hrem & Ha' & _).
  destruct (remove_avl_elements _ _ _ _ Hb Hrem) as (Hb' & Hel & Hold).
  assert (b = bool_decide (is_Some (m !! k))) as Hbm.
  { destruct b.
    - pose proof (proj1 Hold eq_refl) as [w Hw]%elem_of_keys.
      apply Hm in Hw. rewrite Hw. done.
    - destruct (m !! k) as [w|] eqn:E; [|done].
      assert (false = true); [|done].
      apply Hold, elem_of_keys. exists w. by apply Hm. }
  unfold remove. rewrite Hh. simpl. unfold at_index. rewrite Hn. simpl.
  rewrite Hrem. simpl. rewrite <- Hbm. eexists. split; [done|]. split; [|done].
  eapply Inv_replace; try done.
  - intros k' v'. rewrite Hel, lookup_delete_eq. split.
    + intros [? ?]; auto.
    + intros [[? ?]|[_ [=]]]; auto.
  - intros k' Hne. by rewrite lookup_delete_ne.
  - rewrite map_size_delete, (inv_size _ _ HI), Hbm.
    destruct (m !! k); simpl; lia.
Qed.

(** Removing a key that is not in a balanced search tree returns the very
    same tree. *)
Lemma remove_avl_absent n k :
  avl n → bst n → k ∉ keys n → remove_avl n k = Done (n, false).
Proof.
  induction n as [|nk nv nh l IHl r IHr]; intros Ha Hb Hk; [done|].
  pose proof Ha as (Hal & Har & _).
  pose proof Hb as (Hbl & Hbr & _)%bst_node.
  rewrite keys_node, elem_of_app, elem_of_cons in Hk.
  cbn [remove_avl]. destruct (Z.ltb_spec k nk).
  - rewrite IHl by tauto. cbn [mbind outcome_mbind outcome_bind].
    by rewrite rebalance_removed_id.
  - destruct (Z.ltb_spec nk k).
    + rewrite IHr by tauto. cbn [mbind outcome_mbind outcome_bind].
      by rewrite rebalance_removed_id.
    + destruct Hk. right; left. lia.
Qed.

Lemma remove_absent t m k :
  Inv t m → m !! k = None → remove hasher t k = Done (t, false).
Proof.
  intros HI Hk.
  destruct (bucket_of t m k HI) as (i & n & Hh & Hn & Hb & Ha & Hm).
  unfold remove. rewrite Hh. simpl. unfold at_index. rewrite Hn. simpl.
  rewrite remove_avl_absent; try done.
  - simpl. rewrite list_insert_id by done. by destruct t.
  - intros [w Hw]%elem_of_keys. apply Hm in Hw. congruence.
Qed.

Lemma Inv_empty n0 c :
  (0 < n0)%nat → Inv (mkTable (replicate n0 null) n0 c) ∅ ↔ c = 0%nat.
Proof.
  intros Hn. split.
  { intros HI. pose proof (inv_size _ _ HI) as H. simpl in H.
    by rewrite map_size_empty in H. }
  intros ->. split; simpl.
  - by rewrite length_replicate.
  - intros i n [-> _]%lookup_replicate. split; [apply bst_null|done].
  - intros i n k [-> _]%lookup_replicate ?%elem_of_nil. done.
  - intros k v. rewrite lookup_empty. split; [done|].
    intros (i & n & [-> _]%lookup_replicate & ?%elem_of_nil). done.
  - by rewrite map_size_empty.
Qed.

Lemma avl_Inv_new n0 : (0 < n0)%nat → Inv (new n0) ∅.
Proof. intros. by apply Inv_empty. Qed.

Lemma avl_Inv_clear t m : Inv t m → Inv (clear t) ∅.
Proof.
  intros HI. destruct (inv_shape _ _ HI) as [Hlen Hpos]. unfold clear.
  assert ((λ _ : AVLNode, null) <$> table t = replicate (table_size t) null)
    as ->; [|by apply Inv_empty].
  rewrite <- Hlen. clear. induction (table t); simpl; [done|]. by f_equal.
Qed.

(** *** Growth *)

Lemma avl_insert_unfold fuel t k v :
  insert hasher (S fuel) t k v
  = (t ← (if over_load t then resize (insert hasher fuel) t else Done t);
     place hasher t k v).
Proof. reflexivity. Qed.

(** One insertion of the rehash: the new table has room for all of [m], so
    it does not grow again, whatever the fuel. *)
Lemma reinsert_one (m : gmap Z Z) t' m' k v :
  Inv t' m' → base.size m ≤ table_size t' → m' ⊆ m → m !! k = Some v →
  ∃ t1, (∀ fuel, insert hasher (S fuel) t' k v = Done (t1, true))
    ∧ Inv t1 (<[k:=v]> m') ∧ table_size t1 = table_size t'
    ∧ m' ⊆ <[k:=v]> m' ∧ <[k:=v]> m' ⊆ m.
Proof.
  intros HI Hsz Hsub Hm.
  assert (Hov : over_load t' = false).
  { unfold over_load. apply Nat.ltb_ge. rewrite (inv_size _ _ HI).
    pose proof (map_subseteq_size _ _ Hsub). lia. }
  destruct (avl_place_spec t' m' k v HI) as (t1 & Hpl & HI1 & Hsz1).
  exists t1. split_and!; try done.
  - intros fuel. rewrite avl_insert_unfold, Hov. exact Hpl.
  - destruct (m' !! k) as [w|] eqn:Hw.
    + pose proof (lookup_weaken _ _ _ _ Hw Hsub).
      assert (w = v) as -> by congruence. by rewrite insert_id.
    + by apply insert_subseteq.
  - by apply insert_subseteq_l.
Qed.

Lemma collect_spec (m : gmap Z Z) n :
  ∀ t' m',
    Inv t' m' → base.size m ≤ table_size t' → m' ⊆ m →
    (∀ k v, (k, v) ∈ elements n → m !! k = Some v) →
    ∃ t'' m'',
      (∀ fuel, collect_and_reinsert (insert hasher (S fuel)) n t' = Done t'')
      ∧ Inv t'' m'' ∧ table_size t'' = table_size t'
      ∧ m' ⊆ m'' ∧ m'' ⊆ m
      ∧ ∀ k v, (k, v) ∈ elements n → is_Some (m'' !! k).
Proof.
  induction n as [|k v h l IHl r IHr]; intros t' m' HI Hsz Hsub Hin.
  { exists t', m'. split_and!; try done. by intros k v ?%elem_of_nil. }
  destruct (reinsert_one m t' m' k v) as (t1 & H1 & HI1 & Hsz1 & Hs1 & Hs1');
    try done.
  { apply Hin, elem_of_node. auto. }
  destruct (IHl t1 (<[k:=v]> m')) as (t2 & m2 & H2 & HI2 & Hsz2 & Hs2 & Hs2' & Hin2);
    try done.
  { congruence. }
  { intros k' v' ?. apply Hin, elem_of_node. auto. }
  destruct (IHr t2 m2) as (t3 & m3 & H3 & HI3 & Hsz3 & Hs3 & Hs3' & Hin3);
    try done.
  { congruence. }
  { intros k' v' ?. apply Hin, elem_of_node. auto. }
  exists t3, m3. split_and!; try done.
  - intros fuel. cbn [collect_and_reinsert]. rewrite H1.
    cbn [mbind outcome_mbind outcome_bind fst]. rewrite H2.
    cbn [mbind outcome_mbind outcome_bind]. apply H3.
  - congruence.
  - etrans; [exact Hs1|]. by etrans.
  - intros k' v' [Hl|[[-> ->]|Hr]]%elem_of_node.
    + destruct (Hin2 _ _ Hl) as [w Hw]. exists w. by eapply lookup_weaken.
    + eexists. eapply lookup_weaken; [apply lookup_insert_eq|].
      etrans; [exact Hs2|exact Hs3].
    + by eapply Hin3.
Qed.

Lemma avl_reinsert_spec (m : gmap Z Z) old :
  ∀ t' m',
    Inv t' m' → base.size m ≤ table_size t' → m' ⊆ m →
    (∀ n k v, n ∈ old → (k, v) ∈ elements n → m !! k = Some v) →
    ∃ t'' m'',
      (∀ fuel, reinsert (insert hasher (S fuel)) old t' = Done t'')
      ∧ Inv t'' m'' ∧ table_size t'' = table_size t'
      ∧ m' ⊆ m'' ∧ m'' ⊆ m
      ∧ ∀ n k v, n ∈ old → (k, v) ∈ elements n → is_Some (m'' !! k).
Proof.
  induction old as [|n old IH]; intros t' m' HI Hsz Hsub Hin.
  { exists t', m'. split_and!; try done. by intros n k v ?%elem_of_nil. }
  destruct (collect_spec m n t' m') as (t1 & m1 & H1 & HI1 & Hsz1 & Hs1 & Hs1' & Hin1);
    try done.
  { intros k v ?. eapply Hin; [left|done]. }
  destruct (IH t1 m1) as (t2 & m2 & H2 & HI2 & Hsz2 & Hs2 & Hs2' & Hin2);
    try done.
  { congruence. }
  { intros n' k v ? ?. eapply Hin; [by right|done]. }
  exists t2, m2. split_and!; try done.
  - intros fuel. cbn [reinsert]. rewrite H1.
    cbn [mbind outcome_mbind outcome_bind]. apply H2.
  - congruence.
  - by etrans.
  - intros n' k v [->|Hn']%elem_of_cons Hkv; [|by eapply Hin2].
    destruct (Hin1 _ _ Hkv) as [w Hw].
    exists w. by eapply lookup_weaken.
Qed.

(** [resize] doubles the capacity and keeps the map, when the map fits the
    doubled table. *)
Lemma avl_resize_total t m :
  Inv t m → current_size t ≤ table_size t * 2 →
  ∃ t', (∀ fuel, resize (insert hasher (S fuel)) t = Done t')
    ∧ Inv t' m ∧ table_size t' = table_size t * 2.
Proof.
  intros HI Hcs. destruct (inv_shape _ _ HI) as [Hlen Hpos].
  destruct (avl_reinsert_spec m (table t)
              (mkTable (replicate (table_size t * 2) null) (table_size t * 2) 0) ∅)
    as (t' & m' & Hre & HI' & Hsz' & _ & Hsub & Hin).
  - apply Inv_empty; [lia|done].
  - simpl. rewrite <- (inv_size _ _ HI). done.
  - apply map_empty_subseteq.
  - intros n k v [i Hi]%list_elem_of_lookup Hkv.
    apply (inv_content _ _ HI). eauto.
  - exists t'. split; [exact Hre|]. split; [|done].
    assert (m' = m) as ->; [|done].
    apply map_eq. intros k. destruct (m !! k) as [v|] eqn:Hm.
    + apply (inv_content _ _ HI) in Hm as Hl. destruct Hl as (i & n & Hn & Hkv).
      destruct (Hin n k v) as [w Hw]; [|done|].
      { apply list_elem_of_lookup. eauto. }
      rewrite Hw. f_equal.
      pose proof (lookup_weaken _ _ _ _ Hw Hsub). congruence.
    + destruct (m' !! k) as [w|] eqn:Hw; [|done].
      pose proof (lookup_weaken _ _ _ _ Hw Hsub). congruence.
Qed.

Lemma avl_resize_spec t m fuel :
  Inv t m → current_size t ≤ table_size t * 2 →
  ∃ t', resize (insert hasher (S fuel)) t = Done t'
    ∧ Inv t' m ∧ table_size t' = table_size t * 2.
Proof.
  intros HI Hcs. destruct (avl_resize_total t m HI Hcs) as (t' & Hre & Hrest).
  exists t'. split; [apply Hre|done].
Qed.

(** The table never holds more than one entry above its capacity. *)
Definition within_load (t : AVLHashTable) : Prop :=
  current_size t ≤ table_size t + 1.

(** [insert]: with fuel for one nested call it returns [true] and stores
    the pair. *)
Lemma avl_insert_spec t m k v fuel :
  Inv t m → within_load t → 2 ≤ fuel →
  ∃ t', insert hasher fuel t k v = Done (t', true)
    ∧ Inv t' (<[k:=v]> m) ∧ within_load t'
    ∧ table_size t'
      = (if over_load t then table_size t * 2 else table_size t).
Proof.
  intros HI Hload Hfuel. destruct fuel as [|[|fuel]]; try lia.
  unfold within_load in *. destruct (inv_shape _ _ HI) as [Hlen Hpos].
  rewrite avl_insert_unfold. destruct (over_load t) eqn:Hov.
  - destruct (avl_resize_spec t m fuel HI) as (t1 & -> & HI1 & Hsz1); [lia|].
    simpl. destruct (avl_place_spec t1 m k v HI1) as (t' & Hpl & HI' & Hsz').
    exists t'. split_and!; try done; [|congruence].
    rewrite (inv_size _ _ HI'), Hsz', Hsz1.
    pose proof (inv_size _ _ HI) as E. pose proof (map_size_insert k v m) as E'.
    destruct (m !! k); simpl in E'; lia.
  - simpl. destruct (avl_place_spec t m k v HI) as (t' & Hpl & HI' & Hsz').
    exists t'. split_and!; try done.
    apply Nat.ltb_ge in Hov.
    rewrite (inv_size _ _ HI'), Hsz'.
    pose proof (inv_size _ _ HI) as E. pose proof (map_size_insert k v m) as E'.
    destruct (m !! k); simpl in E'; lia.
Qed.

(** Fuel for one nested call is all that [insert] uses. *)
Lemma avl_insert_fuel t m k v fuel :
  Inv t m → within_load t → 2 ≤ fuel →
  insert hasher fuel t k v = insert hasher 2 t k v.
Proof.
  intros HI Hl Hf. destruct fuel as [|[|fuel]]; try lia.
  rewrite !avl_insert_unfold. destruct (over_load t); [|done].
  destruct (avl_resize_total t m HI) as (t' & Hre & _).
  { unfold within_load in Hl. destruct (inv_shape _ _ HI). lia. }
  by rewrite (Hre fuel), (Hre 0).
Qed.

End WithHasher.

End AVLInv.

(** ** Tables that store a finite map *)

Module Refinement.
Import Base.

(** The finite map a sequence of calls builds, given the replies. *)
Definition model_step (m : gmap Z Z) (c : call) (r : reply) : gmap Z Z :=
  match c, r with
  | Insert k v, Flag true => <[k:=v]> m
  | Remove k, _ => delete k m
  | Clear, _ => ∅
  | _, _ => m
  end.

(** The reply a call must get on a table that stores [m]. *)
Definition answers (m : gmap Z Z) (c : call) (r : reply) : Prop :=
  match c with
  | Insert k v => r = Flag true ∨ (r = Flag false ∧ m !! k = None)
  | Remove k => r = Flag (bool_decide (is_Some (m !! k)))
  | Find k => r = Found (m !! k)
  | Clear => r = Cleared
  end.

(** The calls leave the binding of [k] alone, but for inserting it again. *)
Definition keeps (k : Z) (cs : list call) : Prop :=
  ∀ c, c ∈ cs → c ≠ Remove k ∧ c ≠ Clear.

(** The value most recently inserted for [k], [v] being the one before. *)
Fixpoint latest (k v : Z) (cs : list call) : Z :=
  match cs with
  | [] => v
  | Insert k' v' :: cs => latest k (if decide (k' = k) then v' else v) cs
  | _ :: cs => latest k v cs
  end.

(** [I t m]: the table [t] stores the map [m]; the operations of [B] follow
    the map. *)
Record Stores {T} (B : HashTableBase T) (I : T → gmap Z Z → Prop) : Prop := {
  stores_insert : ∀ fuel t m k v, I t m → 2 ≤ fuel →
    ∃ t' b, insert B fuel t k v = Done (t', b)
      ∧ I t' (if b then <[k:=v]> m else m)
      ∧ (b = false → m !! k = None);
  stores_remove : ∀ t m k, I t m →
    ∃ t', remove B t k = Done (t', bool_decide (is_Some (m !! k)))
      ∧ I t' (delete k m)
      ∧ (m !! k = None → t' = t);
  stores_find : ∀ t m k, I t m → find B t k = Done (m !! k);
  stores_size : ∀ t m, I t m → size B t = base.size m;
  stores_clear : ∀ t m, I t m → I (clear B t) ∅
}.

Section WithStores.
Context {T : Type} (B : HashTableBase T) (I : T → gmap Z Z → Prop).
Context (HS : Stores B I).

Lemma exec_spec fuel t m c :
  I t m → 2 ≤ fuel →
  ∃ t' r, exec B fuel t c = Done (t', r)
    ∧ I t' (model_step m c r) ∧ answers m c r.
Proof.
  intros HI Hf. destruct c as [k v|k|k|]; simpl.
  - destruct (stores_insert _ _ HS fuel t m k v HI Hf) as (t' & b & -> & HI' & Hb).
    simpl. exists t', (Flag b). split; [done|]. destruct b; auto.
  - destruct (stores_remove _ _ HS t m k HI) as (t' & -> & HI' & _).
    simpl. eauto.
  - rewrite (stores_find _ _ HS t m k HI). simpl. eauto.
  - exists (clear B t), Cleared. split; [done|]. split; [|done].
    by eapply stores_clear.
Qed.

(** Every sequence of calls returns, on a table that stores some map. *)
Lemma run_spec fuel cs :
  ∀ t m, I t m → 2 ≤ fuel →
  ∃ t' rs m', run B fuel cs t = Done (t', rs) ∧ I t' m'.
Proof.
  induction cs as [|c cs IH]; intros t m HI Hf; simpl.
  { by exists t, [], m. }
  destruct (exec_spec fuel t m c HI Hf) as (t1 & r & -> & HI1 & _). simpl.
  destruct (IH t1 _ HI1 Hf) as (t' & rs & m' & -> & HI'). simpl.
  by exists t', (r :: rs), m'.
Qed.

Lemma reachable_stores new t :
  (∀ n, 0 < n → I (new n) ∅) → reachable B new t → ∃ m, I t m.
Proof.
  intros Hnew (n & fuel & cs & rs & Hn & Hf & Hrun).
  destruct (run_spec fuel cs (new n) ∅ (Hnew n Hn) Hf) as (t' & rs' & m' & Hrun' & HI).
  exists m'. congruence.
Qed.

(** A binding survives the calls that leave its key alone, and follows the
    later insertions of its key. *)
Lemma run_keeps fuel k cs :
  ∀ t m v, I t m → 2 ≤ fuel → m !! k = Some v → keeps k cs →
  ∃ t' rs m', run B fuel cs t = Done (t', rs) ∧ I t' m'
    ∧ m' !! k = Some (latest k v cs).
Proof.
  induction cs as [|c cs IH]; intros t m v HI Hf Hm Hk; simpl.
  { by exists t, [], m. }
  destruct (exec_spec fuel t m c HI Hf) as (t1 & r & -> & HI1 & Ha). simpl.
  assert (Hk' : keeps k cs) by (intros c' ?; apply Hk; by right).
  assert (Hc : c ≠ Remove k ∧ c ≠ Clear) by (apply Hk; left).
  assert (Hm1 : model_step m c r !! k
                = Some (match c with
                        | Insert k' v' => if decide (k' = k) then v' else v
                        | _ => v
                        end)).
  { destruct c as [k' v'|k'|k'|]; simpl in *.
    - destruct Ha as [->|[-> Hn]].
      + rewrite lookup_insert. by case_decide.
      + case_decide; [congruence|done].
    - rewrite lookup_delete_ne; [done|]. intros ->. by destruct Hc.
    - by destruct r.
    - by destruct Hc. }
  destruct (IH t1 _ _ HI1 Hf Hm1 Hk') as (t' & rs & m' & -> & HI' & Hm').
  simpl. exists t', (r :: rs), m'. split_and!; try done.
  rewrite Hm'. by destruct c.
Qed.

(** Inserting keys that are new and distinct: when every insertion answers
    [true], each adds one to the size. *)
Lemma run_inserts fuel (kvs : list (Z * Z)) :
  ∀ t m, I t m → 2 ≤ fuel → NoDup kvs.*1 →
  (∀ k, k ∈ kvs.*1 → m !! k = None) →
  ∃ t' rs, run B fuel ((λ kv, Insert kv.1 kv.2) <$> kvs) t = Done (t', rs)
    ∧ length rs = length kvs
    ∧ (Forall (λ r, r = Flag true) rs →
       size B t' = size B t + length kvs).
Proof.
  induction kvs as [|[k v] kvs IH]; intros t m HI Hf Hnd Hnew.
  { exists t, []. split_and!; try done; intros _; simpl; lia. }
  rewrite fmap_cons in Hnd. apply NoDup_cons in Hnd as [Hk Hnd].
  rewrite fmap_cons. cbn [run exec fst snd].
  destruct (stores_insert _ _ HS fuel t m k v HI Hf) as (t1 & b & -> & HI1 & Hb).
  cbn [mbind outcome_mbind outcome_bind fst snd].
  destruct b.
  - destruct (IH t1 _ HI1 Hf Hnd) as (t' & rs & -> & Hlen & Hsz).
    { intros k' Hk'. rewrite lookup_insert_ne; [|by intros ->].
      apply Hnew. rewrite fmap_cons. by right. }
    cbn [mbind outcome_mbind outcome_bind fst snd].
    exists t', (Flag true :: rs). split_and!; [done|simpl; lia|].
    intros [_ Hall]%Forall_cons. rewrite (Hsz Hall).
    rewrite (stores_size _ _ HS _ _ HI1), (stores_size _ _ HS _ _ HI).
    rewrite map_size_insert_None; [simpl; lia|]. apply Hnew.
    rewrite fmap_cons. left.
  - destruct (IH t1 _ HI1 Hf Hnd) as (t' & rs & -> & Hlen & Hsz).
    { intros k' Hk'. apply Hnew. rewrite fmap_cons. by right. }
    cbn [mbind outcome_mbind outcome_bind fst snd].
    exists t', (Flag false :: rs). split_and!; [done|simpl; lia|].
    intros [[=] _]%Forall_cons.
Qed.

(** Inserting a key that is bound changes its value and nothing else. *)
Lemma insert_again fuel t m k v :
  I t m → 2 ≤ fuel → is_Some (m !! k) →
  ∃ t', insert B fuel t k v = Done (t', true)
    ∧ size B t' = size B t
    ∧ find B t' k = Done (Some v)
    ∧ ∀ k', k' ≠ k → find B t' k' = find B t k'.
Proof.
  intros HI Hf [w Hw].
  destruct (stores_insert _ _ HS fuel t m k v HI Hf) as (t' & b & Hins & HI' & Hb).
  destruct b; [|specialize (Hb eq_refl); congruence].
  exists t'. split_and!; try done.
  - rewrite (stores_size _ _ HS _ _ HI'), (stores_size _ _ HS _ _ HI).
    by apply map_size_insert_Some.
  - rewrite (stores_find _ _ HS _ _ _ HI'). by rewrite lookup_insert_eq.
  - intros k' Hne.
    rewrite (stores_find _ _ HS _ _ _ HI'), (stores_find _ _ HS _ _ _ HI).
    by rewrite lookup_insert_ne.
Qed.

(** [remove] answers whether the key is bound, takes one off the size when
    it is, and leaves the table alone when it is not. *)
Lemma remove_answer t m k :
  I t m →
  ∃ t' b, remove B t k = Done (t', b)
    ∧ (b = true ↔ is_Some (m !! k))
    ∧ (b = true → size B t = S (size B t'))
    ∧ (b = false → t' = t)
    ∧ find B t' k = Done None
    ∧ ∀ k', k' ≠ k → find B t' k' = find B t k'.
Proof.
  intros HI.
  destruct (stores_remove _ _ HS t m k HI) as (t' & Hrem & HI' & Hid).
  exists t', (bool_decide (is_Some (m !! k))). split_and!; try done.
  - by rewrite bool_decide_eq_true.
  - intros Hb%bool_decide_eq_true.
    rewrite (stores_size _ _ HS _ _ HI'), (stores_size _ _ HS _ _ HI).
    rewrite map_size_delete_Some by done.
    destruct Hb as [w Hw].
    assert (base.size m ≠ 0); [|lia].
    intros ->%map_size_empty_inv. by rewrite lookup_empty in Hw.
  - intros Hb%bool_decide_eq_false. apply Hid.
    destruct (m !! k) eqn:E; [|done]. destruct Hb. eauto.
  - rewrite (stores_find _ _ HS _ _ _ HI'). by rewrite lookup_delete_eq.
  - intros k' Hne.
    rewrite (stores_find _ _ HS _ _ _ HI'), (stores_find _ _ HS _ _ _ HI).
    by rewrite lookup_delete_ne.
Qed.

End WithStores.

End Refinement.

(** ** The two tables implement the interface *)

Module Variants.
Import Base Refinement.

Section WithHasher.
Context (hasher : Z → Z).

Lemma open_addressing_stores :
  Stores (open_addressing hasher) (OpenAddressingInv.Inv hasher).
Proof.
  split.
  - intros fuel t m k v HI Hf.
    destruct (OpenAddressingInv.oa_insert_spec hasher t m k v fuel HI Hf)
      as (t' & b & Hins & _ & Hb).
    exists t', b. split; [exact Hins|]. destruct b; [done|].
    destruct Hb as (? & ? & _). done.
  - intros t m k HI.
    destruct (OpenAddressingInv.oa_remove_spec hasher t m k HI)
      as (t' & Hrem & _ & HI' & Hid).
    by exists t'.
  - intros t m k HI. by apply OpenAddressingInv.oa_find_spec.
  - intros t m HI. apply (OpenAddressingInv.inv_size _ _ _ HI).
  - intros t m HI. apply OpenAddressingInv.oa_Inv_clear.
    apply (OpenAddressingInv.inv_shape _ _ _ HI).
Qed.

Lemma open_addressing_new n :
  0 < n → OpenAddressingInv.Inv hasher (OpenAddressing.new n) ∅.
Proof. intros Hn. by apply OpenAddressingInv.oa_Inv_new. Qed.

(** The invariant of the AVL table, with the bound on its load. *)
Definition avl_inv (t : AVLTable.AVLHashTable) (m : gmap Z Z) : Prop :=
  AVLInv.Inv hasher t m ∧ AVLInv.within_load t.

Lemma avl_buckets_stores : Stores (avl_buckets hasher) avl_inv.
Proof.
  split.
  - intros fuel t m k v [HI Hl] Hf.
    destruct (AVLInv.avl_insert_spec hasher t m k v fuel HI Hl Hf)
      as (t' & Hins & HI' & Hl' & _).
    exists t', true. split; [exact Hins|]. split; [by split|done].
  - intros t m k [HI Hl].
    destruct (AVLInv.avl_remove_spec hasher t m k HI) as (t' & Hrem & HI' & Hsz).
    exists t'. split_and!; [exact Hrem| |].
    + split; [done|]. unfold AVLInv.within_load in *.
      rewrite (AVLInv.inv_size _ _ _ HI'), Hsz.
      pose proof (AVLInv.inv_size _ _ _ HI) as E.
      pose proof (map_size_delete k m) as E'.
      destruct (m !! k); simpl in E'; lia.
    + intros Hk. pose proof (AVLInv.remove_absent hasher t m k HI Hk) as E.
      simpl in Hrem. rewrite Hk in Hrem. congruence.
  - intros t m k [HI _]. by apply AVLInv.avl_find_spec.
  - intros t m [HI _]. apply (AVLInv.inv_size _ _ _ HI).
  - intros t m [HI _]. split; [by eapply AVLInv.avl_Inv_clear|].
    unfold AVLInv.within_load. simpl. lia.
Qed.

Lemma avl_buckets_new n : 0 < n → avl_inv (AVLTable.new n) ∅.
Proof.
  intros Hn. split; [by apply AVLInv.avl_Inv_new|].
  unfold AVLInv.within_load. simpl. lia.
Qed.

Lemma open_addressing_reachable t :
  reachable (open_addressing hasher) OpenAddressing.new t →
  ∃ m, OpenAddressingInv.Inv hasher t m.
Proof.
  apply (reachable_stores _ _ open_addressing_stores).
  apply open_addressing_new.
Qed.

Lemma avl_buckets_reachable t :
  reachable (avl_buckets hasher) AVLTable.new t → ∃ m, avl_inv t m.
Proof.
  apply (reachable_stores _ _ avl_buckets_stores).
  apply avl_buckets_new.
Qed.

(** On a fresh table every insertion of a run of insertions answers
    [true]. *)
Lemma open_addressing_inserts fuel (kvs : list (Z * Z)) :
  ∀ t m, OpenAddressingInv.Inv hasher t m → OpenAddressingInv.no_tombstone t →
  2 ≤ fuel →
  ∃ t', run (open_addressing hasher) fuel
          ((λ kv, Insert kv.1 kv.2) <$> kvs) t
        = Done (t', replicate (length kvs) (Flag true)).
Proof.
  induction kvs as [|[k v] kvs IH]; intros t m HI Hno Hf.
  { by exists t. }
  rewrite fmap_cons. cbn [run exec fst snd insert open_addressing].
  destruct (OpenAddressingInv.oa_insert_true hasher t m k v fuel HI Hno Hf)
    as (t1 & -> & HI1 & Hno1).
  cbn [mbind outcome_mbind outcome_bind fst snd].
  destruct (IH t1 _ HI1 Hno1 Hf) as (t' & Hrun).
  cbn [open_addressing] in Hrun. rewrite Hrun. by exists t'.
Qed.

Lemma avl_buckets_inserts fuel (kvs : list (Z * Z)) :
  ∀ t m, avl_inv t m → 2 ≤ fuel →
  ∃ t', run (avl_buckets hasher) fuel
          ((λ kv, Insert kv.1 kv.2) <$> kvs) t
        = Done (t', replicate (length kvs) (Flag true)).
Proof.
  induction kvs as [|[k v] kvs IH]; intros t m [HI Hl] Hf.
  { by exists t. }
  rewrite fmap_cons. cbn [run exec fst snd insert avl_buckets].
  destruct (AVLInv.avl_insert_spec hasher t m k v fuel HI Hl Hf)
    as (t1 & -> & HI1 & Hl1 & _).
  cbn [mbind outcome_mbind outcome_bind fst snd].
  destruct (IH t1 _ (conj HI1 Hl1) Hf) as (t' & Hrun).
  cbn [avl_buckets] in Hrun. rewrite Hrun. by exists t'.
Qed.

End WithHasher.

End Variants.

(** ** The contract, for any table that stores a map *)

Module Contract.
Import Base Refinement.

Section Generic.
Context {T : Type} (B : HashTableBase T) (I : T → gmap Z Z → Prop).
Context (HS : Stores B I) (new : nat → T).
Context (Hnew : ∀ n, 0 < n → I (new n) ∅).

Lemma insert_then_find n fuel pre post k v :
  0 < n → 2 ≤ fuel → keeps k post →
  ∃ t1 r1, run B fuel pre (new n) = Done (t1, r1)
    ∧ ∃ t2 b, insert B fuel t1 k v = Done (t2, b)
      ∧ (b = true →
         ∃ t3 r3, run B fuel post t2 = Done (t3, r3)
           ∧ find B t3 k = Done (Some (latest k v post))).
Proof.
  intros Hn Hf Hk.
  destruct (run_spec B I HS fuel pre (new n) ∅ (Hnew n Hn) Hf)
    as (t1 & r1 & m1 & Hpre & HI1).
  exists t1, r1. split; [done|].
  destruct (stores_insert _ _ HS fuel t1 m1 k v HI1 Hf)
    as (t2 & b & Hins & HI2 & _).
  exists t2, b. split; [done|]. intros ->.
  destruct (run_keeps B I HS fuel k post t2 _ v HI2 Hf) as (t3 & r3 & m3 & Hpost & HI3 & Hm3);
    [by rewrite lookup_insert_eq|done|].
  exists t3, r3. split; [done|].
  by rewrite (stores_find _ _ HS _ _ _ HI3), Hm3.
Qed.

Lemma distinct_inserts n fuel (kvs : list (Z * Z)) :
  0 < n → 2 ≤ fuel → NoDup kvs.*1 →
  ∃ t rs, run B fuel ((λ kv, Insert kv.1 kv.2) <$> kvs) (new n) = Done (t, rs)
    ∧ length rs = length kvs
    ∧ (Forall (λ r, r = Flag true) rs → size B t = length kvs).
Proof.
  intros Hn Hf Hnd.
  destruct (run_inserts B I HS fuel kvs (new n) ∅ (Hnew n Hn) Hf Hnd)
    as (t & rs & Hrun & Hlen & Hsz).
  { intros k _. apply lookup_empty. }
  exists t, rs. split_and!; try done. intros Hall.
  rewrite (Hsz Hall), (stores_size _ _ HS _ _ (Hnew n Hn)), map_size_empty.
  done.
Qed.

Lemma insert_present fuel t k v w :
  reachable B new t → 2 ≤ fuel → find B t k = Done (Some w) →
  ∃ t', insert B fuel t k v = Done (t', true)
    ∧ size B t' = size B t
    ∧ find B t' k = Done (Some v)
    ∧ ∀ k', k' ≠ k → find B t' k' = find B t k'.
Proof.
  intros [m HI]%(reachable_stores B I HS new t Hnew) Hf Hfind.
  apply (insert_again B I HS fuel t m k v HI Hf).
  rewrite (stores_find _ _ HS _ _ _ HI) in Hfind. exists w. congruence.
Qed.

End Generic.

End Contract.

(** ** The mixing of the third [hash_function] *)

Module HashMixing.
Import Hash.
Local Open Scope Z_scope.

(** [x ^ (x >> 16)] on a 32-bit value undoes itself: the upper half is
    kept, and the lower half is xored with it twice. *)
Lemma shift_xor_involutive x :
  0 ≤ x < 2 ^ 32 →
  Z.lxor (Z.shiftr (Z.lxor (Z.shiftr x 16) x) 16) (Z.lxor (Z.shiftr x 16) x) = x.
Proof.
  intros Hx. apply Z.bits_inj'. intros n Hn.
  rewrite !Z.lxor_spec, !Z.shiftr_spec, !Z.lxor_spec, !Z.shiftr_spec by lia.
  replace (n + 16 + 16) with (n + 32) by lia.
  assert (Z.testbit x (n + 32) = false) as ->.
  { destruct (Z.eq_dec x 0) as [->|Hne]; [apply Z.bits_0|].
    apply Z.bits_above_log2; [lia|].
    assert (Z.log2 x < 32) by (apply Z.log2_lt_pow2; lia). lia. }
  by destruct (Z.testbit x (n + 16)), (Z.testbit x n).
Qed.

Lemma shift_xor_range x : 0 ≤ x < 2 ^ 32 → 0 ≤ Z.lxor (Z.shiftr x 16) x < 2 ^ 32.
Proof.
  intros Hx.
  assert (Hs : 0 ≤ Z.shiftr x 16) by (apply Z.shiftr_nonneg; lia).
  assert (H0 : 0 ≤ Z.lxor (Z.shiftr x 16) x) by (apply Z.lxor_nonneg; lia).
  split; [done|].
  destruct (Z.eq_dec (Z.lxor (Z.shiftr x 16) x) 0) as [->|Hne]; [lia|].
  apply Z.log2_lt_pow2; [lia|].
  eapply Z.le_lt_trans; [apply Z.log2_lxor; lia|].
  assert (Z.log2 x < 32).
  { destruct (Z.eq_dec x 0) as [->|]; [simpl; lia|]. apply Z.log2_lt_pow2; lia. }
  assert (Z.log2 (Z.shiftr x 16) ≤ Z.log2 x).
  { apply Z.log2_le_mono. rewrite Z.shiftr_div_pow2 by lia.
    apply Z.div_le_upper_bound; lia. }
  lia.
Qed.

Lemma shift_xor_inj x y :
  0 ≤ x < 2 ^ 32 → 0 ≤ y < 2 ^ 32 →
  Z.lxor (Z.shiftr x 16) x = Z.lxor (Z.shiftr y 16) y → x = y.
Proof.
  intros Hx Hy H.
  rewrite <- (shift_xor_involutive x Hx), <- (shift_xor_involutive y Hy).
  by rewrite H.
Qed.

(** The multiplier is odd: [0x119de1f3] is its inverse modulo [2^32]. *)
Lemma multiplier_inverse x :
  uint32 (uint32 (x * 0x45d9f3b) * 0x119de1f3) = uint32 x.
Proof.
  unfold uint32. rewrite Z.mul_mod_idemp_l by lia.
  rewrite <- Z.mul_assoc, <- Z.mul_mod_idemp_r by lia.
  change ((0x45d9f3b * 0x119de1f3) mod 2 ^ 32) with 1. by rewrite Z.mul_1_r.
Qed.

Lemma mix_round_inj x y :
  0 ≤ x < 2 ^ 32 → 0 ≤ y < 2 ^ 32 → mix_round x = mix_round y → x = y.
Proof.
  intros Hx Hy H. apply shift_xor_inj; try done.
  pose proof (shift_xor_range x Hx). pose proof (shift_xor_range y Hy).
  unfold mix_round in H.
  apply (f_equal (λ z, uint32 (z * 0x119de1f3))) in H.
  rewrite !multiplier_inverse in H. unfold uint32 in H.
  by rewrite !Z.mod_small in H by lia.
Qed.

Lemma mix_round_range x : 0 ≤ mix_round x < 2 ^ 32.
Proof. apply Z.mod_pos_bound. lia. Qed.

Lemma mix_inj_uint32 k1 k2 : mix k1 = mix k2 ↔ uint32 k1 = uint32 k2.
Proof.
  split; [|unfold mix; by intros ->].
  unfold mix. intros H.
  assert (H1 : 0 ≤ uint32 k1 < 2 ^ 32) by (apply Z.mod_pos_bound; lia).
  assert (H2 : 0 ≤ uint32 k2 < 2 ^ 32) by (apply Z.mod_pos_bound; lia).
  apply shift_xor_inj in H; try apply mix_round_range.
  apply mix_round_inj in H; try apply mix_round_range.
  by apply mix_round_inj in H.
Qed.

End HashMixing.

(** ** Invariants along a sequence of calls *)

Module Reach.
Import Base.

Lemma run_Done_cons {T} (B : HashTableBase T) fuel c cs t t' rs :
  run B fuel (c :: cs) t = Done (t', rs) ↔
  ∃ t1 r rs', exec B fuel t c = Done (t1, r)
    ∧ run B fuel cs t1 = Done (t', rs') ∧ rs = r :: rs'.
Proof.
  cbn [run]. rewrite bind_Done. split.
  - intros ([t1 r] & Hex & [[t2 rs'] [Hrun [= <- <-]]]%bind_Done).
    by exists t1, r, rs'.
  - intros (t1 & r & rs' & Hex & Hrun & ->). exists (t1, r). split; [done|].
    cbn [fst snd]. by rewrite Hrun.
Qed.

(** A property of tables that every call keeps holds after every sequence
    of calls. *)
Lemma run_invariant {T} (B : HashTableBase T) (P : T → Prop) fuel :
  (∀ t c t' r, P t → exec B fuel t c = Done (t', r) → P t') →
  ∀ cs t t' rs, P t → run B fuel cs t = Done (t', rs) → P t'.
Proof.
  intros Hstep. induction cs as [|c cs IH]; intros t t' rs HP Hrun.
  - by injection Hrun as <- _.
  - apply run_Done_cons in Hrun as (t1 & r & rs' & Hex & Hrun & _).
    eapply IH; [|exact Hrun]. by eapply Hstep.
Qed.

Lemma reachable_invariant {T} (B : HashTableBase T) (new : nat → T)
    (P : T → Prop) :
  (∀ n, 0 < n → P (new n)) →
  (∀ fuel t c t' r, 2 ≤ fuel → P t → exec B fuel t c = Done (t', r) → P t') →
  ∀ t, reachable B new t → P t.
Proof.
  intros Hnew Hstep t (n & fuel & cs & rs & Hn & Hf & Hrun).
  eapply (run_invariant B P fuel); [|by apply Hnew|exact Hrun].
  intros. by eapply Hstep.
Qed.

End Reach.

(** ** One call on the open-addressing table *)

Module OpenAddressingSteps.
Import Base Refinement OpenAddressing OpenAddressingProbe OpenAddressingInv.

Definition deleted_count (t : HashTable) : nat :=
  length (filter (λ e, state e = DELETED) (table t)).

Definition empty_count (t : HashTable) : nat :=
  length (filter (λ e, state e = EMPTY) (table t)).

Lemma count_states t :
  length (table t) = occupied_count t + deleted_count t + empty_count t.
Proof.
  unfold occupied_count, deleted_count, empty_count.
  induction (table t) as [|e l IH]; [done|].
  rewrite !filter_cons. simpl.
  destruct e as [k v []]; simpl; repeat case_decide; simpl; try done; lia.
Qed.

Lemma no_empty_count t :
  (∀ i e, table t !! i = Some e → state e ≠ EMPTY) → empty_count t = 0.
Proof.
  intros H. unfold empty_count.
  rewrite (filter_none (λ e, state e = EMPTY)); [done|].
  apply Forall_forall. intros e [i Hi]%list_elem_of_lookup. by eapply H.
Qed.

Lemma clear_all_empty t i e :
  table (clear t) !! i = Some e → state e = EMPTY.
Proof.
  unfold clear. simpl. rewrite list_lookup_fmap.
  destruct (table t !! i); simpl; [|done]. by intros [= <-].
Qed.

Lemma clear_no_tombstone t : no_tombstone (clear t).
Proof. intros i e He. by rewrite (clear_all_empty _ _ _ He). Qed.

Lemma Inv_current_le hasher t m : Inv hasher t m → current_size t ≤ table_size t.
Proof.
  intros HI. destruct (inv_shape _ _ _ HI) as [Hlen _].
  rewrite (inv_count _ _ _ HI), <- Hlen. apply length_filter.
Qed.

Section WithHasher.
Context (hasher : Z → Z).

(** What one call does to a table that stores [m]. *)
Lemma oa_exec_facts fuel t m c t' r :
  Inv hasher t m → 2 ≤ fuel →
  exec (open_addressing hasher) fuel t c = Done (t', r) →
  Inv hasher t' (model_step m c r) ∧ answers m c r
  ∧ table_size t'
    = match c with
      | Insert _ _ => if over_load t then table_size t * 2 else table_size t
      | _ => table_size t
      end
  ∧ (no_tombstone t → (∀ k, c ≠ Remove k) →
     no_tombstone t' ∧ ∀ k v, c = Insert k v → r = Flag true).
Proof.
  intros HI Hf Hex. destruct c as [k v|k|k|]; cbn [exec open_addressing
    Base.insert Base.remove Base.find Base.clear] in Hex.
  - destruct (oa_insert_spec hasher t m k v fuel HI Hf) as (t1 & b & Hins & Hsz & Hb).
    rewrite Hins in Hex. injection Hex as <- <-. split_and!.
    + destruct b; [done|]. by destruct Hb.
    + destruct b; [by left|]. right. by destruct Hb as (_ & ? & _).
    + done.
    + intros Hno _.
      destruct (oa_insert_true hasher t m k v fuel HI Hno Hf) as (t2 & Hins2 & _ & Hno2).
      assert (t2 = t1 ∧ b = true) as [-> ->] by (split; congruence).
      split; [done|]. by intros.
  - destruct (oa_remove_spec hasher t m k HI) as (t1 & Hrem & Hsz & HI1 & _).
    rewrite Hrem in Hex. injection Hex as <- <-. split_and!; try done.
    intros _ Hc. by destruct (Hc k).
  - rewrite (oa_find_spec hasher t m k HI) in Hex. injection Hex as <- <-.
    by split_and!.
  - injection Hex as <- <-. split_and!; try done.
    + apply oa_Inv_clear, (inv_shape _ _ _ HI).
    + intros _ _. split; [apply clear_no_tombstone|]. by intros.
Qed.

(** The load stays within one entry of the threshold. *)
Lemma oa_load_step fuel t m c t' r :
  Inv hasher t m → 2 ≤ fuel → 2 * current_size t ≤ table_size t + 2 →
  exec (open_addressing hasher) fuel t c = Done (t', r) →
  2 * current_size t' ≤ table_size t' + 2.
Proof.
  intros HI Hf Hl Hex.
  destruct (oa_exec_facts fuel t m c t' r HI Hf Hex) as (HI' & Ha & Hsz & _).
  pose proof (Inv_current_le _ _ _ HI) as Hle.
  pose proof (inv_size _ _ _ HI) as E. pose proof (inv_size _ _ _ HI') as E'.
  rewrite E', Hsz. destruct c as [k v|k|k|]; simpl in *.
  - pose proof (map_size_insert k v m) as Hi.
    unfold over_load. destruct (Nat.ltb_spec (table_size t) (2 * current_size t));
      destruct Ha as [->|[-> _]]; destruct (m !! k); simpl in Hi; lia.
  - pose proof (map_size_delete k m) as Hd. destruct (m !! k); simpl in Hd; lia.
  - destruct r; lia.
  - rewrite map_size_empty. lia.
Qed.

End WithHasher.

End OpenAddressingSteps.

(** ** Two tables on the same calls *)

Module Agreement.
Import Base Refinement.

Definition is_insert (c : call) : bool :=
  match c with Insert _ _ => true | _ => false end.

(** Every [insert] of the calls [cs] got the reply [true] in [rs]. *)
Fixpoint inserts_succeed (cs : list call) (rs : list reply) : Prop :=
  match cs, rs with
  | c :: cs, r :: rs =>
      (is_insert c = true → r = Flag true) ∧ inserts_succeed cs rs
  | _, _ => True
  end.

Section TwoStores.
Context {T1 T2 : Type} (B1 : HashTableBase T1) (B2 : HashTableBase T2).
Context (I1 : T1 → gmap Z Z → Prop) (I2 : T2 → gmap Z Z → Prop).
Context (HS1 : Stores B1 I1) (HS2 : Stores B2 I2).

(** Two tables that store the same map give the same replies, as long as
    the insertions succeed on both. *)
Lemma run_agree fuel cs :
  ∀ t1 t2 m t1' t2' rs1 rs2, I1 t1 m → I2 t2 m → 2 ≤ fuel →
    run B1 fuel cs t1 = Done (t1', rs1) → run B2 fuel cs t2 = Done (t2', rs2) →
    inserts_succeed cs rs1 → inserts_succeed cs rs2 →
    rs1 = rs2 ∧ ∃ m', I1 t1' m' ∧ I2 t2' m'.
Proof.
  induction cs as [|c cs IH]; intros t1 t2 m t1' t2' rs1 rs2 H1 H2 Hf R1 R2 S1 S2.
  { injection R1 as <- <-. injection R2 as <- <-. split; [done|]. by exists m. }
  apply Reach.run_Done_cons in R1 as (u1 & r1 & rs1' & E1 & R1 & ->).
  apply Reach.run_Done_cons in R2 as (u2 & r2 & rs2' & E2 & R2 & ->).
  destruct S1 as [Hi1 S1], S2 as [Hi2 S2].
  destruct (exec_spec B1 I1 HS1 fuel t1 m c H1 Hf) as (u1' & r1' & E1' & H1' & A1).
  destruct (exec_spec B2 I2 HS2 fuel t2 m c H2 Hf) as (u2' & r2' & E2' & H2' & A2).
  assert (u1' = u1 ∧ r1' = r1) as [-> ->] by (split; congruence).
  assert (u2' = u2 ∧ r2' = r2) as [-> ->] by (split; congruence).
  assert (r1 = r2) as ->.
  { destruct c; simpl in *; [|congruence..].
    rewrite Hi1, Hi2; done. }
  destruct (IH u1 u2 _ t1' t2' rs1' rs2' H1' H2' Hf R1 R2 S1 S2) as [-> Hm].
  done.
Qed.

End TwoStores.

End Agreement.

Module OpenAddressingRuns.
Import Base Refinement OpenAddressing OpenAddressingProbe OpenAddressingInv.
Import OpenAddressingSteps Agreement.

Section WithHasher.
Context (hasher : Z → Z).

Lemma oa_reachable_load t :
  reachable (open_addressing hasher) new t →
  ∃ m, Inv hasher t m ∧ 2 * current_size t ≤ table_size t + 2.
Proof.
  apply (Reach.reachable_invariant (open_addressing hasher) new
           (λ t, ∃ m, Inv hasher t m ∧ 2 * current_size t ≤ table_size t + 2)).
  - intros n Hn. exists ∅. split; [exact (proj1 (oa_Inv_new hasher n Hn))|].
    simpl. lia.
  - intros fuel t0 c t' r Hf (m & HI & Hl) Hex.
    destruct (oa_exec_facts hasher fuel t0 m c t' r HI Hf Hex) as (HI' & _).
    exists (model_step m c r). split; [done|].
    exact (oa_load_step hasher fuel t0 m c t' r HI Hf Hl Hex).
Qed.

(** The capacity after a sequence of calls: doubled once for some of the
    insertions, never reduced. *)
Lemma oa_run_capacity fuel cs :
  ∀ t m t' rs, Inv hasher t m → 2 ≤ fuel →
    run (open_addressing hasher) fuel cs t = Done (t', rs) →
    ∃ j, j ≤ length (filter is_insert cs)
      ∧ table_size t' = table_size t * 2 ^ j.
Proof.
  induction cs as [|c cs IH]; intros t m t' rs HI Hf Hrun.
  { injection Hrun as <- _. exists 0. simpl. lia. }
  apply Reach.run_Done_cons in Hrun as (t1 & r & rs' & Hex & Hrun & _).
  destruct (oa_exec_facts hasher fuel t m c t1 r HI Hf Hex) as (HI1 & _ & Hsz & _).
  destruct (IH t1 _ t' rs' HI1 Hf Hrun) as (j & Hj & Hsz').
  rewrite filter_cons. destruct c as [k v|k|k|]; simpl in *.
  - destruct (over_load t).
    + exists (S j). split; [lia|]. rewrite Hsz', Hsz, Nat.pow_succ_r'. lia.
    + exists j. split; [lia|]. by rewrite Hsz', Hsz.
  - exists j. split; [lia|]. by rewrite Hsz', Hsz.
  - exists j. split; [lia|]. by rewrite Hsz', Hsz.
  - exists j. split; [lia|]. by rewrite Hsz', Hsz.
Qed.

(** Without a [remove] there is no tombstone, and every insertion finds
    room. *)
Lemma oa_run_no_remove fuel cs :
  ∀ t m, Inv hasher t m → no_tombstone t → 2 ≤ fuel →
    (∀ k, Remove k ∉ cs) →
    ∃ t' rs, run (open_addressing hasher) fuel cs t = Done (t', rs)
      ∧ inserts_succeed cs rs ∧ no_tombstone t'.
Proof.
  induction cs as [|c cs IH]; intros t m HI Hno Hf Hcs.
  { by exists t, []. }
  destruct (exec_spec _ _ (Variants.open_addressing_stores hasher) fuel t m c HI Hf)
    as (t1 & r & Hex & _ & _).
  destruct (oa_exec_facts hasher fuel t m c t1 r HI Hf Hex) as (HI1 & _ & _ & Hkeep).
  destruct Hkeep as [Hno1 Hr]; [done|intros k ->; apply (Hcs k); left|].
  destruct (IH t1 _ HI1 Hno1 Hf) as (t' & rs & Hrun & Hok & Hno').
  { intros k Hk. apply (Hcs k). by right. }
  exists t', (r :: rs). split_and!; [|split; [|done]|done].
  - apply Reach.run_Done_cons. by exists t1, r, rs.
  - destruct c; try done. intros _. by eapply Hr.
Qed.

(** Over the load factor [insert] grows the table first, and then finds
    room. *)
Lemma oa_insert_over_load t m k v fuel :
  Inv hasher t m → 2 ≤ fuel → over_load t = true →
  ∃ t', insert hasher fuel t k v = Done (t', true).
Proof.
  intros HI Hf Hov. destruct fuel as [|[|fuel]]; try lia.
  pose proof (Inv_current_le _ _ _ HI) as Hle.
  destruct (inv_shape _ _ _ HI) as [Hlen Hpos].
  rewrite oa_insert_unfold, Hov.
  destruct (oa_resize_spec hasher t m fuel HI) as (t1 & -> & HI1 & Hno1 & Hsz1).
  simpl. destruct (oa_place_spec hasher t1 m k v HI1) as (t' & b & Hpl & _ & _ & Hb).
  destruct b; [by exists t'|].
  destruct Hb as (_ & _ & Hfull).
  destruct (empty_slot hasher t1 m HI1 Hno1) as (i & e & Hi & He).
  { rewrite (inv_size _ _ _ HI1), <- (inv_size _ _ _ HI). lia. }
  by destruct (Hfull _ _ Hi).
Qed.

(** When [insert] answers [false]. *)
Lemma oa_insert_false_iff t m k v fuel :
  Inv hasher t m → 2 ≤ fuel →
  (insert hasher fuel t k v = Done (t, false)
   ↔ over_load t = false
     ∧ (∀ j e, table t !! j = Some e → state e ≠ EMPTY ∧ holds e k = false)
     ∧ ∃ h e, hash_function hasher k (table_size t) = Done h
              ∧ table t !! h = Some e ∧ state e = OCCUPIED)
  ∧ ∀ t', insert hasher fuel t k v = Done (t', false) → t' = t.
Proof.
  intros HI Hf.
  assert (Hfalse : ∀ t', insert hasher fuel t k v = Done (t', false) →
            over_load t = false ∧ place hasher t k v = Done (t', false) ∧ t' = t).
  { intros t' Hins. destruct (over_load t) eqn:Hov.
    - destruct (oa_insert_over_load t m k v fuel HI Hf Hov) as (t2 & Hins2).
      congruence.
    - destruct fuel as [|fuel]; [lia|].
      rewrite insert_not_over_load in Hins by done. split; [done|].
      destruct (oa_place_spec hasher t m k v HI) as (t2 & b & Hpl & _ & _ & Hb).
      assert (t2 = t' ∧ b = false) as [-> ->] by (split; congruence).
      destruct Hb as [-> _]. done. }
  split; [|intros t' Hins; by destruct (Hfalse t' Hins) as (_ & _ & ->)].
  split.
  - intros Hins. destruct (Hfalse t Hins) as (Hov & Hpl & _).
    split; [done|].
    apply (oa_place_false_iff hasher t k v (inv_shape _ _ _ HI)). by exists t.
  - intros (Hov & Hcond).
    apply (oa_place_false_iff hasher t k v (inv_shape _ _ _ HI)) in Hcond as [t' Hpl].
    destruct fuel as [|fuel]; [lia|].
    rewrite insert_not_over_load by done.
    destruct (oa_place_spec hasher t m k v HI) as (t2 & b & Hpl2 & _ & _ & Hb).
    assert (t2 = t' ∧ b = false) as [-> ->] by (split; congruence).
    destruct Hb as [-> _]. done.
Qed.

(** A failed insertion means that half of the slots are tombstones. *)
Lemma oa_insert_false_tombstones t m k v fuel t' :
  Inv hasher t m → 2 ≤ fuel → insert hasher fuel t k v = Done (t', false) →
  table_size t ≤ 2 * deleted_count t.
Proof.
  intros HI Hf Hins.
  destruct (oa_insert_false_iff t m k v fuel HI Hf) as [Hiff Hsame].
  rewrite (Hsame _ Hins) in Hins. apply Hiff in Hins as (Hov & Hall & _).
  unfold over_load in Hov. apply Nat.ltb_ge in Hov.
  pose proof (count_states t) as Hc.
  rewrite no_empty_count in Hc by (intros i e He; by destruct (Hall i e He)).
  destruct (inv_shape _ _ _ HI) as [Hlen _].
  pose proof (inv_count _ _ _ HI). lia.
Qed.

(** The only tombstone that [insert] writes over, when it does not grow
    the table, is the one in the slot the probe starts from, and only when
    no slot is [EMPTY]. *)
Lemma oa_tombstone_reuse t k v fuel t' b i e :
  well_shaped t → over_load t = false →
  insert hasher (S fuel) t k v = Done (t', b) →
  table t !! i = Some e → state e = DELETED → table t' !! i ≠ Some e →
  hash_function hasher k (table_size t) = Done i
  ∧ (∀ j e', table t !! j = Some e' → state e' ≠ EMPTY)
  ∧ table t' !! i = Some (Entry_of k v).
Proof.
  intros Hs Hov Hins He Hd Hne.
  rewrite insert_not_over_load in Hins by done.
  destruct (probe_entry hasher t k Hs) as (h & i0 & e0 & Hh & Hhlt & Hp & He0 & Hres).
  unfold place in Hins. rewrite Hp in Hins. simpl in Hins.
  unfold at_index in Hins. rewrite He0 in Hins. simpl in Hins.
  assert (Hi0 : i0 < length (table t)) by (by eapply lookup_lt_Some).
  destruct (holds e0 k) eqn:Hho.
  - injection Hins as <- <-. simpl in Hne.
    apply holds_true in Hho as [Hst _].
    destruct (decide (i0 = i)) as [->|Hki]; [congruence|].
    by rewrite list_lookup_insert_ne in Hne.
  - case_bool_decide as Hst.
    + injection Hins as <- <-. simpl in Hne. simpl.
      destruct (decide (i0 = i)) as [->|Hki].
      2:{ by rewrite list_lookup_insert_ne in Hne. }
      assert (e0 = e) as -> by congruence.
      rewrite list_lookup_insert_eq by done.
      destruct Hres as [d Hd' Hid (e1 & He1 & Hstop) _| -> Hall].
      * assert (e1 = e) as -> by congruence.
        apply keeps_probing_false in Hstop as [?|?]; congruence.
      * split_and!; try done. intros j e' Hj.
        destruct Hs as [Hlen Hpos].
        destruct (ProbeCycle.slot_after_cover (table_size t) h j) as (d & Hd' & <-);
          [done|rewrite <- Hlen; by eapply lookup_lt_Some|].
        destruct (Hall d Hd') as (e'' & He'' & [Hk _]%keeps_probing_true).
        by assert (e'' = e') as -> by congruence.
    + injection Hins as <- <-. done.
Qed.

End WithHasher.

End OpenAddressingRuns.

(** ** Counting the nodes of the buckets *)

Module AVLCount.
Import AVLTable AVLBalance AVLOrder.

Fixpoint node_count (n : AVLNode) : nat :=
  match n with
  | null => 0
  | node _ _ _ l r => node_count l + 1 + node_count r
  end.

Lemma node_count_elements n : node_count n = length (elements n).
Proof.
  induction n as [|k v h l IHl r IHr]; [done|].
  simpl. rewrite length_app. simpl. lia.
Qed.

Lemma bst_NoDup n : bst n → NoDup (keys n).
Proof.
  unfold bst. induction 1 as [|x l Hs IH Hx]; [constructor|].
  constructor; [|done]. intros Hin.
  rewrite Forall_forall in Hx. specialize (Hx _ Hin). simpl in Hx. lia.
Qed.

(** A balanced tree of height [h] has at least [2^⌈h/2⌉ - 1] nodes. *)
Lemma avl_count_pow n :
  avl n → (2 ^ ((get_height n + 1) / 2) ≤ Z.of_nat (node_count n) + 1)%Z.
Proof.
  induction n as [|k v h l IHl r IHr]; [by vm_compute|].
  intros (Hl & Hr & Hh & Hb). specialize (IHl Hl). specialize (IHr Hr).
  pose proof (avl_height_nonneg _ Hl) as Hl0.
  pose proof (avl_height_nonneg _ Hr) as Hr0.
  cbn [get_height node_count].
  set (e := ((h + 1) / 2)%Z).
  assert (He : (e - 1 = (h - 1) / 2)%Z).
  { unfold e. replace (h + 1)%Z with (h - 1 + 1 * 2)%Z by lia.
    rewrite Z.div_add by lia. lia. }
  assert (He1 : (1 ≤ e)%Z).
  { unfold e. apply Z.div_le_lower_bound; lia. }
  assert (Hel : (e - 1 ≤ (get_height l + 1) / 2)%Z).
  { rewrite He. apply Z.div_le_mono; lia. }
  assert (Her : (e - 1 ≤ (get_height r + 1) / 2)%Z).
  { rewrite He. apply Z.div_le_mono; lia. }
  assert (Hpl : (2 ^ (e - 1) ≤ 2 ^ ((get_height l + 1) / 2))%Z)
    by (apply Z.pow_le_mono_r; lia).
  assert (Hpr : (2 ^ (e - 1) ≤ 2 ^ ((get_height r + 1) / 2))%Z)
    by (apply Z.pow_le_mono_r; lia).
  replace e with (Z.succ (e - 1)) by lia.
  rewrite Z.pow_succ_r by lia. lia.
Qed.

(** The height is logarithmic in the number of nodes. *)
Lemma avl_height_log n :
  avl n → (real_height n ≤ 2 * Z.log2 (Z.of_nat (node_count n) + 1))%Z.
Proof.
  intros Ha. rewrite <- (avl_real_height n Ha).
  pose proof (avl_count_pow n Ha) as Hp.
  pose proof (avl_height_nonneg n Ha) as H0.
  apply Z.log2_le_pow2 in Hp; [|lia].
  pose proof (Z.div_mod (get_height n + 1) 2 ltac:(lia)) as Hd.
  pose proof (Z.mod_pos_bound (get_height n + 1) 2 ltac:(lia)). lia.
Qed.

End AVLCount.

(** ** One call on the table with AVL buckets *)

Module AVLSteps.
Import Base Refinement AVLTable AVLBalance AVLOrder AVLInv AVLCount Agreement.

Section WithHasher.
Context (hasher : Z → Z).

Lemma avl_exec_facts fuel t m c t' r :
  Variants.avl_inv hasher t m → 2 ≤ fuel →
  exec (avl_buckets hasher) fuel t c = Done (t', r) →
  Variants.avl_inv hasher t' (model_step m c r) ∧ answers m c r
  ∧ table_size t'
    = match c with
      | Insert _ _ => if over_load t then table_size t * 2 else table_size t
      | _ => table_size t
      end
  ∧ (is_insert c = true → r = Flag true).
Proof.
  intros HI Hf Hex.
  destruct (exec_spec _ _ (Variants.avl_buckets_stores hasher) fuel t m c HI Hf)
    as (t1 & r1 & Hex1 & HI1 & Ha).
  assert (t1 = t' ∧ r1 = r) as [-> ->] by (split; congruence).
  split; [done|]. split; [done|]. destruct HI as [HI Hl].
  destruct c as [k v|k|k|]; cbn [exec avl_buckets Base.insert Base.remove
    Base.find Base.clear] in Hex.
  - destruct (avl_insert_spec hasher t m k v fuel HI Hl Hf) as (t2 & Hins & _ & _ & Hsz).
    rewrite Hins in Hex. injection Hex as <- <-. done.
  - destruct (avl_remove_spec hasher t m k HI) as (t2 & Hrem & _ & Hsz).
    rewrite Hrem in Hex. injection Hex as <- <-. done.
  - rewrite (avl_find_spec hasher t m k HI) in Hex. by injection Hex as <- <-.
  - by injection Hex as <- <-.
Qed.

Lemma avl_run_capacity fuel cs :
  ∀ t m t' rs, Variants.avl_inv hasher t m → 2 ≤ fuel →
    run (avl_buckets hasher) fuel cs t = Done (t', rs) →
    ∃ j, j ≤ length (filter is_insert cs)
      ∧ table_size t' = table_size t * 2 ^ j.
Proof.
  induction cs as [|c cs IH]; intros t m t' rs HI Hf Hrun.
  { injection Hrun as <- _. exists 0. simpl. lia. }
  apply Reach.run_Done_cons in Hrun as (t1 & r & rs' & Hex & Hrun & _).
  destruct (avl_exec_facts fuel t m c t1 r HI Hf Hex) as (HI1 & _ & Hsz & _).
  destruct (IH t1 _ t' rs' HI1 Hf Hrun) as (j & Hj & Hsz').
  rewrite filter_cons. destruct c as [k v|k|k|]; simpl in *.
  - destruct (over_load t).
    + exists (S j). split; [lia|]. rewrite Hsz', Hsz, Nat.pow_succ_r'. lia.
    + exists j. split; [lia|]. by rewrite Hsz', Hsz.
  - exists j. split; [lia|]. by rewrite Hsz', Hsz.
  - exists j. split; [lia|]. by rewrite Hsz', Hsz.
  - exists j. split; [lia|]. by rewrite Hsz', Hsz.
Qed.

(** Every insertion of a sequence of calls answers [true]. *)
Lemma avl_run_inserts_succeed fuel cs :
  ∀ t m t' rs, Variants.avl_inv hasher t m → 2 ≤ fuel →
    run (avl_buckets hasher) fuel cs t = Done (t', rs) →
    inserts_succeed cs rs.
Proof.
  induction cs as [|c cs IH]; intros t m t' rs HI Hf Hrun; [done|].
  apply Reach.run_Done_cons in Hrun as (t1 & r & rs' & Hex & Hrun & ->).
  destruct (avl_exec_facts fuel t m c t1 r HI Hf Hex) as (HI1 & _ & _ & Hr).
  split; [done|]. by eapply IH.
Qed.

(** *** The pairs of all the buckets *)

Definition all_elements (t : AVLHashTable) : list (Z * Z) :=
  mjoin (elements <$> table t).

Lemma elem_of_buckets (ns : list AVLNode) k v :
  (k, v) ∈ mjoin (elements <$> ns)
  ↔ ∃ i n, ns !! i = Some n ∧ (k, v) ∈ elements n.
Proof.
  rewrite list_elem_of_join. split.
  - intros (l & Hkv & (n & -> & [i Hi]%list_elem_of_lookup)%list_elem_of_fmap).
    by exists i, n.
  - intros (i & n & Hi & Hkv). exists (elements n). split; [done|].
    apply list_elem_of_fmap. exists n. split; [done|].
    apply list_elem_of_lookup. by exists i.
Qed.

Lemma buckets_NoDup (home : Z → nat) (ns : list AVLNode) :
  ∀ o,
    (∀ i n, ns !! i = Some n → bst n) →
    (∀ i n k, ns !! i = Some n → k ∈ keys n → home k = o + i) →
    NoDup (mjoin (elements <$> ns)).*1.
Proof.
  induction ns as [|n ns IH]; intros o Hb Hh; [constructor|].
  rewrite fmap_cons. cbn [mjoin list_join]. rewrite fmap_app.
  apply NoDup_app. split_and!.
  - apply bst_NoDup, (Hb 0). done.
  - intros k Hk [[k' v] [Hkk Hin]]%list_elem_of_fmap. simpl in Hkk. subst k'.
    apply elem_of_buckets in Hin as (j & n' & Hj & Hkv).
    pose proof (Hh 0 n k eq_refl Hk) as H1.
    assert (home k = o + S j) as H2.
    { apply (Hh (S j) n'); [done|]. apply elem_of_keys. eauto. }
    lia.
  - apply (IH (S o)).
    + intros i n' Hi. by apply (Hb (S i)).
    + intros i n' k Hi Hk. rewrite (Hh (S i) n' k Hi Hk). lia.
Qed.

(** [current_size] counts the nodes of all the trees. *)
Lemma avl_size_nodes t m :
  Inv hasher t m →
  current_size t = sum_list (node_count <$> table t)
  ∧ m = list_to_map (all_elements t).
Proof.
  intros HI.
  assert (Hnd : NoDup (all_elements t).*1).
  { apply (buckets_NoDup
             (λ k, match hash_function hasher k (table_size t) with
                   | Done i => i
                   | _ => 0
                   end) _ 0).
    - intros i n Hi. apply (inv_trees _ _ _ HI _ _ Hi).
    - intros i n k Hi Hk. by rewrite (inv_home _ _ _ HI _ _ _ Hi Hk). }
  assert (Hm : m = list_to_map (all_elements t)).
  { apply map_eq. intros k. destruct (m !! k) as [v|] eqn:E.
    - symmetry. apply elem_of_list_to_map; [done|].
      apply elem_of_buckets, (inv_content _ _ _ HI). done.
    - symmetry. apply not_elem_of_list_to_map_1.
      intros [[k' v] [Hkk Hin]]%list_elem_of_fmap. simpl in Hkk. subst k'.
      apply elem_of_buckets, (inv_content _ _ _ HI) in Hin. congruence. }
  split; [|done].
  rewrite (inv_size _ _ _ HI), Hm at 1.
  rewrite map_size_list_to_map by done.
  unfold all_elements. rewrite length_join, <- list_fmap_compose.
  f_equal. apply list_fmap_ext. intros i n _. simpl.
  by rewrite node_count_elements.
Qed.

Lemma bucket_count_le t m i n :
  Inv hasher t m → table t !! i = Some n → node_count n ≤ current_size t.
Proof.
  intros HI Hi. rewrite (proj1 (avl_size_nodes t m HI)).
  apply (sum_list_with_in _ id). apply list_elem_of_fmap.
  exists n. split; [done|]. apply list_elem_of_lookup. by exists i.
Qed.

End WithHasher.

End AVLSteps.

(** ** The trees as functions, and the composition of two calls *)

Module TreeContract.
Import AVLTable AVLBalance AVLOrder AVLCount.

Lemma keys_length n : length (keys n) = node_count n.
Proof. unfold keys. by rewrite length_fmap, node_count_elements. Qed.

(** Two search trees with the same keys have as many nodes. *)
Lemma same_keys_count n n' :
  bst n → bst n' → (∀ x, x ∈ keys n' ↔ x ∈ keys n) →
  node_count n' = node_count n.
Proof.
  intros Hb Hb' Hk. rewrite <- !keys_length.
  apply Permutation_length, NoDup_Permutation; auto using bst_NoDup.
Qed.

Lemma more_keys_count n n' k :
  bst n → bst n' → k ∉ keys n → (∀ x, x ∈ keys n' ↔ x = k ∨ x ∈ keys n) →
  node_count n' = node_count n + 1.
Proof.
  intros Hb Hb' Hk Hks. rewrite <- !keys_length.
  rewrite (Permutation_length (l' := k :: keys n)); [simpl; lia|].
  apply NoDup_Permutation; [by apply bst_NoDup| |].
  - constructor; [done|by apply bst_NoDup].
  - intros x. rewrite elem_of_cons. apply Hks.
Qed.

End TreeContract.

Module Composition.
Import Base Refinement.

Section WithStores.
Context {T : Type} (B : HashTableBase T) (I : T → gmap Z Z → Prop).
Context (HS : Stores B I).

(** Inserting a new key and removing it again leaves the map as it was. *)
Lemma insert_remove fuel t m k v :
  I t m → 2 ≤ fuel → m !! k = None →
  ∃ t1 b t2, insert B fuel t k v = Done (t1, b)
    ∧ remove B t1 k = Done (t2, b) ∧ I t2 m.
Proof.
  intros HI Hf Hk.
  destruct (stores_insert _ _ HS fuel t m k v HI Hf) as (t1 & b & Hins & HI1 & _).
  destruct (stores_remove _ _ HS t1 _ k HI1) as (t2 & Hrem & HI2 & _).
  exists t1, b, t2. destruct b.
  - rewrite lookup_insert_eq in Hrem. rewrite delete_insert_eq in HI2.
    rewrite delete_id in HI2 by done. done.
  - rewrite Hk in Hrem. rewrite delete_id in HI2 by done. done.
Qed.

End WithStores.

End Composition.

Module TreeLookup.
Import AVLTable AVLBalance AVLOrder.

(** Two search trees that hold the same pairs for a key answer [find_avl]
    alike for it. *)
Lemma find_avl_same n n' k :
  bst n → bst n' →
  (∀ v, (k, v) ∈ elements n' ↔ (k, v) ∈ elements n) →
  find_avl n' k = find_avl n k.
Proof.
  intros Hb Hb' Hel. destruct (find_avl n k) as [w|] eqn:E.
  - apply (find_avl_elements _ _ _ Hb'), Hel, (find_avl_elements _ _ _ Hb), E.
  - destruct (find_avl n' k) as [w|] eqn:E'; [|done].
    apply (find_avl_elements _ _ _ Hb'), Hel, (find_avl_elements _ _ _ Hb) in E'.
    congruence.
Qed.

End TreeLookup.

(** ** Facts on what is written *)

Module DisplayFacts.
Import Console.

Definition indent (depth : nat) : line := replicate depth (Text "  ").

Lemma indent_pair_inj d1 d2 k1 v1 k2 v2 :
  indent d1 ++ pair_items k1 v1 = indent d2 ++ pair_items k2 v2 →
  d1 = d2 ∧ k1 = k2 ∧ v1 = v2.
Proof.
  revert d2. induction d1 as [|d1 IH]; intros [|d2]; simpl; try done.
  - by intros [= -> ->].
  - intros [= H]. by destruct (IH _ H) as (-> & -> & ->).
Qed.

Section OpenAddressingRows.
Import OpenAddressing OpenAddressingProbe OpenAddressingInv OpenAddressingDisplay.

Lemma oa_display_rows_from t :
  ∀ count i, i + count = length (table t) →
    display_rows t i count
    = Done (imap (λ j e, row (i + j) e) (drop i (table t))).
Proof.
  induction count as [|count IH]; intros i Hi.
  - rewrite drop_ge by lia. done.
  - destruct (lookup_lt_is_Some_2 (table t) i) as [e He]; [lia|].
    cbn [display_rows]. unfold at_index. rewrite He. simpl.
    rewrite IH by lia. simpl. rewrite (drop_S _ _ _ He), imap_cons.
    rewrite Nat.add_0_r. do 2 f_equal. apply imap_ext.
    intros j e' _. simpl. f_equal. lia.
Qed.

Lemma oa_display_spec t :
  well_shaped t →
  display t
  = Done ([Text "=== Open Addressing Hash Table ==="]
          :: imap row (table t)
          ++ [[Text "Size: "; Size (current_size t); Text "/";
               Size (table_size t)]]).
Proof.
  intros [Hlen Hpos]. unfold display.
  rewrite (oa_display_rows_from t (table_size t) 0) by lia. done.
Qed.

Lemma oa_row_pair t i k v :
  row i (mkEntry k v OCCUPIED) ∈ imap row (table t) ↔ live t i k v.
Proof.
  split.
  - intros (j & e & Heq & Hj)%elem_of_lookup_imap_1.
    unfold row in Heq. injection Heq as Hi Hshow. subst j.
    unfold live. rewrite Hj. f_equal.
    destruct e as [k' v' []]; unfold show_entry in Hshow; simpl in Hshow;
      try done.
    by injection Hshow as -> ->.
  - intros Hl. by apply (elem_of_lookup_imap_2 row) in Hl.
Qed.

End OpenAddressingRows.

Section AVLRows.
Import AVLTable AVLBalance AVLOrder AVLDisplay.

Lemma real_height_nonneg n : (0 ≤ real_height n)%Z.
Proof. induction n; simpl; lia. Qed.

(** The lines of a tree, against its in-order traversal read backwards. *)
Lemma display_avl_spec n :
  ∀ d,
    Forall2 (λ l kv, ∃ depth,
               d ≤ depth ∧ (Z.of_nat depth < Z.of_nat d + real_height n)%Z
               ∧ l = indent depth ++ pair_items kv.1 kv.2)
      (display_avl n d) (reverse (elements n)).
Proof.
  induction n as [|k v h l IHl r IHr]; intros d; [constructor|].
  cbn [display_avl elements real_height].
  rewrite reverse_app, reverse_cons, <- app_assoc.
  apply Forall2_app; [|constructor].
  - eapply Forall2_impl; [apply IHr|]. simpl.
    intros l0 kv (depth & H1 & H2 & H3). exists depth. split_and!; [lia|lia|done].
  - exists d. pose proof (real_height_nonneg l). split_and!; [lia|lia|done].
  - eapply Forall2_impl; [apply IHl|]. simpl.
    intros l0 kv (depth & H1 & H2 & H3). exists depth. split_and!; [lia|lia|done].
Qed.

Lemma display_avl_shows n d k v :
  (k, v) ∈ elements n → ∃ depth, indent depth ++ pair_items k v ∈ display_avl n d.
Proof.
  intros Hin%elem_of_reverse.
  apply list_elem_of_lookup in Hin as [i Hi].
  destruct (Forall2_lookup_r _ _ _ _ _ (display_avl_spec n d) Hi)
    as (l0 & Hl0 & depth & _ & _ & ->).
  exists depth. apply list_elem_of_lookup. by exists i.
Qed.

Lemma display_avl_only n d l0 :
  l0 ∈ display_avl n d →
  ∃ k v depth, (k, v) ∈ elements n ∧ l0 = indent depth ++ pair_items k v.
Proof.
  intros [i Hi]%list_elem_of_lookup.
  destruct (Forall2_lookup_l _ _ _ _ _ (display_avl_spec n d) Hi)
    as ([k v] & Hkv & depth & _ & _ & ->).
  exists k, v, depth. split; [|done].
  apply elem_of_reverse, list_elem_of_lookup. by exists i.
Qed.

Definition bucket_lines (i : nat) (root : AVLNode) : list line :=
  [Text "Bucket "; Size i; Text ":"] :: display_bucket root.

Lemma avl_display_rows_from t :
  ∀ count i, i + count = length (table t) →
    display_rows t i count
    = Done (mjoin (imap (λ j root, bucket_lines (i + j) root)
                     (drop i (table t)))).
Proof.
  induction count as [|count IH]; intros i Hi.
  - rewrite drop_ge by lia. done.
  - destruct (lookup_lt_is_Some_2 (table t) i) as [e He]; [lia|].
    cbn [display_rows]. unfold at_index. rewrite He. simpl.
    rewrite IH by lia. simpl. rewrite (drop_S _ _ _ He), imap_cons.
    rewrite Nat.add_0_r. cbn [mjoin list_join]. unfold bucket_lines at 2.
    simpl. do 4 f_equal. apply imap_ext.
    intros j e' _. simpl. f_equal. lia.
Qed.

Lemma avl_display_spec t :
  length (table t) = table_size t →
  display t
  = Done ([Text "=== AVL Hash Table ==="]
          :: mjoin (imap bucket_lines (table t))
          ++ [[Text "Total Size: "; Size (current_size t);
               Text " / Table Capacity: "; Size (table_size t)]]).
Proof.
  intros Hlen. unfold display.
  rewrite (avl_display_rows_from t (table_size t) 0) by lia. done.
Qed.

Lemma avl_rows_pair t depth k v :
  indent depth ++ pair_items k v ∈ mjoin (imap bucket_lines (table t))
  → ∃ i n, table t !! i = Some n ∧ (k, v) ∈ elements n.
Proof.
  intros (ls & Hin & (i & n & -> & Hi)%elem_of_lookup_imap_1)%list_elem_of_join.
  exists i, n. split; [done|].
  apply elem_of_cons in Hin as [Heq|Hin].
  { destruct depth; discriminate. }
  destruct n as [|nk nv nh l r].
  { apply list_elem_of_singleton in Hin. destruct depth; discriminate. }
  apply display_avl_only in Hin as (k' & v' & depth' & Hkv & Heq).
  by apply indent_pair_inj in Heq as (_ & -> & ->).
Qed.

Lemma avl_rows_shows t i n k v :
  table t !! i = Some n → (k, v) ∈ elements n →
  ∃ depth, indent depth ++ pair_items k v ∈ mjoin (imap bucket_lines (table t)).
Proof.
  intros Hi Hkv.
  destruct n as [|nk nv nh l r]; [by apply elem_of_nil in Hkv|].
  destruct (display_avl_shows _ 1 _ _ Hkv) as [depth Hd].
  exists depth. apply list_elem_of_join.
  exists (bucket_lines i (node nk nv nh l r)). split.
  - right. exact Hd.
  - by apply (elem_of_lookup_imap_2 bucket_lines) in Hi.
Qed.

End AVLRows.

End DisplayFacts.

Module HarnessFacts.
Import Base Refinement Console Harness.

(** The map that the insertions of [data] build. *)
Definition stored (data : list (Z * Z)) (m : gmap Z Z) : gmap Z Z :=
  foldl (λ m entry, <[entry.1 := entry.2]> m) m data.

(** What the demonstration prints after [display]. *)
Definition answers_printed : list line :=
  [[Text (newline +:+ "Testing search operations:")];
   [Text "Key "; Int 10; Text " -> value "; Int 100];
   [Text "Key "; Int 22; Text " -> value "; Int 220];
   [Text "Key "; Int 99; Text " not found"];
   [Text "Key "; Int 4; Text " -> value "; Int 40];
   [Text (newline +:+ "Removing keys 22 and 31...")];
   [Text "Key 22 removed successfully."];
   [Text "Key 31 removed successfully."];
   [Text "Key 100 not found for removal (expected)."];
   [Text "Size after removals: "; Size 7];
   [Text newline; Text (copies 60 "=")]].

Section Generic.
Context {T : Type} (D : Table T) (I : T → gmap Z Z → Prop).
Context (HS : Stores (ops D) I).

Lemma search_all_spec keys t m :
  I t m →
  search_all (ops D) keys t
  = Done ((λ key, search_line key (m !! key)) <$> keys).
Proof.
  intros HI. induction keys as [|key keys IH]; [done|].
  cbn [search_all]. rewrite (stores_find _ _ HS t m key HI). simpl.
  by rewrite IH.
Qed.

Lemma demonstrate_spec fuel t0 t1 shown :
  insert_all (ops D) fuel sample_data (clear (ops D) t0) = Done t1 →
  I t1 (stored sample_data ∅) →
  display D t1 = Done shown →
  ∃ t', demonstrate D fuel t0
        = Done (t',
                [Text (newline +:+ "--- Inserting data into ");
                 Text (get_name D); Text " ---"]
                :: shown ++ answers_printed)
    ∧ I t' ∅.
Proof.
  intros Hins HI Hshow. unfold demonstrate. cbn zeta.
  rewrite Hins. cbn [mbind outcome_mbind outcome_bind]. rewrite Hshow.
  cbn [mbind outcome_mbind outcome_bind].
  rewrite (search_all_spec _ t1 _ HI). cbn [mbind outcome_mbind outcome_bind].
  destruct (stores_remove _ _ HS t1 _ 22 HI) as (t2 & -> & HI2 & _).
  cbn [mbind outcome_mbind outcome_bind fst snd].
  destruct (stores_remove _ _ HS t2 _ 31 HI2) as (t3 & -> & HI3 & _).
  cbn [mbind outcome_mbind outcome_bind fst snd].
  destruct (stores_remove _ _ HS t3 _ 100 HI3) as (t4 & -> & HI4 & _).
  cbn [mbind outcome_mbind outcome_bind fst snd].
  rewrite (stores_size _ _ HS t4 _ HI4).
  eexists. split; [reflexivity|]. by eapply stores_clear.
Qed.

End Generic.

Section WithHasher.
Context (hasher : Z → Z).

(** The capacity after the insertions of [data] into a table of capacity
    [capacity] that stores [m]. *)
Fixpoint grown (data : list (Z * Z)) (m : gmap Z Z) (capacity : nat) : nat :=
  match data with
  | [] => capacity
  | entry :: data' =>
      grown data' (<[entry.1 := entry.2]> m)
        (if capacity <? 2 * base.size m then capacity * 2 else capacity)
  end.

Lemma oa_insert_all fuel data :
  ∀ t m, OpenAddressingInv.Inv hasher t m → OpenAddressingInv.no_tombstone t →
    2 ≤ fuel →
    ∃ t', insert_all (Base.open_addressing hasher) fuel data t = Done t'
      ∧ OpenAddressingInv.Inv hasher t' (stored data m)
      ∧ OpenAddressingInv.no_tombstone t'
      ∧ OpenAddressing.table_size t'
        = grown data m (OpenAddressing.table_size t).
Proof.
  induction data as [|[k v] data IH]; intros t m HI Hno Hf.
  { by exists t. }
  cbn [insert_all insert Base.open_addressing fst snd].
  destruct (OpenAddressingInv.oa_insert_true hasher t m k v fuel HI Hno Hf)
    as (t1 & Hins & HI1 & Hno1).
  destruct (OpenAddressingInv.oa_insert_spec hasher t m k v fuel HI Hf)
    as (t2 & b & Hins2 & Hsz & _).
  assert (t2 = t1) as -> by congruence.
  rewrite Hins. cbn [mbind outcome_mbind outcome_bind fst].
  destruct (IH t1 _ HI1 Hno1 Hf) as (t' & Hrun & HI' & Hno' & Hsz').
  exists t'. split_and!; try done.
  rewrite Hsz', Hsz. cbn [grown fst snd]. unfold OpenAddressing.over_load.
  by rewrite (OpenAddressingInv.inv_size _ _ _ HI).
Qed.

Lemma avl_insert_all fuel data :
  ∀ t m, Variants.avl_inv hasher t m → 2 ≤ fuel →
    ∃ t', insert_all (Base.avl_buckets hasher) fuel data t = Done t'
      ∧ Variants.avl_inv hasher t' (stored data m).
Proof.
  induction data as [|[k v] data IH]; intros t m [HI Hl] Hf.
  { by exists t. }
  cbn [insert_all insert Base.avl_buckets fst snd].
  destruct (AVLInv.avl_insert_spec hasher t m k v fuel HI Hl Hf)
    as (t1 & -> & HI1 & Hl1 & _).
  cbn [mbind outcome_mbind outcome_bind fst].
  destruct (IH t1 _ (conj HI1 Hl1) Hf) as (t' & Hrun & HI').
  exists t'. done.
Qed.

End WithHasher.

End HarnessFacts.

(** ** Insertions on a fresh table, and the key inserted twice *)

Module RepeatedInsert.
Import Base Refinement.

Section WithStores.
Context {T : Type} (B : HashTableBase T) (I : T → gmap Z Z → Prop).
Context (HS : Stores B I).

(** A run of insertions that all answer [true] stores every pair of the
    run, when no key comes twice, and leaves the other keys alone. *)
Lemma run_inserts_stored fuel (kvs : list (Z * Z)) :
  ∀ t m t', I t m → 2 ≤ fuel → NoDup kvs.*1 →
    run B fuel ((λ kv, Insert kv.1 kv.2) <$> kvs) t
    = Done (t', replicate (length kvs) (Flag true)) →
    ∃ m', I t' m'
      ∧ (∀ k w, (k, w) ∈ kvs → m' !! k = Some w)
      ∧ (∀ k, k ∉ kvs.*1 → m' !! k = m !! k).
Proof.
  induction kvs as [|[k v] kvs IH]; intros t m t' HI Hf Hnd Hrun.
  { exists m. simpl in Hrun. injection Hrun as <-. split_and!; [done| |done].
    intros k w Hin. by apply elem_of_nil in Hin. }
  rewrite fmap_cons in Hnd. apply NoDup_cons in Hnd as [Hk Hnd].
  rewrite fmap_cons in Hrun. cbn [run exec fst snd] in Hrun.
  destruct (stores_insert _ _ HS fuel t m k v HI Hf) as (t1 & b & Hins & HI1 & _).
  rewrite Hins in Hrun. cbn [mbind outcome_mbind outcome_bind fst snd] in Hrun.
  destruct (run B fuel ((λ kv, Insert kv.1 kv.2) <$> kvs) t1)
    as [[t2 rs]| | | |] eqn:Hrest; try discriminate.
  cbn [mbind outcome_mbind outcome_bind fst snd length replicate] in Hrun.
  injection Hrun as -> -> ->.
  destruct (IH t1 _ t' HI1 Hf Hnd Hrest) as (m' & HI' & Hall & Hother).
  exists m'. split_and!; [done| |].
  - intros k0 w [[= -> ->]|Hin]%elem_of_cons; [|by apply Hall].
    rewrite (Hother k Hk). by rewrite lookup_insert_eq.
  - intros k0 Hk0. rewrite fmap_cons in Hk0.
    apply not_elem_of_cons in Hk0 as [Hne Hk0].
    rewrite (Hother k0 Hk0). by rewrite lookup_insert_ne.
Qed.

(** After a successful insertion the key is found, and inserting it again
    changes its value and nothing else. *)
Lemma insert_insert fuel t m t1 k v w :
  I t m → 2 ≤ fuel → insert B fuel t k w = Done (t1, true) →
  find B t1 k = Done (Some w)
  ∧ ∃ t2, insert B fuel t1 k v = Done (t2, true)
      ∧ size B t2 = size B t1
      ∧ find B t2 k = Done (Some v)
      ∧ ∀ k', k' ≠ k → find B t2 k' = find B t1 k'.
Proof.
  intros HI Hf Hins.
  destruct (stores_insert _ _ HS fuel t m k w HI Hf) as (t1' & b & Hins' & HI1 & _).
  assert (t1' = t1 ∧ b = true) as [-> ->] by (split; congruence).
  split.
  - rewrite (stores_find _ _ HS _ _ _ HI1). by rewrite lookup_insert_eq.
  - apply (insert_again B I HS fuel t1 _ k v HI1 Hf).
    rewrite lookup_insert_eq. eauto.
Qed.

(** The table that a run of insertions of distinct keys leaves, all of
    them answered [true]: every pair is found, and every key of the run
    can be inserted again without a change of the size. *)
Lemma inserted_then_again (new : nat → T) n fuel (kvs : list (Z * Z)) t1 v :
  (∀ n, 0 < n → I (new n) ∅) →
  0 < n → 2 ≤ fuel → NoDup kvs.*1 →
  run B fuel ((λ kv, Insert kv.1 kv.2) <$> kvs) (new n)
  = Done (t1, replicate (length kvs) (Flag true)) →
  size B t1 = length kvs
  ∧ ∀ k w, (k, w) ∈ kvs →
      find B t1 k = Done (Some w)
      ∧ ∃ t2, insert B fuel t1 k v = Done (t2, true)
          ∧ size B t2 = length kvs
          ∧ find B t2 k = Done (Some v)
          ∧ ∀ k', k' ≠ k → find B t2 k' = find B t1 k'.
Proof.
  intros Hnew Hn Hf Hnd Hrun.
  destruct (run_inserts_stored fuel kvs _ _ _ (Hnew n Hn) Hf Hnd Hrun)
    as (m' & HI' & Hall & _).
  destruct (run_inserts B I HS fuel kvs (new n) ∅ (Hnew n Hn) Hf Hnd)
    as (t1' & rs & Hrun' & _ & Hsz).
  { intros k _. apply lookup_empty. }
  assert (t1' = t1 ∧ rs = replicate (length kvs) (Flag true))
    as [-> ->] by (split; congruence).
  assert (Hsize : size B t1 = length kvs).
  { rewrite Hsz by (by apply Forall_replicate).
    by rewrite (stores_size _ _ HS _ _ (Hnew n Hn)), map_size_empty. }
  split; [done|]. intros k w Hin. split.
  - by rewrite (stores_find _ _ HS _ _ _ HI'), (Hall k w Hin).
  - destruct (insert_again B I HS fuel t1 m' k v HI' Hf) as (t2 & Hins & Hs2 & Hrest).
    { rewrite (Hall k w Hin). eauto. }
    exists t2. split; [done|]. split; [congruence|done].
Qed.

End WithStores.

End RepeatedInsert.

(** ** When the open-addressing [insert] finds no room *)

Module Saturation.
Import OpenAddressing OpenAddressingProbe OpenAddressingInv.

Section WithHasher.
Context (hasher : Z → Z).

(** With no [EMPTY] slot and no slot holding the key, [probe] passes
    every slot and returns the index it started from. *)
Lemma probe_full_wrap t k h :
  well_shaped t →
  (∀ j e, table t !! j = Some e → state e ≠ EMPTY ∧ holds e k = false) →
  hash_function hasher k (table_size t) = Done h →
  probe hasher t k = Done h.
Proof.
  intros Hs Hall Hh.
  destruct (probe_entry hasher t k Hs) as (h' & i & e & Hh' & _ & Hp & He & Hres).
  assert (h' = h) as -> by congruence.
  destruct Hres as [d Hd Hi (e1 & He1 & Hstop) _| -> _]; [|done].
  destruct (Hall _ _ He1) as [Hne Hho].
  apply keeps_probing_false in Hstop as [?|?]; congruence.
Qed.

(** [insert] is [place] on the table that the load-factor test leaves: the
    table itself, or the grown one. *)
Lemma oa_insert_place t m k v fuel :
  Inv hasher t m → 2 ≤ fuel →
  ∃ t0, (if over_load t then resize (insert hasher (fuel - 1)) t else Done t)
        = Done t0
    ∧ Inv hasher t0 m
    ∧ insert hasher fuel t k v = place hasher t0 k v
    ∧ (over_load t = false → t0 = t).
Proof.
  intros HI Hf. destruct fuel as [|[|fuel]]; try lia.
  replace (S (S fuel) - 1) with (S fuel) by lia.
  rewrite oa_insert_unfold. destruct (over_load t) eqn:Hov.
  - destruct (oa_resize_spec hasher t m fuel HI) as (t0 & Hre & HI0 & _ & _).
    exists t0. rewrite Hre. split_and!; try done.
  - exists t. split_and!; try done.
Qed.

(** [insert] answers [false] exactly when [probe], on the table that the
    load-factor test leaves, went round all the slots, none [EMPTY] and none
    holding the key, and is back at an [OCCUPIED] slot; the table is then
    the one before the call. *)
Lemma oa_insert_saturated t m k v fuel :
  Inv hasher t m → 2 ≤ fuel →
  ∃ t0 t1 b,
    (if over_load t then resize (insert hasher (fuel - 1)) t else Done t)
    = Done t0
    ∧ insert hasher fuel t k v = Done (t1, b)
    ∧ (b = false
       ↔ (∀ j e, table t0 !! j = Some e →
            state e ≠ EMPTY ∧ ¬ (state e = OCCUPIED ∧ key e = k))
         ∧ ∃ h e, hash_function hasher k (table_size t0) = Done h
                  ∧ probe hasher t0 k = Done h
                  ∧ table t0 !! h = Some e
                  ∧ state e = OCCUPIED)
    ∧ (b = false → t0 = t ∧ t1 = t).
Proof.
  intros HI Hf.
  destruct (oa_insert_place t m k v fuel HI Hf) as (t0 & Hgrow & HI0 & Hins & Hsame).
  destruct (oa_place_spec hasher t0 m k v HI0) as (t1 & b & Hpl & _ & _ & Hb).
  exists t0, t1, b. split_and!; [done|congruence| |].
  - split.
    + intros ->.
      destruct (proj1 (oa_place_false_iff hasher t0 k v (inv_shape _ _ _ HI0)))
        as (Hall & h & e & Hh & He & Hst); [by exists t1|].
      split.
      * intros j e' Hj. destruct (Hall j e' Hj) as [Hne Hho].
        split; [done|]. by apply holds_false.
      * exists h, e. split_and!; try done.
        by apply probe_full_wrap; [apply (inv_shape _ _ _ HI0)|..].
    + intros (Hall & h & e & Hh & _ & He & Hst).
      destruct (proj2 (oa_place_false_iff hasher t0 k v (inv_shape _ _ _ HI0)))
        as [t1' Hpl'].
      { split; [|by exists h, e]. intros j e' Hj.
        destruct (Hall j e' Hj) as [Hne Hho]. split; [done|].
        by apply holds_false. }
      congruence.
  - intros ->. destruct Hb as (-> & _ & _).
    destruct (over_load t) eqn:Hov.
    + destruct (OpenAddressingRuns.oa_insert_over_load hasher t m k v fuel HI Hf Hov)
        as (t2 & Hins2).
      congruence.
    + by rewrite (Hsame eq_refl).
Qed.

End WithHasher.

End Saturation.

(** * Part III: the properties of the specification *)

(** ** Two tables to try the statements on *)

Module Demo.
Import Base.

(** The scenario of the specification: five calls on a capacity of 8. *)
Definition calls : list call :=
  [Insert 10 100; Insert 22 220; Insert 31 310; Insert 4 40; Remove 22].

Definition open_addressing_table : OpenAddressing.HashTable :=
  Eval vm_compute in
    match run (open_addressing Hash.mix) 2 calls (OpenAddressing.new 8) with
    | Done r => r.1
    | _ => OpenAddressing.new 8
    end.

Definition avl_table : AVLTable.AVLHashTable :=
  Eval vm_compute in
    match run (avl_buckets Hash.mix) 2 calls (AVLTable.new 8) with
    | Done r => r.1
    | _ => AVLTable.new 8
    end.

(** The scenario in full, with the replies and the sizes it expects. *)
Example scenario_open_addressing :
  (r ← run (open_addressing Hash.mix) 2
        [Insert 10 100; Insert 22 220; Insert 31 310; Insert 4 40; Find 31;
         Remove 22; Find 22; Remove 999]
        (OpenAddressing.new 8);
  Done (OpenAddressing.size r.1, r.2))
  = Done (3, [Flag true; Flag true; Flag true; Flag true;
              Found (Some 310%Z); Flag true; Found None; Flag false]).
Proof. vm_compute. reflexivity. Qed.

Example scenario_avl_buckets :
  (r ← run (avl_buckets Hash.mix) 2
        [Insert 10 100; Insert 22 220; Insert 31 310; Insert 4 40; Find 31;
         Remove 22; Find 22; Remove 999]
        (AVLTable.new 8);
  Done (AVLTable.size r.1, r.2))
  = Done (3, [Flag true; Flag true; Flag true; Flag true;
              Found (Some 310%Z); Flag true; Found None; Flag false]).
Proof. vm_compute. reflexivity. Qed.

(** The tombstone chain: the keys 2, 6 and 20 all hash to slot 0 of 8 and
    take the slots 0, 1 and 2; with the key of slot 1 removed, the key of
    slot 2 is still found. *)
Example scenario_tombstone_chain :
  (r ← run (open_addressing Hash.mix) 2
        [Insert 2 20; Insert 6 60; Insert 20 200; Remove 6; Find 20]
        (OpenAddressing.new 8);
  Done (OpenAddressing.state <$> take 3 (OpenAddressing.table r.1), r.2))
  = Done ([OpenAddressing.OCCUPIED; OpenAddressing.DELETED;
           OpenAddressing.OCCUPIED],
          [Flag true; Flag true; Flag true; Flag true; Found (Some 200%Z)]).
Proof. vm_compute. reflexivity. Qed.

Lemma open_addressing_table_reachable :
  reachable (open_addressing Hash.mix) OpenAddressing.new open_addressing_table.
Proof.
  exists 8, 2, calls,
    [Flag true; Flag true; Flag true; Flag true; Flag true].
  split; [lia|]. split; [lia|]. vm_compute. reflexivity.
Qed.

Lemma avl_table_reachable :
  reachable (avl_buckets Hash.mix) AVLTable.new avl_table.
Proof.
  exists 8, 2, calls,
    [Flag true; Flag true; Flag true; Flag true; Flag true].
  split; [lia|]. split; [lia|]. vm_compute. reflexivity.
Qed.

End Demo.

(** Two tables over their load factor: two live keys on a capacity of 2
    (open addressing) and on a capacity of 1 (AVL buckets). *)
Module DemoLoaded.
Import Base.

Definition calls : list call := [Insert 2 20; Insert 1 10].

Definition open_addressing_table : OpenAddressing.HashTable :=
  OpenAddressing.mkTable
    [OpenAddressing.mkEntry 2 20 OpenAddressing.OCCUPIED;
     OpenAddressing.mkEntry 1 10 OpenAddressing.OCCUPIED] 2 2.

Definition avl_table : AVLTable.AVLHashTable :=
  AVLTable.mkTable
    [AVLTable.node 2 20 2 (AVLTable.node 1 10 1 AVLTable.null AVLTable.null)
       AVLTable.null] 1 2.

Lemma loaded_open_addressing_reachable :
  reachable (open_addressing Hash.mix) OpenAddressing.new open_addressing_table.
Proof.
  exists 2, 2, calls, [Flag true; Flag true].
  split; [lia|]. split; [lia|]. vm_compute. reflexivity.
Qed.

Lemma loaded_avl_reachable :
  reachable (avl_buckets Hash.mix) AVLTable.new avl_table.
Proof.
  exists 1, 2, calls, [Flag true; Flag true].
  split; [lia|]. split; [lia|]. vm_compute. reflexivity.
Qed.

End DemoLoaded.

Module DemoTombstone.
Import Base.

(** A capacity of 2 with one live key and one tombstone. *)
Definition tombstone_table : OpenAddressing.HashTable :=
  OpenAddressing.mkTable
    [OpenAddressing.mkEntry 2 20 OpenAddressing.OCCUPIED;
     OpenAddressing.mkEntry 1 10 OpenAddressing.DELETED] 2 1.

Lemma tombstone_table_reachable :
  reachable (open_addressing Hash.mix) OpenAddressing.new tombstone_table.
Proof.
  exists 2, 2, [Insert 2 20; Insert 1 10; Remove 1],
    [Flag true; Flag true; Flag true].
  split; [lia|]. split; [lia|]. vm_compute. reflexivity.
Qed.

End DemoTombstone.

(** The characters that [display] writes for the two tables above, and a
    negative key as [<<] writes it. *)
Module DemoWritten.
Import Console.

Example written_open_addressing :
  (rows ← OpenAddressingDisplay.display Demo.open_addressing_table;
   Done (show_line <$> (rows : list line)))
  = Done ["=== Open Addressing Hash Table ==="; "Index 0: (31,310)";
          "Index 1: (4,40)"; "Index 2: [EMPTY]"; "Index 3: [EMPTY]";
          "Index 4: (10,100)"; "Index 5: [DELETED]"; "Index 6: [EMPTY]";
          "Index 7: [EMPTY]"; "Size: 3/8"].
Proof. vm_compute. reflexivity. Qed.

Example written_avl_buckets :
  (rows ← AVLDisplay.display DemoLoaded.avl_table;
   Done (show_line <$> (rows : list line)))
  = Done ["=== AVL Hash Table ==="; "Bucket 0:"; "  (2,20)"; "    (1,10)";
          "Total Size: 2 / Table Capacity: 1"].
Proof. vm_compute. reflexivity. Qed.

Example written_negative_key :
  show_line (Harness.search_line (-5) None) = "Key -5 not found"
  ∧ show_line (Harness.search_line (-5) (Some (-50)%Z))
    = "Key -5 -> value -50".
Proof. split; vm_compute; reflexivity. Qed.

End DemoWritten.

(** ** The properties *)

(** C1. For both tables: after any calls on a fresh table of positive
    capacity, when [insert(k, v)] answers [true] and the calls that follow
    neither remove [k] nor clear the table, these calls return and
    [find(k)] then answers [true] with the value most recently inserted for
    [k] ([v], or the value of the last later [insert] of [k]). The
    open-addressing [insert] answers [true] whenever no [remove] came
    before it, and the AVL table's [insert] always answers [true]. *)
Theorem C1_find_returns_latest_insert (hasher : Z → Z) (n fuel : nat)
    (pre post : list Base.call) (k v : Z) :
  0 < n → 2 ≤ fuel → Refinement.keeps k post →
  (∃ t1 r1,
     Base.run (Base.open_addressing hasher) fuel pre (OpenAddressing.new n)
     = Done (t1, r1)
     ∧ ∃ t2 b, OpenAddressing.insert hasher fuel t1 k v = Done (t2, b)
       ∧ ((∀ k', Base.Remove k' ∉ pre) → b = true)
       ∧ (b = true →
          ∃ t3 r3,
            Base.run (Base.open_addressing hasher) fuel post t2 = Done (t3, r3)
            ∧ OpenAddressing.find hasher t3 k
              = Done (Some (Refinement.latest k v post))))
  ∧ (∃ t1 r1,
       Base.run (Base.avl_buckets hasher) fuel pre (AVLTable.new n)
       = Done (t1, r1)
       ∧ ∃ t2, AVLTable.insert hasher fuel t1 k v = Done (t2, true)
         ∧ ∃ t3 r3,
             Base.run (Base.avl_buckets hasher) fuel post t2 = Done (t3, r3)
             ∧ AVLTable.find hasher t3 k
               = Done (Some (Refinement.latest k v post))).
Proof.
  intros Hn Hf Hk. split.
  - destruct (Contract.insert_then_find _ _
                (Variants.open_addressing_stores hasher) _
                (Variants.open_addressing_new hasher) n fuel pre post k v Hn Hf Hk)
      as (t1 & r1 & Hpre & t2 & b & Hins & Hpost).
    exists t1, r1. split; [done|]. exists t2, b. split_and!; [done| |done].
    intros Hnr.
    destruct (OpenAddressingInv.oa_Inv_new hasher n Hn) as [HI0 Hno0].
    destruct (OpenAddressingRuns.oa_run_no_remove hasher fuel pre _ _
                HI0 Hno0 Hf Hnr) as (t1' & r1' & Hpre' & _ & Hno1).
    assert (t1' = t1) as -> by congruence.
    destruct (Refinement.run_spec _ _ (Variants.open_addressing_stores hasher)
                fuel pre _ _ HI0 Hf) as (t1' & r1'' & m1 & Hpre'' & HI1).
    assert (t1' = t1) as -> by congruence.
    destruct (OpenAddressingInv.oa_insert_true hasher t1 m1 k v fuel HI1 Hno1 Hf)
      as (t2' & Hins' & _).
    simpl in Hins. congruence.
  - destruct (Contract.insert_then_find _ _
                (Variants.avl_buckets_stores hasher) _
                (Variants.avl_buckets_new hasher) n fuel pre post k v Hn Hf Hk)
      as (t1 & r1 & Hpre & t2 & b & Hins & Hpost).
    exists t1, r1. split; [done|].
    destruct (Refinement.run_spec _ _ (Variants.avl_buckets_stores hasher)
                fuel pre _ _ (Variants.avl_buckets_new hasher n Hn) Hf)
      as (t1' & r1' & m1 & Hpre' & [HI1 Hl1]).
    assert (t1' = t1) as -> by congruence.
    destruct (AVLInv.avl_insert_spec hasher t1 m1 k v fuel HI1 Hl1 Hf)
      as (t2' & Hins' & _).
    simpl in Hins. assert (b = true) as -> by congruence.
    exists t2. split; [done|]. by apply Hpost.
Qed.

Lemma C1_find_returns_latest_insert_witness :
  (∃ t1 r1 t2 t3 r3,
     Base.run (Base.open_addressing Hash.mix) 2 Demo.calls (OpenAddressing.new 8)
     = Done (t1, r1)
     ∧ OpenAddressing.insert Hash.mix 2 t1 7 70 = Done (t2, true)
     ∧ Base.run (Base.open_addressing Hash.mix) 2
         [Base.Insert 15 150; Base.Remove 10; Base.Insert 7 71] t2
       = Done (t3, r3)
     ∧ OpenAddressing.find Hash.mix t3 7 = Done (Some 71%Z))
  ∧ (∃ t1 r1 t2 t3 r3,
       Base.run (Base.avl_buckets Hash.mix) 2 Demo.calls (AVLTable.new 8)
       = Done (t1, r1)
       ∧ AVLTable.insert Hash.mix 2 t1 7 70 = Done (t2, true)
       ∧ Base.run (Base.avl_buckets Hash.mix) 2
           [Base.Insert 15 150; Base.Remove 10; Base.Insert 7 71] t2
         = Done (t3, r3)
       ∧ AVLTable.find Hash.mix t3 7 = Done (Some 71%Z)).
Proof.
  destruct (C1_find_returns_latest_insert Hash.mix 8 2 Demo.calls
              [Base.Insert 15 150; Base.Remove 10; Base.Insert 7 71] 7 70)
    as [(t1 & r1 & Hpre & t2 & b & Hins & _ & Hpost)
        (u1 & s1 & Hpre' & u2 & Hins' & u3 & s3 & Hpost' & Hfind')].
  - lia.
  - lia.
  - intros c Hc. split; intros ->; vm_compute in Hc;
      repeat (apply elem_of_cons in Hc as [Hc|Hc]; [discriminate|]);
      by apply elem_of_nil in Hc.
  - split.
    + assert (Hb : b = true).
      { assert (E : Base.run (Base.open_addressing Hash.mix) 2 Demo.calls
                      (OpenAddressing.new 8)
                    = Done (Demo.open_addressing_table,
                            [Base.Flag true; Base.Flag true; Base.Flag true;
                             Base.Flag true; Base.Flag true]))
          by (vm_compute; reflexivity).
        rewrite E in Hpre. injection Hpre as <- <-.
        assert (E2 : ∃ t, OpenAddressing.insert Hash.mix 2
                            Demo.open_addressing_table 7 70 = Done (t, true))
          by (eexists; vm_compute; reflexivity).
        destruct E2 as [t E2]. rewrite E2 in Hins. by injection Hins as _ <-. }
      subst b. destruct (Hpost eq_refl) as (t3 & r3 & Hrun & Hfind).
      exists t1, r1, t2, t3, r3. split_and!; assumption.
    + exists u1, s1, u2, u3, s3. split_and!; assumption.
Defined.

(** C2. For both tables: inserting N pairs of distinct keys into a fresh
    table of positive capacity returns [true] N times, and [size()] is then
    N; every key of the run is then found with its value, and inserting it
    again answers [true], leaves [size()] at N, binds the key to the new
    value and leaves what [find] answers for every other key as it was.
    The same holds on every table a caller can reach, for a key that an
    [insert] has just stored and for a key that [find] finds. *)
Theorem C2_size_counts_distinct_keys (hasher : Z → Z) (n fuel : nat)
    (kvs : list (Z * Z)) (t : OpenAddressing.HashTable)
    (t' : AVLTable.AVLHashTable) (k v w : Z) :
  0 < n → 2 ≤ fuel → NoDup kvs.*1 →
  Base.reachable (Base.open_addressing hasher) OpenAddressing.new t →
  Base.reachable (Base.avl_buckets hasher) AVLTable.new t' →
  (∃ t1,
     Base.run (Base.open_addressing hasher) fuel
       ((λ kv, Base.Insert kv.1 kv.2) <$> kvs) (OpenAddressing.new n)
     = Done (t1, replicate (length kvs) (Base.Flag true))
     ∧ OpenAddressing.size t1 = length kvs
     ∧ ∀ k0 w0, (k0, w0) ∈ kvs →
         OpenAddressing.find hasher t1 k0 = Done (Some w0)
         ∧ ∃ t2, OpenAddressing.insert hasher fuel t1 k0 v = Done (t2, true)
             ∧ OpenAddressing.size t2 = length kvs
             ∧ OpenAddressing.find hasher t2 k0 = Done (Some v)
             ∧ ∀ k', k' ≠ k0 →
                 OpenAddressing.find hasher t2 k'
                 = OpenAddressing.find hasher t1 k')
  ∧ (∀ t1, OpenAddressing.insert hasher fuel t k w = Done (t1, true) →
       OpenAddressing.find hasher t1 k = Done (Some w)
       ∧ ∃ t2, OpenAddressing.insert hasher fuel t1 k v = Done (t2, true)
           ∧ OpenAddressing.size t2 = OpenAddressing.size t1
           ∧ OpenAddressing.find hasher t2 k = Done (Some v)
           ∧ ∀ k', k' ≠ k →
               OpenAddressing.find hasher t2 k'
               = OpenAddressing.find hasher t1 k')
  ∧ (OpenAddressing.find hasher t k = Done (Some w) →
     ∃ t2, OpenAddressing.insert hasher fuel t k v = Done (t2, true)
       ∧ OpenAddressing.size t2 = OpenAddressing.size t
       ∧ OpenAddressing.find hasher t2 k = Done (Some v)
       ∧ ∀ k', k' ≠ k →
           OpenAddressing.find hasher t2 k' = OpenAddressing.find hasher t k')
  ∧ (∃ t1,
       Base.run (Base.avl_buckets hasher) fuel
         ((λ kv, Base.Insert kv.1 kv.2) <$> kvs) (AVLTable.new n)
       = Done (t1, replicate (length kvs) (Base.Flag true))
       ∧ AVLTable.size t1 = length kvs
       ∧ ∀ k0 w0, (k0, w0) ∈ kvs →
           AVLTable.find hasher t1 k0 = Done (Some w0)
           ∧ ∃ t2, AVLTable.insert hasher fuel t1 k0 v = Done (t2, true)
               ∧ AVLTable.size t2 = length kvs
               ∧ AVLTable.find hasher t2 k0 = Done (Some v)
               ∧ ∀ k', k' ≠ k0 →
                   AVLTable.find hasher t2 k' = AVLTable.find hasher t1 k')
  ∧ (∀ t1, AVLTable.insert hasher fuel t' k w = Done (t1, true) →
       AVLTable.find hasher t1 k = Done (Some w)
       ∧ ∃ t2, AVLTable.insert hasher fuel t1 k v = Done (t2, true)
           ∧ AVLTable.size t2 = AVLTable.size t1
           ∧ AVLTable.find hasher t2 k = Done (Some v)
           ∧ ∀ k', k' ≠ k →
               AVLTable.find hasher t2 k' = AVLTable.find hasher t1 k')
  ∧ (AVLTable.find hasher t' k = Done (Some w) →
     ∃ t2, AVLTable.insert hasher fuel t' k v = Done (t2, true)
       ∧ AVLTable.size t2 = AVLTable.size t'
       ∧ AVLTable.find hasher t2 k = Done (Some v)
       ∧ ∀ k', k' ≠ k →
           AVLTable.find hasher t2 k' = AVLTable.find hasher t' k').
Proof.
  intros Hn Hf Hnd Hr Hr'.
  pose proof Hr as [m HI]%Variants.open_addressing_reachable.
  pose proof Hr' as [m' HI']%Variants.avl_buckets_reachable.
  split_and!.
  - destruct (OpenAddressingInv.oa_Inv_new hasher n Hn) as [HI0 Hno].
    destruct (Variants.open_addressing_inserts hasher fuel kvs _ _ HI0 Hno Hf)
      as (t1 & Hrun).
    exists t1. split; [done|].
    exact (RepeatedInsert.inserted_then_again _ _
             (Variants.open_addressing_stores hasher) OpenAddressing.new
             n fuel kvs t1 v (Variants.open_addressing_new hasher)
             Hn Hf Hnd Hrun).
  - intros t1 Hins.
    exact (RepeatedInsert.insert_insert _ _
             (Variants.open_addressing_stores hasher) fuel t m t1 k v w
             HI Hf Hins).
  - exact (Contract.insert_present _ _
             (Variants.open_addressing_stores hasher) _
             (Variants.open_addressing_new hasher) fuel t k v w Hr Hf).
  - destruct (Variants.avl_buckets_inserts hasher fuel kvs _ _
                (Variants.avl_buckets_new hasher n Hn) Hf)
      as (t1 & Hrun).
    exists t1. split; [done|].
    exact (RepeatedInsert.inserted_then_again _ _
             (Variants.avl_buckets_stores hasher) AVLTable.new
             n fuel kvs t1 v (Variants.avl_buckets_new hasher)
             Hn Hf Hnd Hrun).
  - intros t1 Hins.
    exact (RepeatedInsert.insert_insert _ _
             (Variants.avl_buckets_stores hasher) fuel t' m' t1 k v w
             HI' Hf Hins).
  - exact (Contract.insert_present _ _
             (Variants.avl_buckets_stores hasher) _
             (Variants.avl_buckets_new hasher) fuel t' k v w Hr' Hf).
Qed.

Lemma C2_size_counts_distinct_keys_witness :
  (∃ t1 t2,
     Base.run (Base.open_addressing Hash.mix) 2
       ((λ kv, Base.Insert kv.1 kv.2) <$> [(10, 100); (22, 220); (31, 310)]%Z)
       (OpenAddressing.new 8)
     = Done (t1, replicate 3 (Base.Flag true))
     ∧ OpenAddressing.size t1 = 3
     ∧ OpenAddressing.find Hash.mix t1 22 = Done (Some 220%Z)
     ∧ OpenAddressing.insert Hash.mix 2 t1 22 311 = Done (t2, true)
     ∧ OpenAddressing.size t2 = 3
     ∧ OpenAddressing.find Hash.mix t2 22 = Done (Some 311%Z)
     ∧ ∀ k', k' ≠ 22%Z →
         OpenAddressing.find Hash.mix t2 k' = OpenAddressing.find Hash.mix t1 k')
  ∧ (∃ t1 t2,
       OpenAddressing.insert Hash.mix 2 Demo.open_addressing_table 7 70
       = Done (t1, true)
       ∧ OpenAddressing.find Hash.mix t1 7 = Done (Some 70%Z)
       ∧ OpenAddressing.insert Hash.mix 2 t1 7 311 = Done (t2, true)
       ∧ OpenAddressing.size t2 = OpenAddressing.size t1
       ∧ OpenAddressing.find Hash.mix t2 7 = Done (Some 311%Z))
  ∧ (OpenAddressing.find Hash.mix Demo.open_addressing_table 31
     = Done (Some 310%Z)
     ∧ ∃ t2,
         OpenAddressing.insert Hash.mix 2 Demo.open_addressing_table 31 311
         = Done (t2, true)
         ∧ OpenAddressing.size t2
           = OpenAddressing.size Demo.open_addressing_table
         ∧ OpenAddressing.find Hash.mix t2 31 = Done (Some 311%Z)
         ∧ ∀ k', k' ≠ 31%Z →
             OpenAddressing.find Hash.mix t2 k'
             = OpenAddressing.find Hash.mix Demo.open_addressing_table k')
  ∧ (∃ t1 t2,
       Base.run (Base.avl_buckets Hash.mix) 2
         ((λ kv, Base.Insert kv.1 kv.2) <$> [(10, 100); (22, 220); (31, 310)]%Z)
         (AVLTable.new 8)
       = Done (t1, replicate 3 (Base.Flag true))
       ∧ AVLTable.size t1 = 3
       ∧ AVLTable.find Hash.mix t1 22 = Done (Some 220%Z)
       ∧ AVLTable.insert Hash.mix 2 t1 22 311 = Done (t2, true)
       ∧ AVLTable.size t2 = 3
       ∧ AVLTable.find Hash.mix t2 22 = Done (Some 311%Z)
       ∧ ∀ k', k' ≠ 22%Z →
           AVLTable.find Hash.mix t2 k' = AVLTable.find Hash.mix t1 k')
  ∧ (∃ t1 t2,
       AVLTable.insert Hash.mix 2 Demo.avl_table 7 70 = Done (t1, true)
       ∧ AVLTable.find Hash.mix t1 7 = Done (Some 70%Z)
       ∧ AVLTable.insert Hash.mix 2 t1 7 311 = Done (t2, true)
       ∧ AVLTable.size t2 = AVLTable.size t1
       ∧ AVLTable.find Hash.mix t2 7 = Done (Some 311%Z))
  ∧ (AVLTable.find Hash.mix Demo.avl_table 31 = Done (Some 310%Z)
     ∧ ∃ t2,
         AVLTable.insert Hash.mix 2 Demo.avl_table 31 311 = Done (t2, true)
         ∧ AVLTable.size t2 = AVLTable.size Demo.avl_table
         ∧ AVLTable.find Hash.mix t2 31 = Done (Some 311%Z)
         ∧ ∀ k', k' ≠ 31%Z →
             AVLTable.find Hash.mix t2 k'
             = AVLTable.find Hash.mix Demo.avl_table k').
Proof.
  assert (Hnd : NoDup [(10, 100); (22, 220); (31, 310)]%Z.*1).
  { vm_compute. repeat constructor; intros H;
      repeat (apply elem_of_cons in H as [H|H]; [discriminate|]);
      by apply elem_of_nil in H. }
  destruct (C2_size_counts_distinct_keys Hash.mix 8 2
              [(10, 100); (22, 220); (31, 310)]%Z
              Demo.open_addressing_table Demo.avl_table 7 311 70)
    as (H1 & H2 & _ & H4 & H5 & _);
    [lia | lia | exact Hnd | exact Demo.open_addressing_table_reachable
    | exact Demo.avl_table_reachable | ].
  destruct (C2_size_counts_distinct_keys Hash.mix 8 2
              [(10, 100); (22, 220); (31, 310)]%Z
              Demo.open_addressing_table Demo.avl_table 31 311 310)
    as (_ & _ & H3 & _ & _ & H6);
    [lia | lia | exact Hnd | exact Demo.open_addressing_table_reachable
    | exact Demo.avl_table_reachable | ].
  refine (conj _ (conj _ (conj _ (conj _ (conj _ _))))).
  - destruct H1 as (t1 & Hrun & Hsz & Hall).
    destruct (Hall 22%Z 220%Z) as (Hfind & t2 & Hins & Hsz2 & Hfind2 & Hrest);
      [right; left|].
    exists t1, t2. split_and!; assumption.
  - assert (E : ∃ t1, OpenAddressing.insert Hash.mix 2
                        Demo.open_addressing_table 7 70 = Done (t1, true))
      by (eexists; vm_compute; reflexivity).
    destruct E as [t1 E].
    destruct (H2 t1 E) as (Hfind & t2 & Hins & Hsz2 & Hfind2 & _).
    exists t1, t2. split_and!; assumption.
  - assert (E : OpenAddressing.find Hash.mix Demo.open_addressing_table 31
                = Done (Some 310%Z)) by (vm_compute; reflexivity).
    split; [exact E|exact (H3 E)].
  - destruct H4 as (t1 & Hrun & Hsz & Hall).
    destruct (Hall 22%Z 220%Z) as (Hfind & t2 & Hins & Hsz2 & Hfind2 & Hrest);
      [right; left|].
    exists t1, t2. split_and!; assumption.
  - assert (E : ∃ t1, AVLTable.insert Hash.mix 2 Demo.avl_table 7 70
                      = Done (t1, true))
      by (eexists; vm_compute; reflexivity).
    destruct E as [t1 E].
    destruct (H5 t1 E) as (Hfind & t2 & Hins & Hsz2 & Hfind2 & _).
    exists t1, t2. split_and!; assumption.
  - assert (E : AVLTable.find Hash.mix Demo.avl_table 31 = Done (Some 310%Z))
      by (vm_compute; reflexivity).
    split; [exact E|exact (H6 E)].
Defined.



(** C4. On every AVL table that a caller can reach from a fresh table of
    positive capacity, the tree of every bucket is a binary search tree
    (its in-order traversal meets the keys in strictly increasing order)
    and an AVL tree: at every node the heights of the two subtrees differ
    by one at most, and the stored [height] is one more than the larger of
    them, the height of an absent subtree being 0. *)
Theorem C4_buckets_are_balanced_search_trees (hasher : Z → Z)
    (t : AVLTable.AVLHashTable) (i : nat) (n : AVLTable.AVLNode) :
  Base.reachable (Base.avl_buckets hasher) AVLTable.new t →
  AVLTable.table t !! i = Some n →
  StronglySorted Z.lt (AVLOrder.keys n) ∧ AVLBalance.balanced n.
Proof.
  intros [m [HI _]]%Variants.avl_buckets_reachable Hn.
  destruct (AVLInv.inv_trees _ _ _ HI _ _ Hn) as [Hb Ha].
  split; [exact Hb|by apply AVLBalance.avl_balanced].
Qed.

Lemma C4_buckets_are_balanced_search_trees_witness :
  StronglySorted Z.lt
    (AVLOrder.keys (AVLTable.node 31 310 1 AVLTable.null AVLTable.null))
  ∧ AVLBalance.balanced (AVLTable.node 31 310 1 AVLTable.null AVLTable.null).
Proof.
  apply (C4_buckets_are_balanced_search_trees Hash.mix Demo.avl_table 0 _
           Demo.avl_table_reachable).
  reflexivity.
Defined.

(** C5. On a table that a caller can reach, when the load factor exceeds
    the threshold of the variant ([table_size < 2 * current_size] for the
    factor 0.5 of open addressing, [table_size < current_size] for the
    factor 1.0 of the AVL table), [insert] first calls [resize], which
    returns a table of exactly twice the capacity on which [size()] and the
    answer of [find] for every key are what they were. For open addressing
    the new table has no [DELETED] slot, and each of its [OCCUPIED] slots
    holds an entry that an [OCCUPIED] slot of the old table held. *)
Theorem C5_growth_keeps_the_contents (hasher : Z → Z) (fuel : nat)
    (t : OpenAddressing.HashTable) (t' : AVLTable.AVLHashTable) :
  1 ≤ fuel →
  Base.reachable (Base.open_addressing hasher) OpenAddressing.new t →
  Base.reachable (Base.avl_buckets hasher) AVLTable.new t' →
  (OpenAddressing.table_size t < 2 * OpenAddressing.current_size t →
   ∃ t1,
     OpenAddressing.resize (OpenAddressing.insert hasher fuel) t = Done t1
     ∧ (∀ k v, OpenAddressing.insert hasher (S fuel) t k v
               = OpenAddressing.place hasher t1 k v)
     ∧ OpenAddressing.table_size t1 = 2 * OpenAddressing.table_size t
     ∧ length (OpenAddressing.table t1) = OpenAddressing.table_size t1
     ∧ OpenAddressing.size t1 = OpenAddressing.size t
     ∧ (∀ k, OpenAddressing.find hasher t1 k = OpenAddressing.find hasher t k)
     ∧ (∀ i e, OpenAddressing.table t1 !! i = Some e →
               OpenAddressing.state e ≠ OpenAddressing.DELETED)
     ∧ (∀ i e, OpenAddressing.table t1 !! i = Some e →
               OpenAddressing.state e = OpenAddressing.OCCUPIED →
               ∃ j, OpenAddressing.table t !! j = Some e))
  ∧ (AVLTable.table_size t' < AVLTable.current_size t' →
     ∃ t1,
       AVLTable.resize (AVLTable.insert hasher fuel) t' = Done t1
       ∧ (∀ k v, AVLTable.insert hasher (S fuel) t' k v
                 = AVLTable.place hasher t1 k v)
       ∧ AVLTable.table_size t1 = 2 * AVLTable.table_size t'
       ∧ length (AVLTable.table t1) = AVLTable.table_size t1
       ∧ AVLTable.size t1 = AVLTable.size t'
       ∧ (∀ k, AVLTable.find hasher t1 k = AVLTable.find hasher t' k)).
Proof.
  intros Hf [m HI]%Variants.open_addressing_reachable
    [m' [HI' Hl']]%Variants.avl_buckets_reachable.
  destruct fuel as [|fuel]; [lia|]. split.
  - intros Hov.
    destruct (OpenAddressingInv.oa_resize_spec hasher t m fuel HI)
      as (t1 & Hre & HI1 & Hno & Hsz).
    exists t1. split_and!; try done.
    + intros k v. rewrite OpenAddressingInv.oa_insert_unfold.
      unfold OpenAddressing.over_load.
      destruct (Nat.ltb_spec (OpenAddressing.table_size t)
                  (2 * OpenAddressing.current_size t)); [|lia].
      by rewrite Hre.
    + lia.
    + apply (OpenAddressingInv.inv_shape _ _ _ HI1).
    + unfold OpenAddressing.size.
      by rewrite (OpenAddressingInv.inv_size _ _ _ HI1),
        (OpenAddressingInv.inv_size _ _ _ HI).
    + intros k. by rewrite (OpenAddressingInv.oa_find_spec _ _ _ k HI1),
        (OpenAddressingInv.oa_find_spec _ _ _ k HI).
    + intros i e He Hs.
      assert (OpenAddressingInv.live t1 i (OpenAddressing.key e)
                (OpenAddressing.value e)) as Hlive.
      { unfold OpenAddressingInv.live. rewrite He.
        destruct e; simpl in *; by subst. }
      assert (m !! OpenAddressing.key e = Some (OpenAddressing.value e)) as Hm.
      { apply (OpenAddressingInv.inv_content _ _ _ HI1). eauto. }
      apply (OpenAddressingInv.inv_content _ _ _ HI) in Hm as [j Hj].
      exists j. unfold OpenAddressingInv.live in Hj. rewrite Hj.
      destruct e; simpl in *; by subst.
  - intros Hov.
    destruct (AVLInv.avl_resize_spec hasher t' m' fuel HI')
      as (t1 & Hre & HI1 & Hsz).
    { unfold AVLInv.within_load in Hl'.
      destruct (AVLInv.inv_shape _ _ _ HI'). lia. }
    exists t1. split_and!; try done.
    + intros k v. rewrite AVLInv.avl_insert_unfold. unfold AVLTable.over_load.
      destruct (Nat.ltb_spec (AVLTable.table_size t')
                  (AVLTable.current_size t')); [|lia].
      by rewrite Hre.
    + lia.
    + apply (AVLInv.inv_shape _ _ _ HI1).
    + unfold AVLTable.size.
      by rewrite (AVLInv.inv_size _ _ _ HI1), (AVLInv.inv_size _ _ _ HI').
    + intros k. by rewrite (AVLInv.avl_find_spec _ _ _ k HI1),
        (AVLInv.avl_find_spec _ _ _ k HI').
Qed.

Lemma C5_growth_keeps_the_contents_witness :
  (∃ t1,
     OpenAddressing.resize (OpenAddressing.insert Hash.mix 1)
       DemoLoaded.open_addressing_table = Done t1
     ∧ OpenAddressing.table_size t1 = 4
     ∧ OpenAddressing.size t1 = 2)
  ∧ (∃ t1,
       AVLTable.resize (AVLTable.insert Hash.mix 1) DemoLoaded.avl_table
       = Done t1
       ∧ AVLTable.table_size t1 = 2
       ∧ AVLTable.size t1 = 2).
Proof.
  destruct (C5_growth_keeps_the_contents Hash.mix 1
              DemoLoaded.open_addressing_table DemoLoaded.avl_table)
    as [H1 H2].
  - lia.
  - exact DemoLoaded.loaded_open_addressing_reachable.
  - exact DemoLoaded.loaded_avl_reachable.
  - split.
    + destruct H1 as (t1 & Hre & _ & Hsz & _ & Hsize & _); [simpl; lia|].
      exists t1. split; [exact Hre|]. split; [exact Hsz|exact Hsize].
    + destruct H2 as (t1 & Hre & _ & Hsz & _ & Hsize & _); [simpl; lia|].
      exists t1. split; [exact Hre|]. split; [exact Hsz|exact Hsize].
Defined.

(** C6. Open addressing, on a table that a caller can reach: [insert]
    returns, and it answers [false] exactly when [probe], on the table as
    the load-factor test leaves it (the grown one when the load was above
    0.5), went round all the slots without one that is [EMPTY] or holds
    the key and is back at the slot it started from, [hash_function(key)],
    with that slot [OCCUPIED]. The [DELETED] slots that [probe] passes on
    its way do not count: only a [DELETED] slot at the start index is
    written over. When [insert] answers [false] the table did not grow and
    is left as it was, every entry, every state and [size()] included. The
    [insert] of the AVL table answers [true]. *)
Theorem C6_insert_fails_after_a_full_wrap (hasher : Z → Z) (fuel : nat)
    (t : OpenAddressing.HashTable) (t' : AVLTable.AVLHashTable) (k v : Z) :
  2 ≤ fuel →
  Base.reachable (Base.open_addressing hasher) OpenAddressing.new t →
  Base.reachable (Base.avl_buckets hasher) AVLTable.new t' →
  (∃ t0 t1 b,
     (if OpenAddressing.over_load t
      then OpenAddressing.resize (OpenAddressing.insert hasher (fuel - 1)) t
      else Done t) = Done t0
     ∧ OpenAddressing.insert hasher fuel t k v = Done (t1, b)
     ∧ (b = false
        ↔ (∀ j e, OpenAddressing.table t0 !! j = Some e →
             OpenAddressing.state e ≠ OpenAddressing.EMPTY
             ∧ ¬ (OpenAddressing.state e = OpenAddressing.OCCUPIED
                  ∧ OpenAddressing.key e = k))
          ∧ ∃ h e,
              OpenAddressing.hash_function hasher k
                (OpenAddressing.table_size t0) = Done h
              ∧ OpenAddressing.probe hasher t0 k = Done h
              ∧ OpenAddressing.table t0 !! h = Some e
              ∧ OpenAddressing.state e = OpenAddressing.OCCUPIED)
     ∧ (b = false → t0 = t ∧ t1 = t))
  ∧ ∃ t2, AVLTable.insert hasher fuel t' k v = Done (t2, true).
Proof.
  intros Hf [m HI]%Variants.open_addressing_reachable
    [m' [HI' Hl']]%Variants.avl_buckets_reachable.
  split.
  - exact (Saturation.oa_insert_saturated hasher t m k v fuel HI Hf).
  - destruct (AVLInv.avl_insert_spec hasher t' m' k v fuel HI' Hl' Hf)
      as (t2 & Hins & _).
    by exists t2.
Qed.

Lemma C6_insert_fails_after_a_full_wrap_witness :
  (OpenAddressing.insert Hash.mix 2 DemoTombstone.tombstone_table 5 50
   = Done (DemoTombstone.tombstone_table, false)
   ∧ (∀ j e, OpenAddressing.table DemoTombstone.tombstone_table !! j = Some e →
        OpenAddressing.state e ≠ OpenAddressing.EMPTY
        ∧ ¬ (OpenAddressing.state e = OpenAddressing.OCCUPIED
             ∧ OpenAddressing.key e = 5%Z))
   ∧ OpenAddressing.hash_function Hash.mix 5 2 = Done 0
   ∧ OpenAddressing.probe Hash.mix DemoTombstone.tombstone_table 5 = Done 0
   ∧ OpenAddressing.table DemoTombstone.tombstone_table !! 0
     = Some (OpenAddressing.mkEntry 2 20 OpenAddressing.OCCUPIED))
  ∧ (∃ t1,
       OpenAddressing.insert Hash.mix 2 DemoTombstone.tombstone_table 1 11
       = Done (t1, true))
  ∧ ∃ t2, AVLTable.insert Hash.mix 2 Demo.avl_table 5 50 = Done (t2, true).
Proof.
  destruct (C6_insert_fails_after_a_full_wrap Hash.mix 2
              DemoTombstone.tombstone_table Demo.avl_table 5 50)
    as [(t0 & t1 & b & Hgrow & Hins & Hiff & Hsame) Havl];
    [lia | exact DemoTombstone.tombstone_table_reachable
    | exact Demo.avl_table_reachable | ].
  destruct (C6_insert_fails_after_a_full_wrap Hash.mix 2
              DemoTombstone.tombstone_table Demo.avl_table 1 11)
    as [(u0 & u1 & c & Hgrow' & Hins' & Hiff' & _) _];
    [lia | exact DemoTombstone.tombstone_table_reachable
    | exact Demo.avl_table_reachable | ].
  refine (conj _ (conj _ Havl)).
  - assert (E : OpenAddressing.insert Hash.mix 2 DemoTombstone.tombstone_table
                  5 50 = Done (DemoTombstone.tombstone_table, false))
      by (vm_compute; reflexivity).
    rewrite E in Hins. injection Hins as <- <-.
    simpl in Hgrow. injection Hgrow as <-.
    destruct (proj1 Hiff eq_refl) as (Hall & h & e & Hh & Hp & He & Hst).
    assert (h = 0) as ->.
    { vm_compute in Hh. by injection Hh as <-. }
    split_and!; [exact E|exact Hall|exact Hh|exact Hp|].
    simpl in He. injection He as <-. reflexivity.
  - exists u1. destruct c; [exact Hins'|exfalso].
    simpl in Hgrow'. injection Hgrow' as <-.
    destruct (proj1 Hiff' eq_refl) as (_ & h & e & Hh & _ & He & Hst).
    assert (h = 1) as ->.
    { vm_compute in Hh. by injection Hh as <-. }
    simpl in He. injection He as <-. discriminate Hst.
Defined.

(** C6 as it is worded, with the [DELETED] slots counted among those whose
    absence makes [insert] fail, does not hold of the code. After
    [insert(2)], [insert(1)] and [remove(1)] on a capacity of 2, slot 0
    holds key 2 and slot 1 is [DELETED]; the load factor is 0.5, so
    [insert(5)] does not grow the table; [probe(5)] starts at slot 0, passes
    the tombstone in slot 1 and is back at slot 0, which is [OCCUPIED] by
    key 2, and [insert] answers [false], although the probe met a [DELETED]
    slot. The same happens with the identity for [std::hash<int>] on the
    keys 0, 1 and 2. *)
Lemma C6_insert_fails_beside_a_tombstone :
  let t :=
    OpenAddressing.mkTable
      [OpenAddressing.mkEntry 2 20 OpenAddressing.OCCUPIED;
       OpenAddressing.mkEntry 1 10 OpenAddressing.DELETED] 2 1 in
  let t' :=
    OpenAddressing.mkTable
      [OpenAddressing.mkEntry 0 0 OpenAddressing.OCCUPIED;
       OpenAddressing.mkEntry 1 10 OpenAddressing.DELETED] 2 1 in
  let found_none (t : OpenAddressing.HashTable) (k : Z) :=
    ∀ j e, OpenAddressing.table t !! j = Some e →
      OpenAddressing.state e ≠ OpenAddressing.EMPTY
      ∧ OpenAddressing.state e ≠ OpenAddressing.DELETED
      ∧ ¬ (OpenAddressing.state e = OpenAddressing.OCCUPIED
           ∧ OpenAddressing.key e = k) in
  Base.run (Base.open_addressing Hash.mix) 2
    [Base.Insert 2 20; Base.Insert 1 10; Base.Remove 1] (OpenAddressing.new 2)
  = Done (t, [Base.Flag true; Base.Flag true; Base.Flag true])
  ∧ OpenAddressing.insert Hash.mix 2 t 5 50 = Done (t, false)
  ∧ ¬ ((∃ t1, OpenAddressing.insert Hash.mix 2 t 5 50 = Done (t1, false))
       ↔ found_none t 5%Z)
  ∧ Base.run (Base.open_addressing Hash.std_hash_identity) 2
      [Base.Insert 0 0; Base.Insert 1 10; Base.Remove 1] (OpenAddressing.new 2)
    = Done (t', [Base.Flag true; Base.Flag true; Base.Flag true])
  ∧ OpenAddressing.insert Hash.std_hash_identity 2 t' 2 20 = Done (t', false)
  ∧ ¬ ((∃ t1, OpenAddressing.insert Hash.std_hash_identity 2 t' 2 20
              = Done (t1, false))
       ↔ found_none t' 2%Z).
Proof.
  intros t t' found_none.
  assert (E : OpenAddressing.insert Hash.mix 2 t 5 50 = Done (t, false))
    by (vm_compute; reflexivity).
  assert (E' : OpenAddressing.insert Hash.std_hash_identity 2 t' 2 20
               = Done (t', false)) by (vm_compute; reflexivity).
  split_and!; [vm_compute; reflexivity|exact E| |vm_compute; reflexivity|exact E'|].
  - intros [Hfound _].
    destruct (Hfound (ex_intro _ t E) 1
                (OpenAddressing.mkEntry 1 10 OpenAddressing.DELETED) eq_refl)
      as (_ & Hd & _).
    by apply Hd.
  - intros [Hfound _].
    destruct (Hfound (ex_intro _ t' E') 1
                (OpenAddressing.mkEntry 1 10 OpenAddressing.DELETED) eq_refl)
      as (_ & Hd & _).
    by apply Hd.
Qed.

(** C7. For both tables, on a table that a caller can reach: [remove(k)]
    returns; it answers [true] exactly when the key is live in the table
    (an [OCCUPIED] slot holds it, or the tree of a bucket does); when it
    answers [true], [size()] goes down by one; when it answers [false], the
    table is left as it was, [size()] and every stored pair included. *)
Theorem C7_remove_reports_presence (hasher : Z → Z)
    (t : OpenAddressing.HashTable) (t' : AVLTable.AVLHashTable) (k : Z) :
  Base.reachable (Base.open_addressing hasher) OpenAddressing.new t →
  Base.reachable (Base.avl_buckets hasher) AVLTable.new t' →
  (∃ t1 b,
     OpenAddressing.remove hasher t k = Done (t1, b)
     ∧ (b = true
        ↔ ∃ i v, OpenAddressing.table t !! i
                 = Some (OpenAddressing.mkEntry k v OpenAddressing.OCCUPIED))
     ∧ (b = true → OpenAddressing.size t = S (OpenAddressing.size t1))
     ∧ (b = false → t1 = t))
  ∧ (∃ t1 b,
       AVLTable.remove hasher t' k = Done (t1, b)
       ∧ (b = true
          ↔ ∃ i n, AVLTable.table t' !! i = Some n ∧ k ∈ AVLOrder.keys n)
       ∧ (b = true → AVLTable.size t' = S (AVLTable.size t1))
       ∧ (b = false → t1 = t')).
Proof.
  intros [m HI]%Variants.open_addressing_reachable
    [m' HI']%Variants.avl_buckets_reachable.
  split.
  - destruct (Refinement.remove_answer _ _ (Variants.open_addressing_stores hasher)
                t m k HI) as (t1 & b & Hrem & Hb & Hsz & Hid & _).
    exists t1, b. split_and!; try done.
    rewrite Hb. split.
    + intros [w [i Hi]%(OpenAddressingInv.inv_content _ _ _ HI)]. by exists i, w.
    + intros (i & w & Hi). exists w.
      apply (OpenAddressingInv.inv_content _ _ _ HI). by exists i.
  - destruct (Refinement.remove_answer _ _ (Variants.avl_buckets_stores hasher)
                t' m' k HI') as (t1 & b & Hrem & Hb & Hsz & Hid & _).
    exists t1, b. split_and!; try done.
    destruct HI' as [HI' _]. rewrite Hb. split.
    + intros [w (i & n & Hn & Hin)%(AVLInv.inv_content _ _ _ HI')].
      exists i, n. split; [done|]. apply AVLOrder.elem_of_keys. eauto.
    + intros (i & n & Hn & [w Hin]%AVLOrder.elem_of_keys). exists w.
      apply (AVLInv.inv_content _ _ _ HI'). eauto.
Qed.

Lemma C7_remove_reports_presence_witness :
  ∃ t1 b,
    OpenAddressing.remove Hash.mix Demo.open_addressing_table 999 = Done (t1, b)
    ∧ (b = true
       ↔ ∃ i v, OpenAddressing.table Demo.open_addressing_table !! i
                = Some (OpenAddressing.mkEntry 999 v OpenAddressing.OCCUPIED))
    ∧ (b = true →
       OpenAddressing.size Demo.open_addressing_table
       = S (OpenAddressing.size t1))
    ∧ (b = false → t1 = Demo.open_addressing_table).
Proof.
  apply (C7_remove_reports_presence Hash.mix Demo.open_addressing_table
           Demo.avl_table 999).
  - exact Demo.open_addressing_table_reachable.
  - exact Demo.avl_table_reachable.
Defined.

(** C8. On a table of positive capacity, [probe] terminates after it has
    examined [table_size] slots at most (one unit of fuel pays for one slot,
    and [table_size] units are enough), and the index it returns is that of
    an [EMPTY] slot, or of the slot [OCCUPIED] by the key, or else the index
    it started from, [hash_function(key)], and then no slot of the table is
    [EMPTY] or holds the key: the table is never declared full before all
    of its slots were examined. *)
Theorem C8_probe_terminates_and_wraps (hasher : Z → Z)
    (t : OpenAddressing.HashTable) (k : Z) :
  length (OpenAddressing.table t) = OpenAddressing.table_size t →
  0 < OpenAddressing.table_size t →
  ∃ h i e,
    OpenAddressing.hash_function hasher k (OpenAddressing.table_size t) = Done h
    ∧ (∀ fuel, OpenAddressing.table_size t ≤ fuel →
         OpenAddressing.probe_loop fuel t k h h = Done i)
    ∧ OpenAddressing.probe hasher t k = Done i
    ∧ OpenAddressing.table t !! i = Some e
    ∧ (OpenAddressing.state e = OpenAddressing.EMPTY
       ∨ (OpenAddressing.state e = OpenAddressing.OCCUPIED
          ∧ OpenAddressing.key e = k)
       ∨ (i = h
          ∧ ∀ j e', OpenAddressing.table t !! j = Some e' →
              OpenAddressing.state e' ≠ OpenAddressing.EMPTY
              ∧ ¬ (OpenAddressing.state e' = OpenAddressing.OCCUPIED
                   ∧ OpenAddressing.key e' = k))).
Proof.
  intros Hlen Hpos.
  assert (Hs : OpenAddressingProbe.well_shaped t) by done.
  destruct (OpenAddressingProbe.probe_spec hasher t k Hs)
    as (h & i & Hh & Hhlt & Hp & Hfuel & Hres).
  assert (Hi : i < length (OpenAddressing.table t)).
  { rewrite Hlen. by eapply OpenAddressingProbe.probe_result_lt. }
  destruct (lookup_lt_is_Some_2 _ _ Hi) as [e He].
  exists h, i, e. split_and!; try done.
  destruct Hres as [d Hd Hid (e1 & He1 & Hstop) _| -> Hall].
  - assert (e1 = e) as -> by congruence.
    apply OpenAddressingProbe.keeps_probing_false in Hstop as [?|Hho]; [by left|].
    right; left. by apply OpenAddressingProbe.holds_true.
  - right; right. split; [done|]. intros j e' Hj.
    destruct (ProbeCycle.slot_after_cover (OpenAddressing.table_size t) h j)
      as (d & Hd & <-); [done| |].
    { rewrite <- Hlen. by eapply lookup_lt_Some. }
    destruct (Hall d Hd) as (e2 & He2 & [Hne Hho]%OpenAddressingProbe.keeps_probing_true).
    assert (e2 = e') as -> by congruence. split; [done|].
    by apply OpenAddressingProbe.holds_false.
Qed.

Lemma C8_probe_terminates_and_wraps_witness :
  ∃ h i e,
    OpenAddressing.hash_function Hash.mix 22
      (OpenAddressing.table_size Demo.open_addressing_table) = Done h
    ∧ (∀ fuel, OpenAddressing.table_size Demo.open_addressing_table ≤ fuel →
         OpenAddressing.probe_loop fuel Demo.open_addressing_table 22 h h
         = Done i)
    ∧ OpenAddressing.probe Hash.mix Demo.open_addressing_table 22 = Done i
    ∧ OpenAddressing.table Demo.open_addressing_table !! i = Some e
    ∧ (OpenAddressing.state e = OpenAddressing.EMPTY
       ∨ (OpenAddressing.state e = OpenAddressing.OCCUPIED
          ∧ OpenAddressing.key e = 22%Z)
       ∨ (i = h
          ∧ ∀ j e', OpenAddressing.table Demo.open_addressing_table !! j
                    = Some e' →
              OpenAddressing.state e' ≠ OpenAddressing.EMPTY
              ∧ ¬ (OpenAddressing.state e' = OpenAddressing.OCCUPIED
                   ∧ OpenAddressing.key e' = 22%Z))).
Proof.
  apply (C8_probe_terminates_and_wraps Hash.mix Demo.open_addressing_table 22).
  - reflexivity.
  - simpl. lia.
Defined.

(** C9. For every integer key, the negative ones included, and every
    positive capacity, [hash_function] returns an index that is at least 0
    and below the capacity: with any [size_t] value for the hash of the key
    before the reduction (the versions of the header that call
    [std::hash<int>]), and with the multiplicative mix (the third version).
    It is a function of the key and the capacity: two calls on the same
    arguments return the same index. *)
Theorem C9_hash_function_in_range (hasher : Z → Z) (key : Z) (table_size : nat) :
  0 < table_size →
  (∃ i, Hash.hash_function hasher key table_size = Done i ∧ i < table_size)
  ∧ (∃ i, Hash.hash_function Hash.mix key table_size = Done i
          ∧ i < table_size
          ∧ i = Z.to_nat (Hash.mix key mod Z.of_nat table_size))
  ∧ (∀ r1 r2, Hash.hash_function hasher key table_size = r1 →
              Hash.hash_function hasher key table_size = r2 → r1 = r2).
Proof.
  intros Hn. split; [by apply HashFacts.hash_function_Done|]. split.
  - destruct (HashFacts.hash_function_Done Hash.mix key table_size Hn) as (i & Hi & Hlt).
    exists i. split_and!; try done.
    unfold Hash.hash_function in Hi.
    destruct (Nat.eqb_spec table_size 0); [lia|]. injection Hi as <-.
    unfold Hash.size_t. rewrite (Z.mod_small (Hash.mix key)); [done|].
    pose proof (HashFacts.mix_range key). lia.
  - congruence.
Qed.

Lemma C9_hash_function_in_range_witness :
  0 < 16
  ∧ ∃ i, Hash.hash_function Hash.std_hash_identity (-7) 16 = Done i ∧ i < 16.
Proof.
  split; [lia|].
  apply (C9_hash_function_in_range Hash.std_hash_identity (-7) 16). lia.
Defined.

(** C10. A table constructed with a capacity of at least 1 keeps a positive
    capacity through every sequence of calls: every call returns (no
    remainder by zero, no index outside the vector), the vector has
    [table_size] slots, and the index that [probe] (open addressing) or
    [hash_function] (AVL buckets) computes for a key is inside it. On a
    table constructed with capacity 0, which the constructors accept, the
    first [insert], [find] or [remove] reduces modulo zero. *)
Theorem C10_positive_capacity_is_needed (hasher : Z → Z) (n fuel : nat)
    (cs : list Base.call) (k v : Z) :
  0 < n → 2 ≤ fuel →
  (∃ t rs,
     Base.run (Base.open_addressing hasher) fuel cs (OpenAddressing.new n)
     = Done (t, rs)
     ∧ 0 < OpenAddressing.table_size t
     ∧ length (OpenAddressing.table t) = OpenAddressing.table_size t
     ∧ ∃ i, OpenAddressing.probe hasher t k = Done i
            ∧ i < length (OpenAddressing.table t))
  ∧ (∃ t rs,
       Base.run (Base.avl_buckets hasher) fuel cs (AVLTable.new n)
       = Done (t, rs)
       ∧ 0 < AVLTable.table_size t
       ∧ length (AVLTable.table t) = AVLTable.table_size t
       ∧ ∃ i, AVLTable.hash_function hasher k (AVLTable.table_size t) = Done i
              ∧ i < length (AVLTable.table t))
  ∧ OpenAddressing.insert hasher fuel (OpenAddressing.new 0) k v = ModZero
  ∧ OpenAddressing.find hasher (OpenAddressing.new 0) k = ModZero
  ∧ OpenAddressing.remove hasher (OpenAddressing.new 0) k = ModZero
  ∧ AVLTable.insert hasher fuel (AVLTable.new 0) k v = ModZero
  ∧ AVLTable.find hasher (AVLTable.new 0) k = ModZero
  ∧ AVLTable.remove hasher (AVLTable.new 0) k = ModZero.
Proof.
  intros Hn Hf. split_and!.
  - destruct (Refinement.run_spec _ _ (Variants.open_addressing_stores hasher)
                fuel cs _ _ (Variants.open_addressing_new hasher n Hn) Hf)
      as (t & rs & m & Hrun & HI).
    destruct (OpenAddressingInv.inv_shape _ _ _ HI) as [Hlen Hpos].
    exists t, rs. split_and!; try done.
    destruct (OpenAddressingProbe.probe_spec hasher t k (conj Hlen Hpos))
      as (h & i & _ & Hh & Hp & _ & Hres).
    exists i. split; [done|]. rewrite Hlen.
    by eapply OpenAddressingProbe.probe_result_lt.
  - destruct (Refinement.run_spec _ _ (Variants.avl_buckets_stores hasher)
                fuel cs _ _ (Variants.avl_buckets_new hasher n Hn) Hf)
      as (t & rs & m & Hrun & [HI _]).
    destruct (AVLInv.inv_shape _ _ _ HI) as [Hlen Hpos].
    exists t, rs. split_and!; try done.
    destruct (HashFacts.hash_function_Done hasher k _ Hpos) as (i & Hi & Hlt).
    exists i. split; [done|]. by rewrite Hlen.
  - destruct fuel; [lia|]. reflexivity.
  - reflexivity.
  - reflexivity.
  - destruct fuel; [lia|]. reflexivity.
  - reflexivity.
  - reflexivity.
Qed.

Lemma C10_positive_capacity_is_needed_witness :
  (∃ t rs,
     Base.run (Base.open_addressing Hash.mix) 2 Demo.calls (OpenAddressing.new 8)
     = Done (t, rs)
     ∧ 0 < OpenAddressing.table_size t)
  ∧ OpenAddressing.insert Hash.mix 2 (OpenAddressing.new 0) 10 100 = ModZero.
Proof.
  destruct (C10_positive_capacity_is_needed Hash.mix 8 2 Demo.calls 10 100)
    as ((t & rs & Hrun & Hpos & _) & _ & Hzero & _); [lia|lia|].
  split; [by exists t, rs|exact Hzero].
Defined.

(** * Part IV: further properties of the code *)

(** X1. The third version of [hash_function] mixes the key one-to-one:
    two different [int] keys (between -2^31 and 2^31 - 1) never get the
    same 32-bit value before the reduction modulo the capacity. In
    particular a key and its negation are mixed apart: the key is cast to
    [unsigned int], its absolute value is not taken. Two keys can share a
    slot through the reduction only. *)
Theorem mix_separates_int_keys (k1 k2 : Z) :
  (- 2 ^ 31 ≤ k1 < 2 ^ 31)%Z → (- 2 ^ 31 ≤ k2 < 2 ^ 31)%Z → k1 ≠ k2 →
  Hash.mix k1 ≠ Hash.mix k2.
Proof.
  intros H1 H2 Hne Hmix. apply HashMixing.mix_inj_uint32 in Hmix.
  unfold Hash.uint32 in Hmix.
  pose proof (Z.div_mod k1 (2 ^ 32) ltac:(lia)).
  pose proof (Z.div_mod k2 (2 ^ 32) ltac:(lia)).
  lia.
Qed.

Lemma mix_separates_int_keys_witness : Hash.mix 1 ≠ Hash.mix (-1).
Proof. apply (mix_separates_int_keys 1 (-1)); lia. Defined.

(** X2. [clear()] on a table that a caller can reach, for both tables:
    [size()] is 0, the capacity is what it was, [find] answers [false] for
    every key, and the next [insert] answers [true] and is found. The
    open-addressing table has every slot [EMPTY] (the tombstones are gone
    too); the AVL table has every bucket null. *)
Theorem clear_empties_the_table (hasher : Z → Z) (fuel : nat)
    (t : OpenAddressing.HashTable) (t' : AVLTable.AVLHashTable) (k v : Z) :
  2 ≤ fuel →
  Base.reachable (Base.open_addressing hasher) OpenAddressing.new t →
  Base.reachable (Base.avl_buckets hasher) AVLTable.new t' →
  (OpenAddressing.size (OpenAddressing.clear t) = 0
   ∧ OpenAddressing.table_size (OpenAddressing.clear t)
     = OpenAddressing.table_size t
   ∧ (∀ i e, OpenAddressing.table (OpenAddressing.clear t) !! i = Some e →
        OpenAddressing.state e = OpenAddressing.EMPTY)
   ∧ OpenAddressing.find hasher (OpenAddressing.clear t) k = Done None
   ∧ ∃ t1, OpenAddressing.insert hasher fuel (OpenAddressing.clear t) k v
           = Done (t1, true)
       ∧ OpenAddressing.find hasher t1 k = Done (Some v))
  ∧ (AVLTable.size (AVLTable.clear t') = 0
     ∧ AVLTable.table_size (AVLTable.clear t') = AVLTable.table_size t'
     ∧ AVLTable.table (AVLTable.clear t')
       = replicate (AVLTable.table_size t') AVLTable.null
     ∧ AVLTable.find hasher (AVLTable.clear t') k = Done None
     ∧ ∃ t1, AVLTable.insert hasher fuel (AVLTable.clear t') k v
             = Done (t1, true)
         ∧ AVLTable.find hasher t1 k = Done (Some v)).
Proof.
  intros Hf [m HI]%Variants.open_addressing_reachable
    [m' [HI' _]]%Variants.avl_buckets_reachable.
  split.
  - pose proof (OpenAddressingInv.oa_Inv_clear hasher t
                  (OpenAddressingInv.inv_shape _ _ _ HI)) as HIc.
    split_and!; try done.
    + apply OpenAddressingSteps.clear_all_empty.
    + by rewrite (OpenAddressingInv.oa_find_spec _ _ _ k HIc).
    + destruct (OpenAddressingInv.oa_insert_true hasher _ _ k v fuel HIc
                  (OpenAddressingSteps.clear_no_tombstone t) Hf)
        as (t1 & Hins & HI1 & _).
      exists t1. split; [done|].
      by rewrite (OpenAddressingInv.oa_find_spec _ _ _ k HI1), lookup_insert_eq.
  - pose proof (AVLInv.avl_Inv_clear hasher t' m' HI') as HIc.
    destruct (AVLInv.inv_shape _ _ _ HI') as [Hlen Hpos].
    split_and!; try done.
    + simpl. rewrite <- Hlen. clear. induction (AVLTable.table t'); simpl; [done|].
      by f_equal.
    + by rewrite (AVLInv.avl_find_spec _ _ _ k HIc).
    + destruct (AVLInv.avl_insert_spec hasher _ _ k v fuel HIc) as (t1 & Hins & HI1 & _);
        [unfold AVLInv.within_load; simpl; lia|done|].
      exists t1. split; [done|].
      by rewrite (AVLInv.avl_find_spec _ _ _ k HI1), lookup_insert_eq.
Qed.

Lemma clear_empties_the_table_witness :
  OpenAddressing.size (OpenAddressing.clear Demo.open_addressing_table) = 0
  ∧ OpenAddressing.find Hash.mix (OpenAddressing.clear Demo.open_addressing_table) 10
    = Done None
  ∧ AVLTable.find Hash.mix (AVLTable.clear Demo.avl_table) 10 = Done None.
Proof.
  destruct (clear_empties_the_table Hash.mix 2 Demo.open_addressing_table
              Demo.avl_table 10 100)
    as ((H1 & _ & _ & H2 & _) & (_ & _ & _ & H3 & _)).
  - lia.
  - exact Demo.open_addressing_table_reachable.
  - exact Demo.avl_table_reachable.
  - split; [exact H1|]. split; [exact H2|exact H3].
Defined.

(** X3. After any sequence of calls on a fresh table of capacity [n], for
    both tables: the capacity is [n] times a power of two, with at most one
    doubling for each [insert] of the sequence, and the vector has that
    many slots. Neither [remove] nor [clear] gives capacity back. *)
Theorem capacity_is_doubled_by_insert_only (hasher : Z → Z) (n fuel : nat)
    (cs : list Base.call) :
  0 < n → 2 ≤ fuel →
  (∃ t rs j,
     Base.run (Base.open_addressing hasher) fuel cs (OpenAddressing.new n)
     = Done (t, rs)
     ∧ j ≤ length (filter Agreement.is_insert cs)
     ∧ OpenAddressing.table_size t = n * 2 ^ j
     ∧ length (OpenAddressing.table t) = n * 2 ^ j)
  ∧ (∃ t rs j,
       Base.run (Base.avl_buckets hasher) fuel cs (AVLTable.new n)
       = Done (t, rs)
       ∧ j ≤ length (filter Agreement.is_insert cs)
       ∧ AVLTable.table_size t = n * 2 ^ j
       ∧ length (AVLTable.table t) = n * 2 ^ j).
Proof.
  intros Hn Hf. split.
  - pose proof (Variants.open_addressing_new hasher n Hn) as HI.
    destruct (Refinement.run_spec _ _ (Variants.open_addressing_stores hasher)
                fuel cs _ _ HI Hf) as (t & rs & m & Hrun & HI').
    destruct (OpenAddressingRuns.oa_run_capacity hasher fuel cs _ _ _ _ HI Hf Hrun)
      as (j & Hj & Hsz).
    exists t, rs, j. split_and!; try done.
    destruct (OpenAddressingInv.inv_shape _ _ _ HI') as [-> _]. done.
  - pose proof (Variants.avl_buckets_new hasher n Hn) as HI.
    destruct (Refinement.run_spec _ _ (Variants.avl_buckets_stores hasher)
                fuel cs _ _ HI Hf) as (t & rs & m & Hrun & [HI' _]).
    destruct (AVLSteps.avl_run_capacity hasher fuel cs _ _ _ _ HI Hf Hrun)
      as (j & Hj & Hsz).
    exists t, rs, j. split_and!; try done.
    destruct (AVLInv.inv_shape _ _ _ HI') as [-> _]. done.
Qed.

Lemma capacity_is_doubled_by_insert_only_witness :
  ∃ t rs j,
    Base.run (Base.open_addressing Hash.mix) 2 Demo.calls (OpenAddressing.new 8)
    = Done (t, rs)
    ∧ j ≤ length (filter Agreement.is_insert Demo.calls)
    ∧ OpenAddressing.table_size t = 8 * 2 ^ j
    ∧ length (OpenAddressing.table t) = 8 * 2 ^ j.
Proof.
  apply (capacity_is_doubled_by_insert_only Hash.mix 8 2 Demo.calls); lia.
Defined.

(** X4. The load of a table that a caller can reach is within one entry
    of the threshold: [2 * size() <= table_size + 2] for open addressing
    (factor 0.5), [size() <= table_size + 1] for the AVL table (factor
    1.0). The open-addressing table never holds more live entries than
    slots, and with three slots or more one of them is not [OCCUPIED]. *)
Theorem load_stays_within_one_entry (hasher : Z → Z)
    (t : OpenAddressing.HashTable) (t' : AVLTable.AVLHashTable) :
  Base.reachable (Base.open_addressing hasher) OpenAddressing.new t →
  Base.reachable (Base.avl_buckets hasher) AVLTable.new t' →
  (2 * OpenAddressing.size t ≤ OpenAddressing.table_size t + 2
   ∧ OpenAddressing.size t ≤ OpenAddressing.table_size t
   ∧ (3 ≤ OpenAddressing.table_size t →
      ∃ i e, OpenAddressing.table t !! i = Some e
             ∧ OpenAddressing.state e ≠ OpenAddressing.OCCUPIED))
  ∧ AVLTable.size t' ≤ AVLTable.table_size t' + 1.
Proof.
  intros (m & HI & Hl)%OpenAddressingRuns.oa_reachable_load
    [m' [_ Hl']]%Variants.avl_buckets_reachable.
  split; [|exact Hl'].
  pose proof (OpenAddressingSteps.Inv_current_le _ _ _ HI) as Hle.
  split_and!; try done. intros H3.
  apply (OpenAddressingInv.filter_length_lt_inv
           (λ e, OpenAddressing.state e = OpenAddressing.OCCUPIED)).
  destruct (OpenAddressingInv.inv_shape _ _ _ HI) as [Hlen _].
  pose proof (OpenAddressingInv.inv_count _ _ _ HI) as Hc.
  unfold OpenAddressingInv.occupied_count in Hc. lia.
Qed.

Lemma load_stays_within_one_entry_witness :
  2 * OpenAddressing.size DemoLoaded.open_addressing_table
  ≤ OpenAddressing.table_size DemoLoaded.open_addressing_table + 2
  ∧ AVLTable.size DemoLoaded.avl_table
    ≤ AVLTable.table_size DemoLoaded.avl_table + 1.
Proof.
  destruct (load_stays_within_one_entry Hash.mix
              DemoLoaded.open_addressing_table DemoLoaded.avl_table)
    as ((H1 & _) & H2).
  - exact DemoLoaded.loaded_open_addressing_reachable.
  - exact DemoLoaded.loaded_avl_reachable.
  - split; [exact H1|exact H2].
Defined.

(** X5. On a table that a caller can reach, [size()] counts what is
    stored: the [OCCUPIED] slots of the open-addressing table, no two of
    which hold the same key; the nodes of all the trees of the AVL table,
    where every key of bucket [i] hashes to [i]. *)
Theorem size_counts_the_stored_entries (hasher : Z → Z)
    (t : OpenAddressing.HashTable) (t' : AVLTable.AVLHashTable) :
  Base.reachable (Base.open_addressing hasher) OpenAddressing.new t →
  Base.reachable (Base.avl_buckets hasher) AVLTable.new t' →
  (OpenAddressing.size t
   = length (filter (λ e, OpenAddressing.state e = OpenAddressing.OCCUPIED)
               (OpenAddressing.table t))
   ∧ ∀ i j e e',
       OpenAddressing.table t !! i = Some e →
       OpenAddressing.table t !! j = Some e' →
       OpenAddressing.state e = OpenAddressing.OCCUPIED →
       OpenAddressing.state e' = OpenAddressing.OCCUPIED →
       OpenAddressing.key e = OpenAddressing.key e' → i = j)
  ∧ (AVLTable.size t' = sum_list (AVLCount.node_count <$> AVLTable.table t')
     ∧ ∀ i n k,
         AVLTable.table t' !! i = Some n → k ∈ AVLOrder.keys n →
         AVLTable.hash_function hasher k (AVLTable.table_size t') = Done i).
Proof.
  intros [m HI]%Variants.open_addressing_reachable
    [m' [HI' _]]%Variants.avl_buckets_reachable.
  split; split.
  - apply (OpenAddressingInv.inv_count _ _ _ HI).
  - intros i j [k v s] [k' v' s'] Hi Hj. simpl. intros -> -> <-.
    by eapply (OpenAddressingInv.inv_unique _ _ _ HI).
  - apply (AVLSteps.avl_size_nodes hasher t' m' HI').
  - apply (AVLInv.inv_home _ _ _ HI').
Qed.

Lemma size_counts_the_stored_entries_witness :
  OpenAddressing.size Demo.open_addressing_table
  = length (filter (λ e, OpenAddressing.state e = OpenAddressing.OCCUPIED)
              (OpenAddressing.table Demo.open_addressing_table))
  ∧ AVLTable.size Demo.avl_table
    = sum_list (AVLCount.node_count <$> AVLTable.table Demo.avl_table).
Proof.
  destruct (size_counts_the_stored_entries Hash.mix
              Demo.open_addressing_table Demo.avl_table)
    as ((H1 & _) & (H2 & _)).
  - exact Demo.open_addressing_table_reachable.
  - exact Demo.avl_table_reachable.
  - split; [exact H1|exact H2].
Defined.

(** X6. For both tables, on a table that a caller can reach: [size()] is
    0 exactly when [find] answers [false] for every key. *)
Theorem size_zero_means_nothing_is_found (hasher : Z → Z)
    (t : OpenAddressing.HashTable) (t' : AVLTable.AVLHashTable) :
  Base.reachable (Base.open_addressing hasher) OpenAddressing.new t →
  Base.reachable (Base.avl_buckets hasher) AVLTable.new t' →
  (OpenAddressing.size t = 0
   ↔ ∀ k, OpenAddressing.find hasher t k = Done None)
  ∧ (AVLTable.size t' = 0 ↔ ∀ k, AVLTable.find hasher t' k = Done None).
Proof.
  intros [m HI]%Variants.open_addressing_reachable
    [m' [HI' _]]%Variants.avl_buckets_reachable.
  split.
  - unfold OpenAddressing.size.
    rewrite (OpenAddressingInv.inv_size _ _ _ HI), map_size_empty_iff, map_empty.
    split.
    + intros Hm k. by rewrite (OpenAddressingInv.oa_find_spec _ _ _ k HI), Hm.
    + intros Hf k. specialize (Hf k).
      rewrite (OpenAddressingInv.oa_find_spec _ _ _ k HI) in Hf. congruence.
  - unfold AVLTable.size.
    rewrite (AVLInv.inv_size _ _ _ HI'), map_size_empty_iff, map_empty.
    split.
    + intros Hm k. by rewrite (AVLInv.avl_find_spec _ _ _ k HI'), Hm.
    + intros Hf k. specialize (Hf k).
      rewrite (AVLInv.avl_find_spec _ _ _ k HI') in Hf. congruence.
Qed.

Lemma size_zero_means_nothing_is_found_witness :
  (OpenAddressing.size (OpenAddressing.new 8) = 0
   ↔ ∀ k, OpenAddressing.find Hash.mix (OpenAddressing.new 8) k = Done None)
  ∧ (AVLTable.size Demo.avl_table = 0
     ↔ ∀ k, AVLTable.find Hash.mix Demo.avl_table k = Done None).
Proof.
  apply (size_zero_means_nothing_is_found Hash.mix).
  - exists 8, 2, [], []. split; [lia|]. split; [lia|]. reflexivity.
  - exact Demo.avl_table_reachable.
Defined.

(** X7. Open addressing: a sequence of calls without [remove], on a fresh
    table of positive capacity, returns; every [insert] of it answers
    [true], and the table is left without a [DELETED] slot. *)
Theorem insert_succeeds_without_remove (hasher : Z → Z) (n fuel : nat)
    (cs : list Base.call) :
  0 < n → 2 ≤ fuel → (∀ k, Base.Remove k ∉ cs) →
  ∃ t rs,
    Base.run (Base.open_addressing hasher) fuel cs (OpenAddressing.new n)
    = Done (t, rs)
    ∧ Agreement.inserts_succeed cs rs
    ∧ ∀ i e, OpenAddressing.table t !! i = Some e →
        OpenAddressing.state e ≠ OpenAddressing.DELETED.
Proof.
  intros Hn Hf Hcs.
  destruct (OpenAddressingInv.oa_Inv_new hasher n Hn) as [HI Hno].
  exact (OpenAddressingRuns.oa_run_no_remove hasher fuel cs _ _ HI Hno Hf Hcs).
Qed.

Lemma insert_succeeds_without_remove_witness :
  ∃ t rs,
    Base.run (Base.open_addressing Hash.mix) 2
      [Base.Insert 2 20; Base.Insert 1 10; Base.Clear; Base.Insert 5 50;
       Base.Find 5] (OpenAddressing.new 2)
    = Done (t, rs)
    ∧ Agreement.inserts_succeed
        [Base.Insert 2 20; Base.Insert 1 10; Base.Clear; Base.Insert 5 50;
         Base.Find 5] rs
    ∧ ∀ i e, OpenAddressing.table t !! i = Some e →
        OpenAddressing.state e ≠ OpenAddressing.DELETED.
Proof.
  apply (insert_succeeds_without_remove Hash.mix 2 2).
  - lia.
  - lia.
  - intros k Hk.
    repeat (apply elem_of_cons in Hk as [Hk|Hk]; [discriminate|]).
    by apply elem_of_nil in Hk.
Defined.

(** X8. Open addressing, on a table that a caller can reach: [insert]
    answers [false], and then leaves the table as it was, exactly when
    the load is not above 0.5 (so the table does not grow), no slot is
    [EMPTY], no slot holds the key, and the slot [hash_function(key)] is
    [OCCUPIED]. Whenever it answers [false] the table is unchanged and at
    least half of its slots are [DELETED]. *)
Theorem insert_fails_exactly_when (hasher : Z → Z) (fuel : nat)
    (t : OpenAddressing.HashTable) (k v : Z) :
  2 ≤ fuel →
  Base.reachable (Base.open_addressing hasher) OpenAddressing.new t →
  (OpenAddressing.insert hasher fuel t k v = Done (t, false)
   ↔ 2 * OpenAddressing.size t ≤ OpenAddressing.table_size t
     ∧ (∀ j e, OpenAddressing.table t !! j = Some e →
          OpenAddressing.state e ≠ OpenAddressing.EMPTY
          ∧ ¬ (OpenAddressing.state e = OpenAddressing.OCCUPIED
               ∧ OpenAddressing.key e = k))
     ∧ ∃ h e,
         OpenAddressing.hash_function hasher k (OpenAddressing.table_size t)
         = Done h
         ∧ OpenAddressing.table t !! h = Some e
         ∧ OpenAddressing.state e = OpenAddressing.OCCUPIED)
  ∧ (∀ t', OpenAddressing.insert hasher fuel t k v = Done (t', false) →
       t' = t
       ∧ OpenAddressing.table_size t
         ≤ 2 * length (filter (λ e, OpenAddressing.state e = OpenAddressing.DELETED)
                         (OpenAddressing.table t))).
Proof.
  intros Hf [m HI]%Variants.open_addressing_reachable.
  destruct (OpenAddressingRuns.oa_insert_false_iff hasher t m k v fuel HI Hf)
    as [Hiff Hsame].
  split.
  - rewrite Hiff. unfold OpenAddressing.over_load, OpenAddressing.size.
    rewrite Nat.ltb_ge. split.
    + intros (Hov & Hall & Hh). split_and!; try done.
      intros j e He. destruct (Hall j e He) as [Hne Hho].
      split; [done|]. by apply OpenAddressingProbe.holds_false.
    + intros (Hov & Hall & Hh). split_and!; try done.
      intros j e He. destruct (Hall j e He) as [Hne Hho].
      split; [done|]. by apply OpenAddressingProbe.holds_false.
  - intros t' Hins. split; [by apply Hsame|].
    exact (OpenAddressingRuns.oa_insert_false_tombstones hasher t m k v fuel t'
             HI Hf Hins).
Qed.

Lemma insert_fails_exactly_when_witness :
  (OpenAddressing.insert Hash.mix 2 DemoTombstone.tombstone_table 5 50
   = Done (DemoTombstone.tombstone_table, false)
   ↔ 2 * OpenAddressing.size DemoTombstone.tombstone_table
       ≤ OpenAddressing.table_size DemoTombstone.tombstone_table
     ∧ (∀ j e, OpenAddressing.table DemoTombstone.tombstone_table !! j = Some e →
          OpenAddressing.state e ≠ OpenAddressing.EMPTY
          ∧ ¬ (OpenAddressing.state e = OpenAddressing.OCCUPIED
               ∧ OpenAddressing.key e = 5%Z))
     ∧ ∃ h e,
         OpenAddressing.hash_function Hash.mix 5
           (OpenAddressing.table_size DemoTombstone.tombstone_table) = Done h
         ∧ OpenAddressing.table DemoTombstone.tombstone_table !! h = Some e
         ∧ OpenAddressing.state e = OpenAddressing.OCCUPIED).
Proof.
  apply (insert_fails_exactly_when Hash.mix 2 DemoTombstone.tombstone_table 5 50).
  - lia.
  - exact DemoTombstone.tombstone_table_reachable.
Defined.

(** X9. Open addressing, on a table with [table_size] slots that is not
    above its load factor: the only [DELETED] slot that [insert] overwrites
    is the one at [hash_function(key)], and only when no slot of the table
    is [EMPTY]; the new entry is written there. A tombstone anywhere else
    stays until the table grows or is cleared. *)
Theorem tombstone_is_reused_only_at_the_start (hasher : Z → Z) (fuel : nat)
    (t t' : OpenAddressing.HashTable) (k v : Z) (b : bool) (i : nat)
    (e : OpenAddressing.Entry) :
  1 ≤ fuel →
  length (OpenAddressing.table t) = OpenAddressing.table_size t →
  0 < OpenAddressing.table_size t →
  2 * OpenAddressing.current_size t ≤ OpenAddressing.table_size t →
  OpenAddressing.insert hasher fuel t k v = Done (t', b) →
  OpenAddressing.table t !! i = Some e →
  OpenAddressing.state e = OpenAddressing.DELETED →
  OpenAddressing.table t' !! i ≠ Some e →
  OpenAddressing.hash_function hasher k (OpenAddressing.table_size t) = Done i
  ∧ (∀ j e', OpenAddressing.table t !! j = Some e' →
       OpenAddressing.state e' ≠ OpenAddressing.EMPTY)
  ∧ OpenAddressing.table t' !! i = Some (OpenAddressing.Entry_of k v).
Proof.
  intros Hf Hlen Hpos Hov Hins He Hd Hne.
  destruct fuel as [|fuel]; [lia|].
  eapply (OpenAddressingRuns.oa_tombstone_reuse hasher t k v fuel t' b i e);
    try done.
  unfold OpenAddressing.over_load. apply Nat.ltb_ge. lia.
Qed.

Lemma tombstone_is_reused_only_at_the_start_witness :
  OpenAddressing.hash_function Hash.mix 1
    (OpenAddressing.table_size DemoTombstone.tombstone_table) = Done 1
  ∧ (∀ j e', OpenAddressing.table DemoTombstone.tombstone_table !! j = Some e' →
       OpenAddressing.state e' ≠ OpenAddressing.EMPTY)
  ∧ OpenAddressing.table
      (OpenAddressing.mkTable
         [OpenAddressing.mkEntry 2 20 OpenAddressing.OCCUPIED;
          OpenAddressing.mkEntry 1 11 OpenAddressing.OCCUPIED] 2 2) !! 1
    = Some (OpenAddressing.Entry_of 1 11).
Proof.
  apply (tombstone_is_reused_only_at_the_start Hash.mix 2 DemoTombstone.tombstone_table
           _ 1 11 true 1 (OpenAddressing.mkEntry 1 10 OpenAddressing.DELETED)).
  - lia.
  - reflexivity.
  - simpl. lia.
  - simpl. lia.
  - vm_compute. reflexivity.
  - reflexivity.
  - reflexivity.
  - discriminate.
Defined.

(** X10. For both tables, on a table that a caller can reach: [insert] of
    a key that [find] does not find, followed by [remove] of that key,
    leaves [size()] and the answer of [find] for every key as they were.
    [remove] answers what [insert] answered. *)
Theorem insert_then_remove_restores_the_answers (hasher : Z → Z) (fuel : nat)
    (t : OpenAddressing.HashTable) (t' : AVLTable.AVLHashTable) (k v : Z) :
  2 ≤ fuel →
  Base.reachable (Base.open_addressing hasher) OpenAddressing.new t →
  Base.reachable (Base.avl_buckets hasher) AVLTable.new t' →
  (OpenAddressing.find hasher t k = Done None →
   ∃ t1 b t2,
     OpenAddressing.insert hasher fuel t k v = Done (t1, b)
     ∧ OpenAddressing.remove hasher t1 k = Done (t2, b)
     ∧ OpenAddressing.size t2 = OpenAddressing.size t
     ∧ ∀ k', OpenAddressing.find hasher t2 k' = OpenAddressing.find hasher t k')
  ∧ (AVLTable.find hasher t' k = Done None →
     ∃ t1 t2,
       AVLTable.insert hasher fuel t' k v = Done (t1, true)
       ∧ AVLTable.remove hasher t1 k = Done (t2, true)
       ∧ AVLTable.size t2 = AVLTable.size t'
       ∧ ∀ k', AVLTable.find hasher t2 k' = AVLTable.find hasher t' k').
Proof.
  intros Hf [m HI]%Variants.open_addressing_reachable
    [m' HI']%Variants.avl_buckets_reachable.
  split.
  - intros Hfind. rewrite (OpenAddressingInv.oa_find_spec _ _ _ k HI) in Hfind.
    destruct (Composition.insert_remove _ _
                (Variants.open_addressing_stores hasher) fuel t m k v HI Hf)
      as (t1 & b & t2 & Hins & Hrem & HI2); [congruence|].
    exists t1, b, t2. split_and!; try done.
    + unfold OpenAddressing.size.
      by rewrite (OpenAddressingInv.inv_size _ _ _ HI2),
        (OpenAddressingInv.inv_size _ _ _ HI).
    + intros k'. by rewrite (OpenAddressingInv.oa_find_spec _ _ _ k' HI2),
        (OpenAddressingInv.oa_find_spec _ _ _ k' HI).
  - intros Hfind. pose proof HI' as [HIa Hl].
    rewrite (AVLInv.avl_find_spec _ _ _ k HIa) in Hfind.
    destruct (Composition.insert_remove _ _
                (Variants.avl_buckets_stores hasher) fuel t' m' k v HI' Hf)
      as (t1 & b & t2 & Hins & Hrem & [HI2 _]); [congruence|].
    destruct (AVLInv.avl_insert_spec hasher t' m' k v fuel HIa Hl Hf)
      as (t1' & Hins' & _).
    simpl in Hins. assert (b = true) as -> by congruence.
    exists t1, t2. split_and!; try done.
    + unfold AVLTable.size.
      by rewrite (AVLInv.inv_size _ _ _ HI2), (AVLInv.inv_size _ _ _ HIa).
    + intros k'. by rewrite (AVLInv.avl_find_spec _ _ _ k' HI2),
        (AVLInv.avl_find_spec _ _ _ k' HIa).
Qed.

Lemma insert_then_remove_restores_the_answers_witness :
  (OpenAddressing.find Hash.mix Demo.open_addressing_table 7 = Done None →
   ∃ t1 b t2,
     OpenAddressing.insert Hash.mix 2 Demo.open_addressing_table 7 70
     = Done (t1, b)
     ∧ OpenAddressing.remove Hash.mix t1 7 = Done (t2, b)
     ∧ OpenAddressing.size t2 = OpenAddressing.size Demo.open_addressing_table
     ∧ ∀ k', OpenAddressing.find Hash.mix t2 k'
             = OpenAddressing.find Hash.mix Demo.open_addressing_table k')
  ∧ OpenAddressing.find Hash.mix Demo.open_addressing_table 7 = Done None.
Proof.
  split; [|vm_compute; reflexivity].
  apply (insert_then_remove_restores_the_answers Hash.mix 2
           Demo.open_addressing_table Demo.avl_table 7 70).
  - lia.
  - exact Demo.open_addressing_table_reachable.
  - exact Demo.avl_table_reachable.
Defined.

(** X11. The two tables are interchangeable behind [HashTableBase]: when
    a sequence of calls on a fresh open-addressing table returns with every
    [insert] answering [true], the same sequence on a fresh AVL table
    returns the same replies, whatever the two capacities and the two hash
    functions; the two tables then have the same [size()] and [find] the
    same values. *)
Theorem both_tables_give_the_same_replies (hasher1 hasher2 : Z → Z)
    (n1 n2 fuel : nat) (cs : list Base.call)
    (t1 : OpenAddressing.HashTable) (rs : list Base.reply) :
  0 < n1 → 0 < n2 → 2 ≤ fuel →
  Base.run (Base.open_addressing hasher1) fuel cs (OpenAddressing.new n1)
  = Done (t1, rs) →
  Agreement.inserts_succeed cs rs →
  ∃ t2,
    Base.run (Base.avl_buckets hasher2) fuel cs (AVLTable.new n2) = Done (t2, rs)
    ∧ AVLTable.size t2 = OpenAddressing.size t1
    ∧ ∀ k, AVLTable.find hasher2 t2 k = OpenAddressing.find hasher1 t1 k.
Proof.
  intros Hn1 Hn2 Hf Hrun Hok.
  pose proof (Variants.open_addressing_new hasher1 n1 Hn1) as HI1.
  pose proof (Variants.avl_buckets_new hasher2 n2 Hn2) as HI2.
  destruct (Refinement.run_spec _ _ (Variants.avl_buckets_stores hasher2)
              fuel cs _ _ HI2 Hf) as (t2 & rs2 & m2 & Hrun2 & _).
  pose proof (AVLSteps.avl_run_inserts_succeed hasher2 fuel cs _ _ _ _ HI2 Hf Hrun2)
    as Hok2.
  destruct (Agreement.run_agree _ _ _ _
              (Variants.open_addressing_stores hasher1)
              (Variants.avl_buckets_stores hasher2)
              fuel cs _ _ _ _ _ _ _ HI1 HI2 Hf Hrun Hrun2 Hok Hok2)
    as (<- & m' & H1 & [H2 _]).
  exists t2. split_and!; try done.
  - unfold AVLTable.size, OpenAddressing.size.
    by rewrite (AVLInv.inv_size _ _ _ H2), (OpenAddressingInv.inv_size _ _ _ H1).
  - intros k. by rewrite (AVLInv.avl_find_spec _ _ _ k H2),
      (OpenAddressingInv.oa_find_spec _ _ _ k H1).
Qed.

Lemma both_tables_give_the_same_replies_witness :
  ∃ t2,
    Base.run (Base.avl_buckets Hash.std_hash_identity) 2 Demo.calls
      (AVLTable.new 3)
    = Done (t2, [Base.Flag true; Base.Flag true; Base.Flag true;
                 Base.Flag true; Base.Flag true])
    ∧ AVLTable.size t2 = OpenAddressing.size Demo.open_addressing_table
    ∧ ∀ k, AVLTable.find Hash.std_hash_identity t2 k
           = OpenAddressing.find Hash.mix Demo.open_addressing_table k.
Proof.
  apply (both_tables_give_the_same_replies Hash.mix Hash.std_hash_identity
           8 3 2 Demo.calls).
  - lia.
  - lia.
  - lia.
  - vm_compute. reflexivity.
  - vm_compute. tauto.
Defined.

(** X12. [insert_avl] on any balanced search tree (not only on the
    bucket of a table): it returns, without dereferencing null; the tree
    it returns is a balanced search tree that holds the pair and the old
    pairs of the other keys; the flag tells whether the key is new; the
    height grows by one at most, and the tree has one more node exactly
    when the key is new. *)
Theorem insert_avl_keeps_a_balanced_search_tree (n : AVLTable.AVLNode)
    (k v : Z) :
  AVLBalance.avl n → StronglySorted Z.lt (AVLOrder.keys n) →
  ∃ n' b,
    AVLTable.insert_avl n k v = Done (n', b)
    ∧ AVLBalance.avl n' ∧ StronglySorted Z.lt (AVLOrder.keys n')
    ∧ (∀ k' v', (k', v') ∈ AVLOrder.elements n'
         ↔ (k' = k ∧ v' = v) ∨ (k' ≠ k ∧ (k', v') ∈ AVLOrder.elements n))
    ∧ (b = true ↔ k ∉ AVLOrder.keys n)
    ∧ (AVLTable.get_height n ≤ AVLTable.get_height n'
       ≤ AVLTable.get_height n + 1)%Z
    ∧ AVLCount.node_count n'
      = AVLCount.node_count n + (if b then 1 else 0).
Proof.
  intros Ha Hb.
  destruct (AVLBalance.insert_avl_avl n k v Ha) as (n' & b & Hins & Ha' & Hh & _).
  destruct (AVLOrder.insert_avl_elements n k v n' b Hb Hins) as (Hb' & Hel & Hnew).
  exists n', b. do 6 (split; [done|]).
  assert (Hks : ∀ x, x ∈ AVLOrder.keys n' ↔ x = k ∨ x ∈ AVLOrder.keys n).
  { intros x. rewrite !AVLOrder.elem_of_keys. split.
    - intros [w [[-> _]|[_ Hw]]%Hel]; eauto.
    - intros [->|[w Hw]].
      + exists v. apply Hel. auto.
      + destruct (decide (x = k)) as [->|Hne].
        * exists v. apply Hel. auto.
        * exists w. apply Hel. auto. }
  destruct b.
  - apply (TreeContract.more_keys_count n n' k); try done. by apply Hnew.
  - rewrite Nat.add_0_r. apply TreeContract.same_keys_count; try done.
    intros x. rewrite Hks. split; [|auto]. intros [->|?]; [|done].
    destruct (decide (k ∈ AVLOrder.keys n)) as [?|Hn]; [done|].
    by apply Hnew in Hn.
Qed.

Lemma insert_avl_keeps_a_balanced_search_tree_witness :
  ∃ n' b,
    AVLTable.insert_avl
      (AVLTable.node 2 20 2 (AVLTable.node 1 10 1 AVLTable.null AVLTable.null)
         AVLTable.null) 0 5
    = Done (n', b)
    ∧ AVLBalance.avl n' ∧ StronglySorted Z.lt (AVLOrder.keys n')
    ∧ (∀ k' v', (k', v') ∈ AVLOrder.elements n'
         ↔ (k' = 0%Z ∧ v' = 5%Z)
           ∨ (k' ≠ 0%Z
              ∧ (k', v') ∈ AVLOrder.elements
                  (AVLTable.node 2 20 2
                     (AVLTable.node 1 10 1 AVLTable.null AVLTable.null)
                     AVLTable.null)))
    ∧ (b = true
       ↔ 0%Z ∉ AVLOrder.keys
           (AVLTable.node 2 20 2
              (AVLTable.node 1 10 1 AVLTable.null AVLTable.null)
              AVLTable.null))
    ∧ (AVLTable.get_height
         (AVLTable.node 2 20 2
            (AVLTable.node 1 10 1 AVLTable.null AVLTable.null) AVLTable.null)
       ≤ AVLTable.get_height n'
       ≤ AVLTable.get_height
           (AVLTable.node 2 20 2
              (AVLTable.node 1 10 1 AVLTable.null AVLTable.null)
              AVLTable.null) + 1)%Z
    ∧ AVLCount.node_count n'
      = AVLCount.node_count
          (AVLTable.node 2 20 2
             (AVLTable.node 1 10 1 AVLTable.null AVLTable.null) AVLTable.null)
        + (if b then 1 else 0).
Proof.
  apply insert_avl_keeps_a_balanced_search_tree.
  - simpl. lia.
  - vm_compute. repeat constructor.
Defined.

(** X13. [remove_avl] on any balanced search tree: it returns, without
    dereferencing null; the tree it returns is a balanced search tree that
    holds the old pairs of the other keys; the flag tells whether the key
    was there; the height shrinks by one at most, the tree has one node
    fewer exactly when the key was there, and the very same tree is
    returned when it was not. *)
Theorem remove_avl_keeps_a_balanced_search_tree (n : AVLTable.AVLNode)
    (k : Z) :
  AVLBalance.avl n → StronglySorted Z.lt (AVLOrder.keys n) →
  ∃ n' b,
    AVLTable.remove_avl n k = Done (n', b)
    ∧ AVLBalance.avl n' ∧ StronglySorted Z.lt (AVLOrder.keys n')
    ∧ (∀ k' v', (k', v') ∈ AVLOrder.elements n'
         ↔ k' ≠ k ∧ (k', v') ∈ AVLOrder.elements n)
    ∧ (b = true ↔ k ∈ AVLOrder.keys n)
    ∧ (AVLTable.get_height n - 1 ≤ AVLTable.get_height n'
       ≤ AVLTable.get_height n)%Z
    ∧ AVLCount.node_count n
      = AVLCount.node_count n' + (if b then 1 else 0)
    ∧ (b = false → n' = n).
Proof.
  intros Ha Hb.
  destruct (AVLBalance.remove_avl_avl n k Ha) as (n' & b & Hrem & Ha' & Hh).
  destruct (AVLOrder.remove_avl_elements n k n' b Hb Hrem) as (Hb' & Hel & Hold).
  exists n', b. do 6 (split; [done|]). split.
  - assert (Hks : ∀ x, x ∈ AVLOrder.keys n'
                       ↔ x ≠ k ∧ x ∈ AVLOrder.keys n).
    { intros x. rewrite !AVLOrder.elem_of_keys. split.
      - intros [w [? Hw]%Hel]; eauto.
      - intros [Hne [w Hw]]. exists w. apply Hel. auto. }
    destruct b.
    + apply (TreeContract.more_keys_count n' n k); try done.
      * rewrite Hks. tauto.
      * intros x. rewrite Hks. destruct (decide (x = k)) as [->|Hne].
        -- split; [auto|]. intros _. by apply Hold.
        -- tauto.
    + rewrite Nat.add_0_r. symmetry. apply TreeContract.same_keys_count; try done.
      intros x. rewrite Hks. split; [tauto|]. intros Hx. split; [|done].
      intros ->. by apply Hold in Hx.
  - intros ->.
    assert (Hk : k ∉ AVLOrder.keys n) by (intros Hk%Hold; done).
    rewrite (AVLInv.remove_avl_absent id n k Ha Hb Hk) in Hrem. congruence.
Qed.

Lemma remove_avl_keeps_a_balanced_search_tree_witness :
  let n :=
    AVLTable.node 2 20 2 (AVLTable.node 1 10 1 AVLTable.null AVLTable.null)
      AVLTable.null in
  ∃ n' b,
    AVLTable.remove_avl n 2 = Done (n', b)
    ∧ AVLBalance.avl n' ∧ StronglySorted Z.lt (AVLOrder.keys n')
    ∧ (∀ k' v', (k', v') ∈ AVLOrder.elements n'
         ↔ k' ≠ 2%Z ∧ (k', v') ∈ AVLOrder.elements n)
    ∧ (b = true ↔ 2%Z ∈ AVLOrder.keys n)
    ∧ (AVLTable.get_height n - 1 ≤ AVLTable.get_height n'
       ≤ AVLTable.get_height n)%Z
    ∧ AVLCount.node_count n
      = AVLCount.node_count n' + (if b then 1 else 0)
    ∧ (b = false → n' = n).
Proof.
  apply remove_avl_keeps_a_balanced_search_tree.
  - simpl. lia.
  - vm_compute. repeat constructor.
Defined.

(** X14. [find_avl] on a balanced search tree answers with the value
    that the in-order traversal pairs with the key. After [insert_avl] of
    [(k, v)] it finds [v] for [k]; after [remove_avl] of [k] it finds
    nothing for [k]; in both cases it answers for every other key what it
    answered before. *)
Theorem find_avl_follows_insert_avl_and_remove_avl (n : AVLTable.AVLNode)
    (k v : Z) :
  AVLBalance.avl n → StronglySorted Z.lt (AVLOrder.keys n) →
  (∀ w, AVLTable.find_avl n k = Some w ↔ (k, w) ∈ AVLOrder.elements n)
  ∧ (∃ n' b,
       AVLTable.insert_avl n k v = Done (n', b)
       ∧ AVLTable.find_avl n' k = Some v
       ∧ ∀ k', k' ≠ k → AVLTable.find_avl n' k' = AVLTable.find_avl n k')
  ∧ (∃ n' b,
       AVLTable.remove_avl n k = Done (n', b)
       ∧ AVLTable.find_avl n' k = None
       ∧ ∀ k', k' ≠ k → AVLTable.find_avl n' k' = AVLTable.find_avl n k').
Proof.
  intros Ha Hb. split_and!.
  - intros w. by apply AVLOrder.find_avl_elements.
  - destruct (AVLBalance.insert_avl_avl n k v Ha) as (n' & b & Hins & _).
    destruct (AVLOrder.insert_avl_elements n k v n' b Hb Hins) as (Hb' & Hel & _).
    exists n', b. split_and!; [done| |].
    + apply (AVLOrder.find_avl_elements _ _ _ Hb'), Hel. auto.
    + intros k' Hne. apply TreeLookup.find_avl_same; try done.
      intros w. rewrite Hel. split; [|auto]. intros [[? _]|[_ ?]]; done.
  - destruct (AVLBalance.remove_avl_avl n k Ha) as (n' & b & Hrem & _).
    destruct (AVLOrder.remove_avl_elements n k n' b Hb Hrem) as (Hb' & Hel & _).
    exists n', b. split_and!; [done| |].
    + destruct (AVLTable.find_avl n' k) as [w|] eqn:E; [|done].
      apply (AVLOrder.find_avl_elements _ _ _ Hb'), Hel in E. by destruct E.
    + intros k' Hne. apply TreeLookup.find_avl_same; try done.
      intros w. rewrite Hel. tauto.
Qed.

Lemma find_avl_follows_insert_avl_and_remove_avl_witness :
  let n :=
    AVLTable.node 2 20 2 (AVLTable.node 1 10 1 AVLTable.null AVLTable.null)
      AVLTable.null in
  (∀ w, AVLTable.find_avl n 1 = Some w ↔ (1%Z, w) ∈ AVLOrder.elements n)
  ∧ (∃ n' b,
       AVLTable.insert_avl n 1 11 = Done (n', b)
       ∧ AVLTable.find_avl n' 1 = Some 11%Z
       ∧ ∀ k', k' ≠ 1%Z → AVLTable.find_avl n' k' = AVLTable.find_avl n k')
  ∧ (∃ n' b,
       AVLTable.remove_avl n 1 = Done (n', b)
       ∧ AVLTable.find_avl n' 1 = None
       ∧ ∀ k', k' ≠ 1%Z → AVLTable.find_avl n' k' = AVLTable.find_avl n k').
Proof.
  apply find_avl_follows_insert_avl_and_remove_avl.
  - simpl. lia.
  - vm_compute. repeat constructor.
Defined.

(** X15. [find_min] on a search tree that is not null returns a node
    without a left child, whose pair is in the tree and whose key is the
    least key of the tree. *)
Theorem find_min_returns_the_least_key (n : AVLTable.AVLNode) :
  StronglySorted Z.lt (AVLOrder.keys n) → n ≠ AVLTable.null →
  ∃ k v h r,
    AVLTable.find_min n = Done (AVLTable.node k v h AVLTable.null r)
    ∧ (k, v) ∈ AVLOrder.elements n
    ∧ ∀ x, x ∈ AVLOrder.keys n → (k ≤ x)%Z.
Proof.
  intros Hb Hn.
  destruct (AVLBalance.find_min_Done n Hn) as (k & v & h & r & Hm).
  destruct (AVLOrder.find_min_elements n _ Hb Hm) as (tk & tv & Hk & Hv & Hin & Hle).
  injection Hk as <-. injection Hv as <-.
  by exists k, v, h, r.
Qed.

Lemma find_min_returns_the_least_key_witness :
  ∃ k v h r,
    AVLTable.find_min
      (AVLTable.node 2 20 2 (AVLTable.node 1 10 1 AVLTable.null AVLTable.null)
         AVLTable.null)
    = Done (AVLTable.node k v h AVLTable.null r)
    ∧ (k, v) ∈ AVLOrder.elements
        (AVLTable.node 2 20 2 (AVLTable.node 1 10 1 AVLTable.null AVLTable.null)
           AVLTable.null)
    ∧ ∀ x, x ∈ AVLOrder.keys
        (AVLTable.node 2 20 2 (AVLTable.node 1 10 1 AVLTable.null AVLTable.null)
           AVLTable.null) → (k ≤ x)%Z.
Proof.
  apply find_min_returns_the_least_key.
  - vm_compute. repeat constructor.
  - discriminate.
Defined.

(** X16. [rotate_right] on a node whose height and whose left child's
    height are up to date returns the left child as the new root, and
    [rotate_left] applied to the result returns the node it started from;
    the in-order traversal is the same. Either rotation dereferences null
    on a null node and on a node without the child it lifts. *)
Theorem rotations_undo_each_other (k1 v1 k2 v2 h1 h2 : Z)
    (T1 T2 T3 : AVLTable.AVLNode) :
  let x := AVLTable.update_height (AVLTable.node k1 v1 h1 T1 T2) in
  let y := AVLTable.update_height (AVLTable.node k2 v2 h2 x T3) in
  let y' := AVLTable.update_height (AVLTable.node k2 v2 h2 T2 T3) in
  let x' := AVLTable.update_height (AVLTable.node k1 v1 h1 T1 y') in
  AVLTable.rotate_right y = Done x'
  ∧ AVLTable.rotate_left x' = Done y
  ∧ AVLOrder.elements x' = AVLOrder.elements y
  ∧ AVLTable.rotate_right AVLTable.null = NullDeref
  ∧ AVLTable.rotate_right (AVLTable.node k2 v2 h2 AVLTable.null T3) = NullDeref
  ∧ AVLTable.rotate_left AVLTable.null = NullDeref
  ∧ AVLTable.rotate_left (AVLTable.node k1 v1 h1 T1 AVLTable.null) = NullDeref.
Proof.
  simpl. split_and!; try done. by rewrite <- app_assoc.
Qed.

(** X17. On an AVL table that a caller can reach, the longest path of
    the tree of a bucket with [c] nodes has at most [2 * log2 (c + 1)]
    nodes, and [c] is at most [size()]. *)
Theorem bucket_height_is_logarithmic (hasher : Z → Z)
    (t : AVLTable.AVLHashTable) (i : nat) (n : AVLTable.AVLNode) :
  Base.reachable (Base.avl_buckets hasher) AVLTable.new t →
  AVLTable.table t !! i = Some n →
  (AVLBalance.real_height n
   ≤ 2 * Z.log2 (Z.of_nat (AVLCount.node_count n) + 1))%Z
  ∧ AVLCount.node_count n ≤ AVLTable.size t.
Proof.
  intros [m [HI _]]%Variants.avl_buckets_reachable Hn.
  destruct (AVLInv.inv_trees _ _ _ HI _ _ Hn) as [_ Ha].
  split; [by apply AVLCount.avl_height_log|].
  by eapply AVLSteps.bucket_count_le.
Qed.

Lemma bucket_height_is_logarithmic_witness :
  let n :=
    AVLTable.node 2 20 2 (AVLTable.node 1 10 1 AVLTable.null AVLTable.null)
      AVLTable.null in
  (AVLBalance.real_height n
   ≤ 2 * Z.log2 (Z.of_nat (AVLCount.node_count n) + 1))%Z
  ∧ AVLCount.node_count n ≤ AVLTable.size DemoLoaded.avl_table.
Proof.
  apply (bucket_height_is_logarithmic Hash.mix DemoLoaded.avl_table 0 _
           DemoLoaded.loaded_avl_reachable).
  reflexivity.
Defined.

(** X18. [display()] of an open-addressing table that a caller can
    reach: it returns (no slot outside the vector is read); it writes the
    title, one row for each slot in the order of the indices, and the line
    [Size: current_size/table_size]; the row of slot [i] is [Index i: ]
    followed by the pair, [[DELETED]] or [[EMPTY]]; and a row shows the pair
    [(k,v)] exactly when [find(k)] answers [true] with [v]: the key of a
    removed entry is never shown. *)
Theorem display_shows_the_live_entries (hasher : Z → Z)
    (t : OpenAddressing.HashTable) (k v : Z) :
  Base.reachable (Base.open_addressing hasher) OpenAddressing.new t →
  ∃ rows,
    OpenAddressingDisplay.display t
    = Done ([Console.Text "=== Open Addressing Hash Table ==="]
            :: rows
            ++ [[Console.Text "Size: "; Console.Size (OpenAddressing.size t);
                 Console.Text "/";
                 Console.Size (OpenAddressing.table_size t)]])
    ∧ length rows = OpenAddressing.table_size t
    ∧ (∀ i e, OpenAddressing.table t !! i = Some e →
         rows !! i
         = Some ([Console.Text "Index "; Console.Size i; Console.Text ": "]
                 ++ OpenAddressingDisplay.show_entry e))
    ∧ ((∃ i, [Console.Text "Index "; Console.Size i; Console.Text ": ";
              Console.Text "("; Console.Int k; Console.Text ",";
              Console.Int v; Console.Text ")"] ∈ rows)
       ↔ OpenAddressing.find hasher t k = Done (Some v)).
Proof.
  intros [m HI]%Variants.open_addressing_reachable.
  pose proof (OpenAddressingInv.inv_shape _ _ _ HI) as Hs.
  exists (imap OpenAddressingDisplay.row (OpenAddressing.table t)).
  split_and!.
  - by apply DisplayFacts.oa_display_spec.
  - rewrite length_imap. apply Hs.
  - intros i e He. by rewrite list_lookup_imap, He.
  - rewrite (OpenAddressingInv.oa_find_spec _ _ _ k HI).
    split.
    + intros [i Hi]. f_equal. apply (OpenAddressingInv.inv_content _ _ _ HI).
      exists i. by apply DisplayFacts.oa_row_pair.
    + intros [= [i Hi]%(OpenAddressingInv.inv_content _ _ _ HI)].
      exists i. by apply DisplayFacts.oa_row_pair in Hi.
Qed.

Lemma display_shows_the_live_entries_witness :
  ∃ rows,
    OpenAddressingDisplay.display Demo.open_addressing_table
    = Done ([Console.Text "=== Open Addressing Hash Table ==="]
            :: rows
            ++ [[Console.Text "Size: "; Console.Size 3; Console.Text "/";
                 Console.Size 8]])
    ∧ length rows = 8
    ∧ (∀ i e, OpenAddressing.table Demo.open_addressing_table !! i = Some e →
         rows !! i
         = Some ([Console.Text "Index "; Console.Size i; Console.Text ": "]
                 ++ OpenAddressingDisplay.show_entry e))
    ∧ ((∃ i, [Console.Text "Index "; Console.Size i; Console.Text ": ";
              Console.Text "("; Console.Int 31; Console.Text ",";
              Console.Int 310; Console.Text ")"] ∈ rows)
       ↔ OpenAddressing.find Hash.mix Demo.open_addressing_table 31
         = Done (Some 310%Z)).
Proof.
  apply (display_shows_the_live_entries Hash.mix Demo.open_addressing_table
           31 310 Demo.open_addressing_table_reachable).
Defined.

(** X19. [display_avl(node, depth)] writes one line for each node: the
    pairs come in the order of the in-order traversal read backwards (on a
    search tree, by decreasing key), each behind [depth] indentations at
    least and fewer than [depth] plus the height of the tree. *)
Theorem display_avl_prints_the_tree_backwards (n : AVLTable.AVLNode)
    (depth : nat) :
  Forall2
    (λ l kv, ∃ d,
       depth ≤ d ∧ (Z.of_nat d < Z.of_nat depth + AVLBalance.real_height n)%Z
       ∧ l = replicate d (Console.Text "  ")
             ++ [Console.Text "("; Console.Int kv.1; Console.Text ",";
                 Console.Int kv.2; Console.Text ")"])
    (AVLDisplay.display_avl n depth) (reverse (AVLOrder.elements n)).
Proof. apply DisplayFacts.display_avl_spec. Qed.

(** X20. [display()] of an AVL table that a caller can reach (the second
    version of the header): it returns; it writes the title, the line
    [Bucket i:] for every bucket, and the line of the size and the
    capacity; and some line shows the pair [(k,v)] behind its indentation
    exactly when [find(k)] answers [true] with [v]. *)
Theorem avl_display_shows_the_stored_pairs (hasher : Z → Z)
    (t : AVLTable.AVLHashTable) (k v : Z) :
  Base.reachable (Base.avl_buckets hasher) AVLTable.new t →
  ∃ rows,
    AVLDisplay.display t
    = Done ([Console.Text "=== AVL Hash Table ==="]
            :: rows
            ++ [[Console.Text "Total Size: "; Console.Size (AVLTable.size t);
                 Console.Text " / Table Capacity: ";
                 Console.Size (AVLTable.table_size t)]])
    ∧ (∀ i, i < AVLTable.table_size t →
         [Console.Text "Bucket "; Console.Size i; Console.Text ":"] ∈ rows)
    ∧ ((∃ d, replicate d (Console.Text "  ")
             ++ [Console.Text "("; Console.Int k; Console.Text ",";
                 Console.Int v; Console.Text ")"] ∈ rows)
       ↔ AVLTable.find hasher t k = Done (Some v)).
Proof.
  intros [m [HI _]]%Variants.avl_buckets_reachable.
  destruct (AVLInv.inv_shape _ _ _ HI) as [Hlen Hpos].
  exists (mjoin (imap DisplayFacts.bucket_lines (AVLTable.table t))).
  split_and!.
  - by apply DisplayFacts.avl_display_spec.
  - intros i Hi.
    destruct (lookup_lt_is_Some_2 (AVLTable.table t) i) as [n Hn]; [lia|].
    apply list_elem_of_join. exists (DisplayFacts.bucket_lines i n). split.
    + left.
    + by apply (elem_of_lookup_imap_2 DisplayFacts.bucket_lines) in Hn.
  - rewrite (AVLInv.avl_find_spec _ _ _ k HI). split.
    + intros [d Hd]. f_equal. apply (AVLInv.inv_content _ _ _ HI).
      by eapply DisplayFacts.avl_rows_pair.
    + intros [= (i & n & Hn & Hkv)%(AVLInv.inv_content _ _ _ HI)].
      by eapply DisplayFacts.avl_rows_shows.
Qed.

Lemma avl_display_shows_the_stored_pairs_witness :
  ∃ rows,
    AVLDisplay.display DemoLoaded.avl_table
    = Done ([Console.Text "=== AVL Hash Table ==="]
            :: rows
            ++ [[Console.Text "Total Size: "; Console.Size 2;
                 Console.Text " / Table Capacity: "; Console.Size 1]])
    ∧ (∀ i, i < 1 →
         [Console.Text "Bucket "; Console.Size i; Console.Text ":"] ∈ rows)
    ∧ ((∃ d, replicate d (Console.Text "  ")
             ++ [Console.Text "("; Console.Int 1; Console.Text ",";
                 Console.Int 10; Console.Text ")"] ∈ rows)
       ↔ AVLTable.find Hash.mix DemoLoaded.avl_table 1 = Done (Some 10%Z)).
Proof.
  apply (avl_display_shows_the_stored_pairs Hash.mix DemoLoaded.avl_table
           1 10 DemoLoaded.loaded_avl_reachable).
Defined.

(** X21. The body of the loop of [demonstration()], on a table of
    capacity 8 as the harness constructs it, whatever the hash function:
    for the open-addressing table and for the AVL table it returns, and
    after the lines of [display] (18 of them for open addressing, which has
    grown to 16 slots) it writes the same lines: the keys 10, 22 and 4 are
    found with the values 100, 220 and 40, the key 99 is not, the keys 22
    and 31 are removed, the key 100 is not, and the size is 7. The table is
    left empty. *)
Theorem demonstration_prints_the_same_answers (hasher : Z → Z) (fuel : nat) :
  2 ≤ fuel →
  (∃ t shown,
     Harness.demonstrate (Harness.open_addressing hasher) fuel
       (OpenAddressing.new 8)
     = Done (t,
             [Console.Text (Harness.newline +:+ "--- Inserting data into ");
              Console.Text "Open Addressing Hash Table"; Console.Text " ---"]
             :: shown ++ HarnessFacts.answers_printed)
     ∧ length shown = 18
     ∧ OpenAddressing.size t = 0)
  ∧ (∃ t shown,
       Harness.demonstrate (Harness.avl_buckets hasher) fuel (AVLTable.new 8)
       = Done (t,
               [Console.Text (Harness.newline +:+ "--- Inserting data into ");
                Console.Text "AVL Hash Table"; Console.Text " ---"]
               :: shown ++ HarnessFacts.answers_printed)
       ∧ AVLTable.size t = 0).
Proof.
  intros Hf. split.
  - destruct (OpenAddressingInv.oa_Inv_new hasher 8 ltac:(lia)) as [HI0 _].
    pose proof (OpenAddressingInv.oa_Inv_clear hasher _
                  (OpenAddressingInv.inv_shape _ _ _ HI0)) as HIc.
    destruct (HarnessFacts.oa_insert_all hasher fuel Harness.sample_data _ _ HIc
                (OpenAddressingSteps.clear_no_tombstone _) Hf)
      as (t1 & Hins & HI1 & _ & Hcap).
    pose proof (DisplayFacts.oa_display_spec t1
                  (OpenAddressingInv.inv_shape _ _ _ HI1)) as Hshow.
    destruct (HarnessFacts.demonstrate_spec (Harness.open_addressing hasher) _
                (Variants.open_addressing_stores hasher) fuel _ t1 _
                Hins HI1 Hshow) as (t' & Hdemo & HI').
    eexists t', _. split_and!.
    + exact Hdemo.
    + simpl. rewrite length_app, length_imap. simpl.
      destruct (OpenAddressingInv.inv_shape _ _ _ HI1) as [-> _].
      rewrite Hcap. reflexivity.
    + unfold OpenAddressing.size.
      by rewrite (OpenAddressingInv.inv_size _ _ _ HI'), map_size_empty.
  - pose proof (Variants.avl_buckets_new hasher 8 ltac:(lia)) as HI0.
    pose proof (Refinement.stores_clear _ _ (Variants.avl_buckets_stores hasher)
                  _ _ HI0) as HIc.
    destruct (HarnessFacts.avl_insert_all hasher fuel Harness.sample_data _ _ HIc Hf)
      as (t1 & Hins & HI1).
    pose proof (DisplayFacts.avl_display_spec t1
                  (proj1 (AVLInv.inv_shape _ _ _ (proj1 HI1)))) as Hshow.
    destruct (HarnessFacts.demonstrate_spec (Harness.avl_buckets hasher) _
                (Variants.avl_buckets_stores hasher) fuel _ t1 _
                Hins HI1 Hshow) as (t' & Hdemo & [HI' _]).
    eexists t', _. split_and!.
    + exact Hdemo.
    + unfold AVLTable.size.
      by rewrite (AVLInv.inv_size _ _ _ HI'), map_size_empty.
Qed.

Lemma demonstration_prints_the_same_answers_witness :
  ∃ t shown,
    Harness.demonstrate (Harness.avl_buckets Hash.std_hash_identity) 2
      (AVLTable.new 8)
    = Done (t,
            [Console.Text (Harness.newline +:+ "--- Inserting data into ");
             Console.Text "AVL Hash Table"; Console.Text " ---"]
            :: shown ++ HarnessFacts.answers_printed)
    ∧ AVLTable.size t = 0.
Proof.
  apply (demonstration_prints_the_same_answers Hash.std_hash_identity 2). lia.
Defined.
